(** * Experience analyzer: extraction and reconciliation of employment records

    A shallow embedding of the Python package [experience_analyzer]
    ([models.py], [comparer.py], [text_parser.py]) together with the parts of
    the Python runtime it calls ([datetime.date], [str] methods,
    [datetime.strptime], [difflib.SequenceMatcher], the regular
    expressions of the parser), followed by the properties of the
    specification that were checked against it.

    Conventions.
    - [None] is [None]; an [Optional[T]] is an [option T].
    - A Python [str] is a list of code points.  The embedding covers the code
      points U+0000..U+00FF (one [ascii] per code point, read as ISO 8859-1),
      which contain every character of the program's keyword tables.
    - A [float] is an IEEE 754 binary64 value ([PrimFloat.float]).
    - Python objects that are mutated through aliases ([ExperienceRecord]s in
      [merge_overlapping_records]) live in an explicit store indexed by
      references. *)

From Stdlib Require Import ZArith List Ascii String Bool Lia Floats.
From stdpp Require Import base gmap sets.
Import ListNotations.

Set Warnings "-inexact-float,-clear-no-such-hyp".
Local Open Scope Z_scope.

(* ===================================================================== *)
(** * [datetime.date] *)
(* ===================================================================== *)

Module PyDate.

(** A [date] is a (year, month, day) triple; the constructor of the
    Python class rejects triples that are not calendar dates. *)
Record date := mkdate { year : Z; month : Z; day : Z }.

Definition MINYEAR : Z := 1.
Definition MAXYEAR : Z := 9999.

Definition _is_leap (y : Z) : bool :=
  (y mod 4 =? 0) && (negb (y mod 100 =? 0) || (y mod 400 =? 0)).

Definition _days_before_year (y : Z) : Z :=
  let y1 := y - 1 in y1 * 365 + y1 / 4 - y1 / 100 + y1 / 400.

Definition _DAYS_IN_MONTH (m : Z) : Z :=
  match m with
  | 1 => 31 | 2 => 28 | 3 => 31 | 4 => 30 | 5 => 31 | 6 => 30
  | 7 => 31 | 8 => 31 | 9 => 30 | 10 => 31 | 11 => 30 | 12 => 31
  | _ => -1
  end.

Definition _DAYS_BEFORE_MONTH (m : Z) : Z :=
  match m with
  | 1 => 0 | 2 => 31 | 3 => 59 | 4 => 90 | 5 => 120 | 6 => 151
  | 7 => 181 | 8 => 212 | 9 => 243 | 10 => 273 | 11 => 304 | 12 => 334
  | _ => -1
  end.

Definition _days_in_month (y m : Z) : Z :=
  if (m =? 2) && _is_leap y then 29 else _DAYS_IN_MONTH m.

Definition _days_before_month (y m : Z) : Z :=
  _DAYS_BEFORE_MONTH m + (if (2 <? m) && _is_leap y then 1 else 0).

Definition _ymd2ord (y m d : Z) : Z :=
  _days_before_year y + _days_before_month y m + d.

(** [_check_date_fields]: the test whose failure raises [ValueError]. *)
Definition check_date_fields (y m d : Z) : bool :=
  (MINYEAR <=? y) && (y <=? MAXYEAR) && (1 <=? m) && (m <=? 12)
  && (1 <=? d) && (d <=? _days_in_month y m).

Definition valid_date (a : date) : bool :=
  check_date_fields (year a) (month a) (day a).

(** [date(y, m, d)]: [None] stands for the [ValueError] of the constructor. *)
Definition date_new (y m d : Z) : option date :=
  if check_date_fields y m d then Some (mkdate y m d) else None.

Definition date_min : date := mkdate 1 1 1.

Definition toordinal (a : date) : Z := _ymd2ord (year a) (month a) (day a).

(** [date._cmp]: comparison of the (year, month, day) tuples. *)
Definition date_cmp (a b : date) : comparison :=
  match year a ?= year b with
  | Eq => match month a ?= month b with
          | Eq => day a ?= day b
          | c => c
          end
  | c => c
  end.

Definition date_ltb (a b : date) : bool :=
  match date_cmp a b with Lt => true | _ => false end.
Definition date_leb (a b : date) : bool :=
  match date_cmp a b with Gt => false | _ => true end.
Definition date_gtb (a b : date) : bool := date_ltb b a.

(** [(a - b).days] *)
Definition sub_days (a b : date) : Z := toordinal a - toordinal b.

Definition date_eqb (a b : date) : bool :=
  (year a =? year b) && (month a =? month b) && (day a =? day b).

(** Validity of an optional date: [None] is always acceptable. *)
Definition valid_opt (o : option date) : bool :=
  match o with Some a => valid_date a | None => true end.

End PyDate.
Import PyDate.

(* ===================================================================== *)
(** * [models.py] *)
(* ===================================================================== *)

Definition str := list ascii.

Module Models.

(** [min(candidates)] on a non-empty list: the first smallest element. *)
Fixpoint py_min_from (best : date) (l : list date) : date :=
  match l with
  | [] => best
  | x :: l' => py_min_from (if date_ltb x best then x else best) l'
  end.

Definition not_None {A} (l : list (option A)) : list A :=
  flat_map (fun o => match o with Some a => [a] | None => [] end) l.

Definition _compute_effective_end
    (start_date end_date issue_date : option date) : option date :=
  match start_date with
  | None => None
  | Some _ =>
      match not_None [end_date; issue_date] with
      | [] => None
      | c :: cs => Some (py_min_from c cs)
      end
  end.

Definition _compute_days (start end_ : option date) : option Z :=
  match start, end_ with
  | Some s, Some e =>
      if date_ltb e s then Some 0 else Some (sub_days e s + 1)
  | _, _ => None
  end.

Record ExperienceRecord := mkRecord {
  source : str;
  employer : option str;
  start_date : option date;
  end_date : option date;
  issue_date : option date;
  effective_end_date : option date;
  experience_days : option Z
}.

(** [__post_init__]: recompute the two derived fields from the raw dates. *)
Definition post_init (r : ExperienceRecord) : ExperienceRecord :=
  let eff := _compute_effective_end (start_date r) (end_date r) (issue_date r) in
  {| source := source r; employer := employer r;
     start_date := start_date r; end_date := end_date r;
     issue_date := issue_date r;
     effective_end_date := eff;
     experience_days := _compute_days (start_date r) eff |}.

(** The dataclass constructor: the five [init] fields, then [__post_init__]. *)
Definition new_record (src : str) (emp : option str)
    (s e i : option date) : ExperienceRecord :=
  post_init (mkRecord src emp s e i None None).

Record ComparisonResult := mkComparison {
  certificate : ExperienceRecord;
  cv_entry : option ExperienceRecord;
  start_date_match : bool;
  details : str
}.

End Models.
Import Models.

(* ===================================================================== *)
(** * Python [str] on the code points U+0000..U+00FF *)
(* ===================================================================== *)

Module PyStr.

Definition ord (c : ascii) : N := N_of_ascii c.
Definition chr (n : N) : ascii := ascii_of_N n.

Definition between (lo hi n : N) : bool := ((lo <=? n) && (n <=? hi))%N.

(** [str.isspace] / the class [\s]: TAB..CR, FS..US, SPACE, NEL, NBSP. *)
Definition isspace (c : ascii) : bool :=
  let n := ord c in
  between 9 13 n || between 28 32 n || (n =? 133)%N || (n =? 160)%N.

(** The class [\d] (Unicode category Nd): only 0..9 below U+0100. *)
Definition isdecimal (c : ascii) : bool := between 48 57 (ord c).

Definition digit_value (c : ascii) : Z := Z.of_N (ord c) - 48.

(** [str.isalpha]: categories Lu, Ll, Lo (ª, µ, º and the accented letters;
    × U+00D7 and ÷ U+00F7 are symbols). *)
Definition isalpha (c : ascii) : bool :=
  let n := ord c in
  between 65 90 n || between 97 122 n
  || (n =? 170)%N || (n =? 181)%N || (n =? 186)%N
  || between 192 214 n || between 216 246 n || between 248 255 n.

(** [str.isalnum]: alphabetic, decimal, digit (², ³, ¹) or numeric (¼, ½, ¾). *)
Definition isalnum (c : ascii) : bool :=
  let n := ord c in
  isalpha c || isdecimal c
  || (n =? 178)%N || (n =? 179)%N || (n =? 185)%N || between 188 190 n.

(** [str.lower] on one code point: A..Z and À..Þ (except ×) move by 32. *)
Definition lower_char (c : ascii) : ascii :=
  let n := ord c in
  if between 65 90 n || (between 192 222 n && negb (n =? 215)%N)
  then chr (n + 32) else c.

Definition lower (s : str) : str := map lower_char s.

Definition char_eqb (x y : ascii) : bool := Ascii.eqb x y.

Fixpoint str_eqb (s t : str) : bool :=
  match s, t with
  | [], [] => true
  | x :: s', y :: t' => char_eqb x y && str_eqb s' t'
  | _, _ => false
  end.

Fixpoint lstrip_by (p : ascii -> bool) (s : str) : str :=
  match s with
  | c :: s' => if p c then lstrip_by p s' else s
  | [] => []
  end.

Definition rstrip_by (p : ascii -> bool) (s : str) : str :=
  rev (lstrip_by p (rev s)).

Definition strip_by (p : ascii -> bool) (s : str) : str :=
  rstrip_by p (lstrip_by p s).

(** [s.strip()] *)
Definition strip (s : str) : str := strip_by isspace s.

(** [s.strip(chars)] *)
Definition strip_chars (chars : str) (s : str) : str :=
  strip_by (fun c => existsb (char_eqb c) chars) s.

(** [s.startswith(p)] *)
Fixpoint startswith (p s : str) : bool :=
  match p, s with
  | [], _ => true
  | x :: p', y :: s' => char_eqb x y && startswith p' s'
  | _ :: _, [] => false
  end.

(** [p in s] for strings. *)
Fixpoint contains (p s : str) : bool :=
  startswith p s ||
  match s with
  | [] => false
  | _ :: s' => contains p s'
  end.

(** [s.replace(old, new)] for a non-empty [old]: leftmost, non-overlapping.
    [skip] counts the characters of a replaced occurrence still to drop. *)
Fixpoint replace_from (old new : str) (skip : nat) (s : str) : str :=
  match s with
  | [] => []
  | c :: s' =>
      match skip with
      | S k => replace_from old new k s'
      | O => if startswith old s
             then (new ++ replace_from old new (length old - 1) s')%list
             else c :: replace_from old new 0 s'
      end
  end.

Definition replace (old new s : str) : str := replace_from old new 0 s.

(** [sep.join(parts)] *)
Fixpoint join (sep : str) (parts : list str) : str :=
  match parts with
  | [] => []
  | [p] => p
  | p :: ps => (p ++ sep ++ join sep ps)%list
  end.

(** [s[lo:hi]] for [0 <= lo], [0 <= hi]. *)
Definition slice (lo hi : nat) (s : str) : str :=
  firstn (hi - lo) (skipn lo s).

(** String literals of this file are UTF-8 byte strings; [lit] decodes the
    two-byte sequences of U+0080..U+00FF into single code points. *)
Fixpoint utf8_decode_from (lead : option ascii) (bs : list ascii) : str :=
  match bs with
  | [] => match lead with Some l => [l] | None => [] end
  | b :: bs' =>
      match lead with
      | Some l =>
          (if (ord l =? 194)%N then b else chr (ord b + 64))
            :: utf8_decode_from None bs'
      | None =>
          if (ord b =? 194)%N || (ord b =? 195)%N
          then utf8_decode_from (Some b) bs'
          else b :: utf8_decode_from None bs'
      end
  end.

Definition lit (s : string) : str :=
  utf8_decode_from None (list_ascii_of_string s).

End PyStr.
Import PyStr.

Definition enumerate {A} (l : list A) : list (nat * A) :=
  combine (seq 0 (length l)) l.

(** [int] to [float]; exact for the magnitudes that occur (day counts and
    string lengths). *)
Definition float_of_Z (z : Z) : float :=
  if z <? 0 then PrimFloat.opp (PrimFloat.of_uint63 (Uint63.of_Z (- z)))
  else PrimFloat.of_uint63 (Uint63.of_Z z).

(* ===================================================================== *)
(** * [difflib.SequenceMatcher(None, a, b).ratio()] *)
(* ===================================================================== *)

Module Difflib.

Section SequenceMatcher.
Variables a b : str.

Definition at_ (s : str) (i : nat) : ascii := nth i s Ascii.zero.

Definition count (c : ascii) (l : str) : nat :=
  length (filter (char_eqb c) l).

(** [__chain_b] with [isjunk=None], [autojunk=True]: no junk; in a [b] of
    200 elements or more, an element that occurs more than 1% + 1 times
    is popular and is dropped from the index [b2j]. *)
Definition isbjunk (c : ascii) : bool := false.

Definition popular (c : ascii) : bool :=
  let n := length b in
  (200 <=? n)%nat && (n / 100 + 1 <? count c b)%nat.

Definition b2j (c : ascii) : list nat :=
  if popular c then []
  else map fst (filter (fun p => char_eqb c (snd p)) (enumerate b)).

Definition match_ : Type := (nat * nat * nat)%type.

(** The inner [for j in b2j.get(a[i], nothing)] of [find_longest_match]. *)
Fixpoint scan_js (js : list nat) (i blo bhi : nat)
    (j2len newj2len : gmap nat nat) (best : match_)
    : gmap nat nat * match_ :=
  match js with
  | [] => (newj2len, best)
  | j :: js' =>
      if (j <? blo)%nat then scan_js js' i blo bhi j2len newj2len best
      else if (bhi <=? j)%nat then (newj2len, best)
      else
        let prev := match j with
                    | O => O
                    | S j' => default O (j2len !! j')
                    end in
        let k := S prev in
        let '(_, _, bestsize) := best in
        scan_js js' i blo bhi j2len (<[j:=k]> newj2len)
          (if (bestsize <? k)%nat then ((i + 1 - k)%nat, (j + 1 - k)%nat, k)
           else best)
  end.

Fixpoint scan_is (is_ : list nat) (blo bhi : nat)
    (j2len : gmap nat nat) (best : match_) : match_ :=
  match is_ with
  | [] => best
  | i :: is' =>
      let '(newj2len, best') :=
        scan_js (b2j (at_ a i)) i blo bhi j2len ∅ best in
      scan_is is' blo bhi newj2len best'
  end.

(** The two kinds of [while] loops that grow a match to the left and to
    the right over elements accepted by [ok]. *)
Fixpoint extend_left (fuel : nat) (ok : ascii -> bool) (alo blo : nat)
    (m : match_) : match_ :=
  match fuel with
  | O => m
  | S f =>
      let '(besti, bestj, bestsize) := m in
      if (alo <? besti)%nat && (blo <? bestj)%nat
         && ok (at_ b (bestj - 1))
         && char_eqb (at_ a (besti - 1)) (at_ b (bestj - 1))
      then extend_left f ok alo blo
             ((besti - 1)%nat, (bestj - 1)%nat, S bestsize)
      else m
  end.

Fixpoint extend_right (fuel : nat) (ok : ascii -> bool) (ahi bhi : nat)
    (m : match_) : match_ :=
  match fuel with
  | O => m
  | S f =>
      let '(besti, bestj, bestsize) := m in
      if (besti + bestsize <? ahi)%nat && (bestj + bestsize <? bhi)%nat
         && ok (at_ b (bestj + bestsize))
         && char_eqb (at_ a (besti + bestsize)) (at_ b (bestj + bestsize))
      then extend_right f ok ahi bhi (besti, bestj, S bestsize)
      else m
  end.

Definition find_longest_match (alo ahi blo bhi : nat) : match_ :=
  let m := scan_is (seq alo (ahi - alo)) blo bhi ∅ (alo, blo, O) in
  let notjunk := fun c => negb (isbjunk c) in
  let m := extend_left (length a) notjunk alo blo m in
  let m := extend_right (length a) notjunk ahi bhi m in
  let m := extend_left (length a) isbjunk alo blo m in
  extend_right (length a) isbjunk ahi bhi m.

(** The work-list loop of [get_matching_blocks]; the head of [queue] is
    the element [queue.pop()] returns.  Every round either drops a range
    or splits it around a non-empty match, so [2 * len(a) + 1] rounds
    empty the queue. *)
Fixpoint blocks_loop (fuel : nat) (queue : list (nat * nat * nat * nat))
    (blocks : list match_) : list match_ :=
  match fuel with
  | O => blocks
  | S f =>
      match queue with
      | [] => blocks
      | (alo, ahi, blo, bhi) :: q =>
          let '(i, j, k) := find_longest_match alo ahi blo bhi in
          if (k =? 0)%nat then blocks_loop f q blocks
          else
            let q1 := if (alo <? i)%nat && (blo <? j)%nat
                      then (alo, i, blo, j) :: q else q in
            let q2 := if (i + k <? ahi)%nat && (j + k <? bhi)%nat
                      then ((i + k)%nat, ahi, (j + k)%nat, bhi) :: q1 else q1 in
            blocks_loop f q2 (blocks ++ [(i, j, k)])
      end
  end.

(** The matching blocks before sorting and merging of adjacent blocks,
    neither of which changes the sum of their sizes. *)
Definition matching_blocks : list match_ :=
  blocks_loop (2 * length a + 1) [(O, length a, O, length b)] [].

Definition matches : nat :=
  fold_right (fun (m : match_) acc => (snd m + acc)%nat) O matching_blocks.

(** [_calculate_ratio(matches, len(a) + len(b))] *)
Definition ratio : float :=
  let len := (length a + length b)%nat in
  if (len =? 0)%nat then 1.0%float
  else (2.0 * float_of_Z (Z.of_nat matches) / float_of_Z (Z.of_nat len))%float.

End SequenceMatcher.

End Difflib.

(* ===================================================================== *)
(** * [comparer.py] *)
(* ===================================================================== *)

Module Comparer.

Record MatchScore := mkScore {
  ms_certificate : ExperienceRecord;
  ms_cv_entry : ExperienceRecord;
  score : float;
  ms_start_date_match : bool
}.

(** The [replacements] dictionary, in insertion order. *)
Definition replacements : list (str * str) :=
  [ (lit "á", lit "a"); (lit "é", lit "e"); (lit "í", lit "i");
    (lit "ó", lit "o"); (lit "ú", lit "u"); (lit "ñ", lit "n") ].

Definition _normalize_name (name : option str) : str :=
  match name with
  | None => []
  | Some [] => []
  | Some n =>
      let cleaned := lower n in
      let cleaned :=
        fold_left (fun s (p : str * str) => replace (fst p) (snd p) s)
                  replacements cleaned in
      strip (filter (fun ch => isalnum ch || isspace ch) cleaned)
  end.

Definition _employer_similarity (a b : option str) : float :=
  let a_norm := _normalize_name a in
  let b_norm := _normalize_name b in
  match a_norm, b_norm with
  | [], _ | _, [] => 0.0%float
  | _, _ => Difflib.ratio a_norm b_norm
  end.

Definition _date_difference (a b : option date) : option Z :=
  match a, b with
  | Some x, Some y => Some (Z.abs (sub_days x y))
  | _, _ => None
  end.

(** [start_diff or 60]: [None] and [0] are both falsy. *)
Definition or_60 (start_diff : option Z) : Z :=
  match start_diff with
  | Some d => if d =? 0 then 60 else d
  | None => 60
  end.

Definition _score_pair (certificate cv_entry : ExperienceRecord) : MatchScore :=
  let similarity :=
    _employer_similarity (employer certificate) (employer cv_entry) in
  let start_diff :=
    _date_difference (start_date certificate) (start_date cv_entry) in
  let start_match :=
    match start_diff with Some d => d <=? 7 | None => false end in
  let date_score :=
    if start_match then 1.0%float
    else (1.0 / (1 + float_of_Z (or_60 start_diff) / float_of_Z 30))%float in
  let combined_score := (0.7 * similarity + 0.3 * date_score)%float in
  mkScore certificate cv_entry combined_score start_match.

(** The inner loop over [enumerate(cv_list)]: the best score so far and
    the index it was found at ([best_idx] is assigned together with
    [best_score], and read only when [best_score] is set). *)
Definition best_step (certificate : ExperienceRecord)
    (best : option (MatchScore * nat)) (p : nat * ExperienceRecord)
    : option (MatchScore * nat) :=
  let s := _score_pair certificate (snd p) in
  match best with
  | None => Some (s, fst p)
  | Some (best_score, _) =>
      if PrimFloat.ltb (score best_score) (score s) then Some (s, fst p)
      else best
  end.

Definition best_match (certificate : ExperienceRecord)
    (cv_list : list ExperienceRecord) : option (MatchScore * nat) :=
  fold_left (best_step certificate) (enumerate cv_list) None.

Definition details_matched : str := lit "Coincidencia por empleador y fecha".
Definition details_partial : str := lit "Coincidencia parcial".
Definition details_unmatched : str :=
  lit "No se encontró coincidencia en la hoja de vida".
Definition details_cv_only : str :=
  lit "Registro presente solo en la hoja de vida".

Definition state : Type := (list ComparisonResult * gset nat)%type.

(** One round of [for certificate in certificates]. *)
Definition certificate_step (cv_list : list ExperienceRecord)
    (st : state) (certificate : ExperienceRecord) : state :=
  let '(comparisons, used_cv_indices) := st in
  match best_match certificate cv_list with
  | Some (best_score, best_idx) =>
      if PrimFloat.ltb 0.3%float (score best_score) then
        match nth_error cv_list best_idx with
        | Some cv =>
            (comparisons ++
               [mkComparison certificate (Some cv)
                  (ms_start_date_match best_score)
                  (if ms_start_date_match best_score
                   then details_matched else details_partial)],
             {[best_idx]} ∪ used_cv_indices)
        | None => st (* [cv_list[best_idx]] is always in range *)
        end
      else
        (comparisons ++
           [mkComparison certificate None false details_unmatched],
         used_cv_indices)
  | None =>
      (comparisons ++
         [mkComparison certificate None false details_unmatched],
       used_cv_indices)
  end.

(** The row added for a résumé record no certificate took. *)
Definition cv_only_row (cv_entry : ExperienceRecord) : ComparisonResult :=
  mkComparison
    (new_record (lit "Hoja de vida") (employer cv_entry)
                (start_date cv_entry) (end_date cv_entry) None)
    (Some cv_entry) true details_cv_only.

Definition cv_only_step (used_cv_indices : gset nat)
    (comparisons : list ComparisonResult) (p : nat * ExperienceRecord)
    : list ComparisonResult :=
  if decide (fst p ∈ used_cv_indices) then comparisons
  else comparisons ++ [cv_only_row (snd p)].

Definition compare_certificates_with_cv
    (certificates cv_entries : list ExperienceRecord)
    : list ComparisonResult :=
  let cv_list := cv_entries in
  let '(comparisons, used_cv_indices) :=
    fold_left (certificate_step cv_list) certificates ([], ∅) in
  fold_left (cv_only_step used_cv_indices) (enumerate cv_list) comparisons.

End Comparer.
Import Comparer.

(* ===================================================================== *)
(** * [text_parser.py]: [merge_overlapping_records] *)
(* ===================================================================== *)

Module Merger.

(** Records are Python objects: the caller's list, the groups, [current]
    and [next_item] all hold references into one store, and the
    assignments to [current.end_date] and [current.issue_date] write
    through them. *)
Definition ref := nat.
Definition store := ref -> ExperienceRecord.

Definition update (h : store) (r : ref) (v : ExperienceRecord) : store :=
  fun x => if (x =? r)%nat then v else h x.

Definition set_end_date (r : ExperienceRecord) (v : option date) :=
  mkRecord (source r) (employer r) (start_date r) v (issue_date r)
           (effective_end_date r) (experience_days r).

Definition set_issue_date (r : ExperienceRecord) (v : option date) :=
  mkRecord (source r) (employer r) (start_date r) (end_date r) v
           (effective_end_date r) (experience_days r).

(** [x or y] on optional dates (a [date] is never falsy). *)
Definition or_else {A} (x y : option A) : option A :=
  match x with Some _ => x | None => y end.

(** [(record.employer or "").strip().lower()] *)
Definition merge_key (rec : ExperienceRecord) : str :=
  lower (strip (default [] (employer rec))).

(** [grouped.setdefault(key, []).append(record)] on a dictionary kept in
    insertion order. *)
Fixpoint setdefault_append (key : str) (r : ref)
    (grouped : list (str * list ref)) : list (str * list ref) :=
  match grouped with
  | [] => [(key, [r])]
  | (k, items) :: g' =>
      if str_eqb k key then (k, items ++ [r]) :: g'
      else (k, items) :: setdefault_append key r g'
  end.

Definition group_records (h : store) (records : list ref)
    : list (str * list ref) :=
  fold_left (fun g r => setdefault_append (merge_key (h r)) r g) records [].

(** [rec.start_date or date.min] *)
Definition sort_key (h : store) (r : ref) : date :=
  default date_min (start_date (h r)).

(** [sorted(items, key=...)]: a stable sort, here by insertion. *)
Fixpoint insert_sorted (h : store) (r : ref) (l : list ref) : list ref :=
  match l with
  | [] => [r]
  | x :: l' =>
      if date_ltb (sort_key h x) (sort_key h r)
      then x :: insert_sorted h r l'
      else r :: l
  end.

Definition sorted_by_start (h : store) (items : list ref) : list ref :=
  fold_right (insert_sorted h) [] items.

(** The outer [if] of the fold: may [current] absorb [next_item]? *)
Definition overlaps (h : store) (current next_item : ref) : bool :=
  match start_date (h current), start_date (h next_item),
        effective_end_date (h current) with
  | Some _, Some ns, Some ce => date_leb ns ce
  | _, _, _ => false
  end.

(** The inner [if]: does [next_item] reach further than [current]? *)
Definition extends (h : store) (current next_item : ref) : bool :=
  match effective_end_date (h next_item) with
  | Some ne =>
      match effective_end_date (h current) with
      | None => true
      | Some ce => date_gtb ne ce
      end
  | None => false
  end.

(** The three statements of the absorption, in order, on the store. *)
Definition absorb (h : store) (current next_item : ref) : store :=
  if extends h current next_item then
    let h1 := update h current
                (set_end_date (h current)
                   (or_else (end_date (h next_item)) (end_date (h current)))) in
    let h2 := update h1 current
                (set_issue_date (h1 current)
                   (or_else (issue_date (h1 next_item)) (issue_date (h1 current)))) in
    update h2 current (post_init (h2 current))
  else h.

(** [for next_item in items[1:]] followed by the final [merged.append]. *)
Fixpoint merge_run (h : store) (current : ref) (rest : list ref)
    (merged : list ref) : store * list ref :=
  match rest with
  | [] => (h, merged ++ [current])
  | next_item :: rest' =>
      if overlaps h current next_item
      then merge_run (absorb h current next_item) current rest' merged
      else merge_run h next_item rest' (merged ++ [current])
  end.

Definition merge_group (st : store * list ref) (items : list ref)
    : store * list ref :=
  match sorted_by_start (fst st) items with
  | [] => st
  | current :: rest => merge_run (fst st) current rest (snd st)
  end.

(** The result is the final store together with the returned list. *)
Definition merge_overlapping_records (h : store) (records : list ref)
    : store * list ref :=
  let grouped := group_records h records in
  fold_left merge_group (map snd grouped) (h, []).

End Merger.
Import Merger.

(* ===================================================================== *)
(** * Regular expressions of [re], as far as the parser uses them *)
(* ===================================================================== *)

Module Regex.

(** Patterns are compiled with [re.IGNORECASE]: a literal is compared up to
    case, and a class is given as the predicate on the text character that
    the flag induces.  Repetition is only ever applied to a class. *)
Inductive regex :=
| Eps
| Chr (c : ascii)
| Cls (p : ascii -> bool)
| Rep (p : ascii -> bool) (lo : nat) (hi : option nat)
| Cat (r1 r2 : regex)
| Alt (r1 r2 : regex)
| Grp (name : string) (r : regex).

Definition captures : Type := list (string * str).

Definition group (caps : captures) (name : string) : option str :=
  snd <$> List.find (fun p => String.eqb (fst p) name) caps.

(** How many leading characters of [s] satisfy [p], at most [limit]. *)
Fixpoint count_prefix (p : ascii -> bool) (limit : option nat) (s : str) : nat :=
  match s with
  | c :: s' =>
      if p c then
        match limit with
        | Some O => O
        | Some (S l) => S (count_prefix p (Some l) s')
        | None => S (count_prefix p None s')
        end
      else O
  | [] => O
  end.

Section Matching.
Context {T : Type}.

(** Greedy repetition: the longest run first, then shorter ones. *)
Fixpoint rep_try (n lo : nat) (s : str) (k : str -> option T) : option T :=
  match k (skipn n s) with
  | Some t => Some t
  | None =>
      match n with
      | O => None
      | S n' => if (lo <=? n')%nat then rep_try n' lo s k else None
      end
  end.

(** Backtracking matcher in continuation-passing style: [k] receives the
    rest of the text and the groups captured so far. *)
Fixpoint rmatch (r : regex) (s : str) (caps : captures)
    (k : str -> captures -> option T) : option T :=
  match r with
  | Eps => k s caps
  | Chr c =>
      match s with
      | t :: s' =>
          if char_eqb (lower_char c) (lower_char t) then k s' caps else None
      | [] => None
      end
  | Cls p =>
      match s with
      | t :: s' => if p t then k s' caps else None
      | [] => None
      end
  | Rep p lo hi =>
      let n := count_prefix p hi s in
      if (lo <=? n)%nat then rep_try n lo s (fun s' => k s' caps) else None
  | Cat r1 r2 => rmatch r1 s caps (fun s' caps' => rmatch r2 s' caps' k)
  | Alt r1 r2 =>
      match rmatch r1 s caps k with
      | Some t => Some t
      | None => rmatch r2 s caps k
      end
  | Grp name r1 =>
      rmatch r1 s caps
        (fun s' caps' =>
           k s' ((name, firstn (length s - length s') s) :: caps'))
  end.
End Matching.

(** [re.match(r, s)]: anchored at the start; the end offset and the groups. *)
Definition re_match (r : regex) (s : str) : option (nat * captures) :=
  rmatch r s [] (fun s' caps => Some ((length s - length s')%nat, caps)).

(** [r.finditer(s)]: leftmost non-overlapping matches as
    (start, end, groups).  [skip] counts the characters of the last match
    still to pass; no pattern of the parser matches the empty string. *)
Fixpoint finditer_from (r : regex) (pos skip : nat) (s : str)
    : list (nat * nat * captures) :=
  match s with
  | [] => []
  | _ :: s' =>
      match skip with
      | S k => finditer_from r (S pos) k s'
      | O =>
          match re_match r s with
          | Some (S len, caps) =>
              (pos, (pos + S len)%nat, caps) :: finditer_from r (S pos) len s'
          | _ => finditer_from r (S pos) O s'
          end
      end
  end.

Definition finditer (r : regex) (s : str) : list (nat * nat * captures) :=
  finditer_from r O O s.

(** [re.sub(r, "", s)] *)
Fixpoint sub_empty_from (r : regex) (skip : nat) (s : str) : str :=
  match s with
  | [] => []
  | c :: s' =>
      match skip with
      | S k => sub_empty_from r k s'
      | O =>
          match re_match r s with
          | Some (S len, _) => sub_empty_from r len s'
          | _ => c :: sub_empty_from r O s'
          end
      end
  end.

Definition sub_empty (r : regex) (s : str) : str := sub_empty_from r O s.

Fixpoint cat_all (rs : list regex) : regex :=
  match rs with
  | [] => Eps
  | [r] => r
  | r :: rs' => Cat r (cat_all rs')
  end.

Fixpoint alt_all (rs : list regex) : regex :=
  match rs with
  | [] => Eps
  | [r] => r
  | r :: rs' => Alt r (alt_all rs')
  end.

(** A literal word. *)
Definition word (w : string) : regex := cat_all (map Chr (lit w)).

(** One of the listed characters, up to case. *)
Definition one_of (chars : string) : ascii -> bool :=
  fun t => existsb (fun c => char_eqb (lower_char c) (lower_char t)) (lit chars).

Definition digit : ascii -> bool := isdecimal.
Definition space : ascii -> bool := isspace.
Definition digit_in (lo hi : N) : ascii -> bool := fun t => between lo hi (ord t).

(** [[a-záéíóúñ]] and [[a-zA-Záéíóúñ]] under [IGNORECASE]. *)
Definition letter : ascii -> bool :=
  fun t => between 97 122 (ord (lower_char t)) || one_of "áéíóúñ" t.

(** [p{lo,hi}], [p+] and [p*] *)
Definition rng (p : ascii -> bool) (lo hi : nat) : regex := Rep p lo (Some hi).
Definition plus (p : ascii -> bool) : regex := Rep p 1%nat None.
Definition star (p : ascii -> bool) : regex := Rep p 0%nat None.
Arguments rng p (lo hi)%_nat.

(** [int(text)] for a string of decimal digits (surrounding blanks allowed). *)
Definition int_of (text : str) : Z :=
  fold_left (fun acc c => 10 * acc + digit_value c) (strip text) 0.

End Regex.
Import Regex.

(* ===================================================================== *)
(** * [datetime.strptime] for the directives [%d], [%m], [%Y], [%y] *)
(* ===================================================================== *)

Module Strptime.

Inductive directive := pct_d | pct_m | pct_Y | pct_y | chr_ (c : ascii).

(** The regular expression [_strptime] substitutes for a directive. *)
Definition directive_regex (x : directive) : regex :=
  match x with
  | pct_d =>
      (* (?P<d>3[0-1]|[1-2]\d|0[1-9]|[1-9]| [1-9]) *)
      Grp "d" (alt_all
        [ Cat (Chr "3") (Cls (digit_in 48 49));
          Cat (Cls (digit_in 49 50)) (Cls digit);
          Cat (Chr "0") (Cls (digit_in 49 57));
          Cls (digit_in 49 57);
          Cat (Chr " ") (Cls (digit_in 49 57)) ])
  | pct_m =>
      (* (?P<m>1[0-2]|0[1-9]|[1-9]) *)
      Grp "m" (alt_all
        [ Cat (Chr "1") (Cls (digit_in 48 50));
          Cat (Chr "0") (Cls (digit_in 49 57));
          Cls (digit_in 49 57) ])
  | pct_Y => Grp "Y" (rng digit 4 4)        (* (?P<Y>\d\d\d\d) *)
  | pct_y => Grp "y" (rng digit 2 2)        (* (?P<y>\d\d) *)
  | chr_ c => Chr c
  end.

Definition format_regex (fmt : list directive) : regex :=
  cat_all (map directive_regex fmt).

(** The year a [%y] field stands for: 00..68 are 2000..2068 and 69..99 are
    1969..1999. *)
Definition year_of_y (y : Z) : Z := if y <=? 68 then y + 2000 else y + 1900.

(** [datetime.strptime(data_string, fmt)], reduced to the date it carries;
    [None] stands for [ValueError] (no match, unconverted data, or a day
    the month does not have). *)
Definition strptime (data_string : str) (fmt : list directive) : option date :=
  match re_match (format_regex fmt) data_string with
  | None => None
  | Some (end_, found) =>
      if negb (length data_string =? end_)%nat then None
      else
        let year :=
          match group found "y", group found "Y" with
          | Some y, _ => year_of_y (int_of y)
          | None, Some y => int_of y
          | None, None => 1900
          end in
        let month := default 1 (int_of <$> group found "m") in
        let day := default 1 (int_of <$> group found "d") in
        date_new year month day
  end.

End Strptime.
Import Strptime.

(* ===================================================================== *)
(** * [text_parser.py]: dates, sections, fields *)
(* ===================================================================== *)

Module TextParser.

(** A computation that may raise [ValueError]. *)
Inductive outcome (A : Type) : Type :=
| Return (a : A)
| ValueError.
Arguments Return {A} a.
Arguments ValueError {A}.

#[global] Instance outcome_bind : MBind outcome :=
  fun A B (f : A -> outcome B) (m : outcome A) =>
    match m with
    | Return a => f a
    | ValueError => ValueError
    end.

Definition MONTHS : list (str * Z) :=
  [ (lit "enero", 1); (lit "febrero", 2); (lit "marzo", 3); (lit "abril", 4);
    (lit "mayo", 5); (lit "junio", 6); (lit "julio", 7); (lit "agosto", 8);
    (lit "septiembre", 9); (lit "setiembre", 9); (lit "octubre", 10);
    (lit "noviembre", 11); (lit "diciembre", 12) ].

Definition MONTHS_get (name : str) : option Z :=
  snd <$> List.find (fun p => str_eqb (fst p) name) MONTHS.

Definition sep : ascii -> bool := one_of "/-".

(** [\d{1,2}\s+(?:de\s+|d[ií]as\s+del\s+mes\s+de\s+)] *)
Definition day_of (day : regex) : regex :=
  cat_all
    [ day; plus space;
      Alt (Cat (word "de") (plus space))
          (cat_all [ Chr "d"; Cls (one_of "ií"); word "as"; plus space;
                     word "del"; plus space; word "mes"; plus space;
                     word "de"; plus space ]) ].

Definition DATE_PATTERN : regex :=
  Grp "date" (alt_all
    [ (* \d{1,2}[/-]\d{1,2}[/-]\d{2,4} *)
      cat_all [ rng digit 1 2; Cls sep; rng digit 1 2; Cls sep; rng digit 2 4 ];
      (* \d{4}-\d{2}-\d{2} *)
      cat_all [ rng digit 4 4; Chr "-"; rng digit 2 2; Chr "-"; rng digit 2 2 ];
      (* \d{1,2}\s+(?:...)[a-zA-Záéíóúñ]+\s+de\s+\d{4} *)
      cat_all [ day_of (rng digit 1 2); plus letter; plus space; word "de";
                plus space; rng digit 4 4 ];
      (* [a-zA-Záéíóúñ]+\s+\d{1,2},\s*\d{4} *)
      cat_all [ plus letter; plus space; rng digit 1 2; Chr ",";
                star space; rng digit 4 4 ] ]).

Definition KEYWORDS_start : list str :=
  map lit ["ingreso"; "inicio"; "desde"; "vinculación"; "vinculo"; "se vinculó"]%string.
Definition KEYWORDS_end : list str :=
  map lit ["retiro"; "terminación"; "hasta"; "culminación"; "finalización";
           "finalizo"; "finalizó"]%string.
Definition KEYWORDS_issue : list str :=
  map lit ["expedido"; "expide"; "emitido"; "fecha de expedición"]%string.

Definition EMPLOYER_HINTS : list str :=
  map lit ["empresa"; "entidad"; "compañía"; "compania"; "organización";
           "organizacion"; "institución"; "institucion"; "razón social";
           "razon social"; "dependencia"]%string.

Definition formats : list (list directive) :=
  [ [pct_d; chr_ "/"; pct_m; chr_ "/"; pct_Y];     (* %d/%m/%Y *)
    [pct_d; chr_ "-"; pct_m; chr_ "-"; pct_Y];     (* %d-%m-%Y *)
    [pct_d; chr_ "/"; pct_m; chr_ "/"; pct_y];     (* %d/%m/%y *)
    [pct_d; chr_ "-"; pct_m; chr_ "-"; pct_y];     (* %d-%m-%y *)
    [pct_Y; chr_ "-"; pct_m; chr_ "-"; pct_d] ].   (* %Y-%m-%d *)

(** The body of the [try]: both [strptime] and [date(...)] may raise
    [ValueError], which the [except] clause turns into [continue]. *)
Definition try_format (text : str) (fmt : list directive) : option date :=
  match strptime text fmt with
  | Some dt =>
      let year := year dt in
      let year :=
        if year <? 100 then year + (if year <? 50 then 2000 else 1900)
        else year in
      date_new year (month dt) (day dt)
  | None => None
  end.

Fixpoint first_format (text : str) (fmts : list (list directive)) : option date :=
  match fmts with
  | [] => None
  | fmt :: fmts' =>
      match try_format text fmt with
      | Some r => Some r
      | None => first_format text fmts'
      end
  end.

Definition _parse_numeric_date (text : str) : option date :=
  first_format text formats.

(** [date(int(year), month, int(day))] outside any [try]. *)
Definition date_or_raise (y m dd : Z) : outcome (option date) :=
  match date_new y m dd with
  | Some r => Return (Some r)
  | None => ValueError
  end.

Definition spanish_1 : regex :=
  cat_all [ day_of (Grp "day" (rng digit 1 2)); Grp "month" (plus letter);
            plus space; word "de"; plus space; Grp "year" (rng digit 4 4) ].

Definition spanish_2 : regex :=
  cat_all [ Grp "month" (plus letter); plus space; Grp "day" (rng digit 1 2);
            Chr ","; star space; Grp "year" (rng digit 4 4) ].

(** What follows a successful [re.match]: the month lookup and, for a
    known month, the construction of the date ([None]: fall through). *)
Definition from_groups (found : captures) : option (outcome (option date)) :=
  let month_name := lower (default [] (group found "month")) in
  match MONTHS_get month_name with
  | Some month =>
      Some (date_or_raise (int_of (default [] (group found "year"))) month
                          (int_of (default [] (group found "day"))))
  | None => None
  end.

Definition _parse_spanish_date (text : str) : outcome (option date) :=
  let second :=
    match snd <$> re_match spanish_2 text with
    | Some found => default (Return None) (from_groups found)
    | None => Return None
    end in
  match snd <$> re_match spanish_1 text with
  | Some found => default second (from_groups found)
  | None => second
  end.

Definition _parse_date (text : str) : outcome (option date) :=
  let cleaned := strip text in
  match _parse_numeric_date cleaned with
  | Some r => Return (Some r)
  | None => _parse_spanish_date cleaned
  end.

Record ParsedSection := mkSection { lines : list str }.

Definition newline : str := [chr 10].

Definition text (section : ParsedSection) : str := join newline (lines section).

(** [str.splitlines]: line boundaries are LF, VT, FF, CR, CR LF, FS, GS, RS
    and NEL. *)
Definition is_linebreak (c : ascii) : bool :=
  let n := ord c in between 10 13 n || between 28 30 n || (n =? 133)%N.

Fixpoint splitlines_from (cur : str) (after_cr : bool) (s : str) : list str :=
  match s with
  | [] => match cur with [] => [] | _ => [cur] end
  | c :: s' =>
      if after_cr && (ord c =? 10)%N then splitlines_from [] false s'
      else if is_linebreak c
           then cur :: splitlines_from [] (ord c =? 13)%N s'
           else splitlines_from (cur ++ [c]) false s'
  end.

Definition splitlines (s : str) : list str := splitlines_from [] false s.

(** The loop of [split_into_sections] over the stripped lines. *)
Fixpoint sections_loop (lines_ : list str) (sections : list ParsedSection)
    (buffer : list str) : list ParsedSection :=
  match lines_ with
  | [] => match buffer with
          | [] => sections
          | _ => sections ++ [mkSection buffer]
          end
  | line :: rest =>
      match line with
      | [] => match buffer with
              | [] => sections_loop rest sections []
              | _ => sections_loop rest (sections ++ [mkSection buffer]) []
              end
      | _ => sections_loop rest sections (buffer ++ [line])
      end
  end.

Definition split_into_sections (txt : str) : list ParsedSection :=
  sections_loop (map strip (splitlines txt)) [] [].

Inductive position := before | after | any.

Definition any_in (keywords : list str) (window : str) : bool :=
  existsb (fun keyword => contains keyword window) keywords.

(** The loop of [_find_first_matching_date] over the matches. *)
Fixpoint first_matching (section_text lowered : str) (keywords : list str)
    (pos : position) (matches_ : list (nat * nat * captures))
    : outcome (option date) :=
  match matches_ with
  | [] => Return None
  | (span_start, span_end, found) :: rest =>
      let before_ := slice (span_start - 80) span_start lowered in
      let after_ :=
        slice span_end (Nat.min (span_end + 80) (length section_text)) lowered in
      let before_match :=
        match pos with before | any => any_in keywords before_ | after => false end in
      let after_match :=
        match pos with after | any => any_in keywords after_ | before => false end in
      if before_match || after_match then
        parsed ← _parse_date (default [] (group found "date"));
        match parsed with
        | Some r => Return (Some r)
        | None => first_matching section_text lowered keywords pos rest
        end
      else first_matching section_text lowered keywords pos rest
  end.

Definition _find_first_matching_date (section_text : str)
    (keywords : list str) (pos : position) : outcome (option date) :=
  let lowered := lower section_text in
  let matches_ := finditer DATE_PATTERN section_text in
  first_matching section_text lowered keywords pos matches_.

Definition _extract_issue_date (section : ParsedSection)
    : outcome (option date) :=
  let section_text := text section in
  let date_candidates := finditer DATE_PATTERN section_text in
  match last date_candidates with
  | None => Return None
  | Some (_, _, found) => _parse_date (default [] (group found "date"))
  end.

(** (?i)(empresa|entidad|compa[ñn]ía|organización|organizacion
         |instituci[óo]n|raz[óo]n social|dependencia|:) *)
Definition employer_token : regex :=
  alt_all
    [ word "empresa"; word "entidad";
      cat_all [ word "compa"; Cls (one_of "ñn"); word "ía" ];
      word "organización"; word "organizacion";
      cat_all [ word "instituci"; Cls (one_of "óo"); word "n" ];
      cat_all [ word "raz"; Cls (one_of "óo"); word "n social" ];
      word "dependencia"; Chr ":" ].

(** [max(candidates, key=len, default=None)]: the first longest one. *)
Fixpoint max_by_len (best : str) (l : list str) : str :=
  match l with
  | [] => best
  | x :: l' => max_by_len (if (length best <? length x)%nat then x else best) l'
  end.

Fixpoint hinted_employer (lines_ : list str) : option str :=
  match lines_ with
  | [] => None
  | line :: rest =>
      let lowered := lower line in
      if existsb (fun hint => contains hint lowered) EMPLOYER_HINTS then
        let cleaned := sub_empty employer_token line in
        let cleaned := strip_chars (lit " -:") cleaned in
        match cleaned with
        | [] => hinted_employer rest
        | _ => Some cleaned
        end
      else hinted_employer rest
  end.

Definition nonempty (s : str) : bool := match s with [] => false | _ => true end.

Definition _extract_employer (section : ParsedSection) : option str :=
  match hinted_employer (lines section) with
  | Some cleaned => Some cleaned
  | None =>
      match filter (fun line => nonempty (strip line)) (lines section) with
      | [] => None
      | c :: cs =>
          let candidate := max_by_len c cs in
          if nonempty candidate then Some (strip candidate) else None
      end
  end.

Definition is_Some_b {A} (o : option A) : bool :=
  match o with Some _ => true | None => false end.

(** One round of [for section in sections]. *)
Definition section_step (source_ : str) (section : ParsedSection)
    (experiences : list ExperienceRecord) : outcome (list ExperienceRecord) :=
  let section_text := text section in
  start_date ← _find_first_matching_date section_text KEYWORDS_start before;
  end_date ← _find_first_matching_date section_text KEYWORDS_end before;
  issue_date ← _find_first_matching_date section_text KEYWORDS_issue before;
  issue_date ← match issue_date with
               | None => _extract_issue_date section
               | Some _ => Return issue_date
               end;
  if negb (existsb is_Some_b [start_date; end_date; issue_date])
  then Return experiences
  else
    let employer := _extract_employer section in
    Return (experiences ++
              [new_record source_ employer start_date end_date issue_date]).

Fixpoint sections_fold (source_ : str) (sections : list ParsedSection)
    (experiences : list ExperienceRecord) : outcome (list ExperienceRecord) :=
  match sections with
  | [] => Return experiences
  | section :: rest =>
      experiences' ← section_step source_ section experiences;
      sections_fold source_ rest experiences'
  end.

Definition parse_experiences_from_text (txt source_ : str)
    : outcome (list ExperienceRecord) :=
  let sections := split_into_sections txt in
  let sections := match sections with
                  | [] => [mkSection [txt]]
                  | _ => sections
                  end in
  sections_fold source_ sections [].

End TextParser.
Import TextParser.

(* ===================================================================== *)
(** * [report.py]: the table *)
(* ===================================================================== *)

Module Report.

(** A call that may raise [TypeError] or [IndexError]. *)
Inductive raising (A : Type) : Type :=
| Returns (a : A)
| TypeError
| IndexError.
Arguments Returns {A} a.
Arguments TypeError {A}.
Arguments IndexError {A}.

#[global] Instance raising_bind : MBind raising :=
  fun A B (f : A -> raising B) (m : raising A) =>
    match m with
    | Returns a => f a
    | TypeError => TypeError
    | IndexError => IndexError
    end.

(** A list comprehension whose element expression may raise: the first
    exception ends it. *)
Fixpoint comprehension {A B} (f : A -> raising B) (l : list A)
    : raising (list B) :=
  match l with
  | [] => Returns []
  | x :: l' =>
      y ← f x;
      ys ← comprehension f l';
      Returns (y :: ys)
  end.

(** [str(n)] of an integer: its decimal digits, most significant first. *)
Fixpoint digits_of (fuel : nat) (n : Z) (acc : str) : str :=
  match fuel with
  | O => acc
  | S fuel' =>
      let acc' := chr (Z.to_N (48 + n mod 10)) :: acc in
      if n <? 10 then acc' else digits_of fuel' (n / 10) acc'
  end.

Definition str_of_Z (n : Z) : str :=
  if n <? 0 then "-"%char :: digits_of (S (Z.to_nat (Z.log2 (- n)))) (- n) []
  else digits_of (S (Z.to_nat (Z.log2 n))) n [].

(** The two digits [%m] and [%d] print. *)
Definition zero_padded (n : Z) : str :=
  [chr (Z.to_N (48 + n / 10)); chr (Z.to_N (48 + n mod 10))].

(** [value.strftime("%Y-%m-%d")], with [%Y] as the C library prints it: the
    year's digits without padding (it differs from [isoformat] below the
    year 1000 only). *)
Definition strftime_Y_m_d (value : date) : str :=
  (str_of_Z (year value) ++ "-"%char :: zero_padded (month value)
     ++ "-"%char :: zero_padded (day value))%list.

Definition _format_date (value : option date) : str :=
  match value with
  | None => []
  | Some v => strftime_Y_m_d v
  end.

Definition _format_days (days : option Z) : str :=
  match days with
  | None => []
  | Some n => str_of_Z n
  end.

(** What a row holds: a [str], or [None] where the code puts an optional
    field without a default. *)
Definition cell : Type := option str.

(** [len(row[i]) for row in rows] *)
Definition cell_len (i : nat) (row : list cell) : raising nat :=
  match row !! i with
  | None => IndexError
  | Some None => TypeError
  | Some (Some s) => Returns (length s)
  end.

(** [max] of a non-empty sequence of lengths. *)
Definition max_len (lens : list nat) : nat := fold_right Nat.max O lens.

Definition _compute_widths (rows : list (list cell)) : raising (list nat) :=
  match rows with
  | [] => IndexError
  | first :: _ =>
      comprehension
        (fun i => lens ← comprehension (cell_len i) rows; Returns (max_len lens))
        (seq 0 (length first))
  end.

(** [f"{cell:<{width}}"] *)
Definition ljust (s : str) (width : nat) : str :=
  (s ++ repeat " "%char (width - length s))%list.

Definition format_cell (widths : list nat) (p : nat * cell) : raising str :=
  match widths !! fst p with
  | None => IndexError
  | Some width =>
      match snd p with
      | None => TypeError
      | Some s => Returns (ljust s width)
      end
  end.

Definition framed (cells : list str) : str :=
  (lit "| " ++ join (lit " | ") cells ++ lit " |")%list.

Definition _format_row (row : list cell) (widths : list nat) : raising str :=
  cells ← comprehension (format_cell widths) (enumerate row);
  Returns (framed cells).

Definition headers : list str :=
  map lit [ "Fuente"; "Entidad"; "Ingreso (certificado)"; "Retiro (certificado)";
            "Fecha expedición"; "Fin contabilizado"; "Días experiencia";
            "Coincide con HV"; "Entidad (HV)"; "Ingreso (HV)"; "Retiro (HV)";
            "Detalle" ]%string.

(** The row [build_table] appends for one comparison. *)
Definition table_row (comparison : ComparisonResult) : list cell :=
  let cert := certificate comparison in
  let cv := cv_entry comparison in
  [ Some (source cert);
    Some (default [] (employer cert));
    Some (_format_date (start_date cert));
    Some (_format_date (end_date cert));
    Some (_format_date (issue_date cert));
    Some (_format_date (effective_end_date cert));
    Some (_format_days (experience_days cert));
    Some (if start_date_match comparison && is_Some_b cv
          then lit "Sí" else lit "No");
    match cv with Some r => employer r | None => Some [] end;
    Some (_format_date (match cv with Some r => start_date r | None => None end));
    Some (_format_date (match cv with Some r => end_date r | None => None end));
    Some (details comparison) ].

(** [total_days] after the loop: [cert.experience_days or 0], summed. *)
Definition total_days (comparisons : list ComparisonResult) : Z :=
  fold_left (fun total comparison =>
               total + default 0 (experience_days (certificate comparison)))
            comparisons 0.

Definition total_row (total : Z) : list cell :=
  map Some [ []; []; []; []; []; lit "Total"; str_of_Z total;
             []; []; []; []; [] ].

Definition table_rows (comparisons : list ComparisonResult) : list (list cell) :=
  (map table_row comparisons ++ [total_row (total_days comparisons)])%list.

Definition dashes (widths : list nat) (idx : nat) : raising str :=
  match widths !! idx with
  | None => IndexError
  | Some width => Returns (repeat "-"%char width)
  end.

(** The lines [build_table] joins: header, separator, body. *)
Definition table_lines (comparisons : list ComparisonResult)
    : raising (list str) :=
  let rows := table_rows comparisons in
  let table_data := map Some headers :: rows in
  widths ← _compute_widths table_data;
  header_line ← _format_row (map Some headers) widths;
  separator_cells ← comprehension (dashes widths) (seq 0 (length headers));
  let separator := framed separator_cells in
  body_lines ← comprehension (fun row => _format_row row widths) rows;
  Returns (header_line :: separator :: body_lines).

Definition build_table (comparisons : list ComparisonResult) : raising str :=
  table_lines_ ← table_lines comparisons;
  Returns (join newline table_lines_).

End Report.
Import Report.

(* ===================================================================== *)
(** * The specification's wording, and sample data *)
(* ===================================================================== *)

(** ** Derived fields *)

(** The earlier of two dates, and the earliest non-null of
    [end_date]/[issue_date], null if both are null or [start_date] is
    null. *)
Definition earliest (a b : date) : date := if date_leb a b then a else b.

Definition spec_effective_end (s e i : option date) : option date :=
  match s with
  | None => None
  | Some _ =>
      match e, i with
      | None, None => None
      | Some a, None => Some a
      | None, Some b => Some b
      | Some a, Some b => Some (earliest a b)
      end
  end.

(** [(effective_end_date - start_date).days + 1], clamped to 0 when the
    subtraction is negative; null otherwise. *)
Definition spec_experience_days (s eff : option date) : option Z :=
  match s, eff with
  | Some s', Some e' =>
      Some (if sub_days e' s' <? 0 then 0 else sub_days e' s' + 1)
  | _, _ => None
  end.

(** A record as the constructor leaves it, from calendar dates. *)
Definition as_constructed (r : ExperienceRecord) : Prop :=
  post_init r = r
  /\ valid_opt (start_date r) = true /\ valid_opt (end_date r) = true
  /\ valid_opt (issue_date r) = true.

(** ** The pairwise score *)


(** Date closeness: 1.0 when both start dates are present and at most 7
    days apart, else 1/(1 + d/30), with d = 60 when a start date is
    missing. *)
Definition spec_date_closeness (a b : option date) : float :=
  match a, b with
  | Some x, Some y =>
      let n := Z.abs (sub_days x y) in
      if n <=? 7 then 1.0%float
      else (1.0 / (1 + float_of_Z n / float_of_Z 30))%float
  | _, _ => (1.0 / (1 + float_of_Z 60 / float_of_Z 30))%float
  end.


(** ** Rows of the comparison *)

(** What one certificate settles on, looking at the résumé list only: its
    best pair and the index of it, when the score exceeds 0.3. *)
Definition accepted (cv_list : list ExperienceRecord)
    (certificate : ExperienceRecord) : option (MatchScore * nat) :=
  match best_match certificate cv_list with
  | Some (best_score, best_idx) =>
      if PrimFloat.ltb 0.3%float (score best_score)
      then Some (best_score, best_idx) else None
  | None => None
  end.

(** The row a certificate gets. *)
Definition certificate_row (cv_list : list ExperienceRecord)
    (certificate : ExperienceRecord) : ComparisonResult :=
  match accepted cv_list certificate with
  | Some (best_score, best_idx) =>
      mkComparison certificate (nth_error cv_list best_idx)
        (ms_start_date_match best_score)
        (if ms_start_date_match best_score
         then details_matched else details_partial)
  | None => mkComparison certificate None false details_unmatched
  end.

(** The résumé indices some certificate accepted, and the résumé records at
    the other indices, in order. *)
Definition consumed (cv_list certificates : list ExperienceRecord) : gset nat :=
  list_to_set (omap (fun c => snd <$> accepted cv_list c) certificates).

Definition unconsumed (cv_list certificates : list ExperienceRecord)
    : list ExperienceRecord :=
  map snd (filter (fun p => fst p ∉ consumed cv_list certificates)
                  (enumerate cv_list)).

(** ** Groups of the merger *)

(** The key the code computes, in the specification's terms: the employer
    name (empty when null), trimmed and lower-cased. *)
Definition employer_key (h : store) (r : ref) : str :=
  lower (strip (default [] (employer (h r)))).

(** The distinct elements of a list, in order of first occurrence. *)
Definition distinct (ks : list str) : list str :=
  fold_left (fun acc k => if decide (k ∈ acc) then acc else acc ++ [k]) ks [].

(** One group per distinct key, in order of first occurrence, holding the
    records with that key in input order. *)
Definition groups_by_key (h : store) (records : list ref) : list (str * list ref) :=
  map (fun k => (k, filter (fun r => employer_key h r = k) records))
      (distinct (map (employer_key h) records)).

(** ** Writes of the merger *)

(** The fields no statement of the merger assigns. *)
Definition same_identity (r r' : ExperienceRecord) : Prop :=
  source r' = source r /\ employer r' = employer r
  /\ start_date r' = start_date r.



(** The second loop of the merger once more, with a ghost list next to
    [merged]: the value every record had at the moment it was appended. *)
Fixpoint merge_run_traced (h : store) (current : ref) (rest : list ref)
    (merged : list ref) (snaps : list ExperienceRecord)
    : store * list ref * list ExperienceRecord :=
  match rest with
  | [] => (h, merged ++ [current], snaps ++ [h current])
  | next_item :: rest' =>
      if overlaps h current next_item
      then merge_run_traced (absorb h current next_item) current rest' merged snaps
      else merge_run_traced h next_item rest' (merged ++ [current])
                            (snaps ++ [h current])
  end.

Definition merge_group_traced (st : store * list ref * list ExperienceRecord)
    (items : list ref) : store * list ref * list ExperienceRecord :=
  match sorted_by_start (fst (fst st)) items with
  | [] => st
  | current :: rest =>
      merge_run_traced (fst (fst st)) current rest (snd (fst st)) (snd st)
  end.

Definition merge_traced (h : store) (records : list ref)
    : store * list ref * list ExperienceRecord :=
  fold_left merge_group_traced (map snd (group_records h records)) (h, [], []).

(** The values the caller reads through the returned references. *)
Definition read_back (res : store * list ref) : list ExperienceRecord :=
  map (fst res) (snd res).

(** ** The work list of [get_matching_blocks] *)

(** A match that lies within the rows [alo, hi) of [a]. *)
Definition within (alo hi : nat) (m : Difflib.match_) : Prop :=
  (alo <= fst (fst m))%nat /\ (fst (fst m) + snd m <= hi)%nat.

(** Twice the rows still queued, plus one per queued range. *)
Definition queue_weight (queue : list (nat * nat * nat * nat)) : nat :=
  fold_right (fun e acc => (2 * (snd (fst (fst e)) - fst (fst (fst e))) + 1 + acc)%nat)
             O queue.

(** ** Two-digit years *)

(** The two decimal digits of a number below 100. *)
Definition two_digits (n : Z) : str :=
  [chr (Z.to_N (48 + n / 10)); chr (Z.to_N (48 + n mod 10))].

(** All two-digit years. *)
Definition two_digit_years : list Z := map Z.of_nat (seq 0 100).

(** Does the numeric parser read [text] as the given date? *)
Definition parses_to (text : str) (y m dd : Z) : bool :=
  match _parse_numeric_date text with
  | Some r => date_eqb r (mkdate y m dd)
  | None => false
  end.

(** ** Sample data *)

(** [date(y, m, d)] of a calendar date, as an optional field. *)
Definition d (y m dd : Z) : option date := Some (mkdate y m dd).

(** A store holding the given records at the references 0, 1, ... *)
Definition store_of (l : list ExperienceRecord) : store :=
  fun r => nth r l (new_record [] None None None None).

(** The two texts of [tests/test_text_parser.py]. *)
Definition CERT_TEXT : str := lit "
La empresa XYZ S.A. certifica que el señor Juan Pérez se vinculó a partir del 3 de enero de 2020
hasta el 15 de julio de 2021, desempeñando el cargo de analista. Certificado expedido a los 20 días
 del mes de julio de 2021.
".

Definition CV_TEXT : str := lit "
Experiencia Laboral
Entidad: XYZ S.A.
Fecha de ingreso: 03/01/2020
Fecha de retiro: 15/07/2021
".

(** Two certificates of one employer, the first a year early, and the one
    résumé record both of them match. *)
Definition abc_2019 : ExperienceRecord :=
  new_record (lit "Certificado: 1.pdf") (Some (lit "Empresa ABC Ltda"))
             (d 2019 6 1) (d 2019 12 31) (d 2019 12 31).
Definition abc_2020 : ExperienceRecord :=
  new_record (lit "Certificado: 2.pdf") (Some (lit "Empresa ABC"))
             (d 2020 1 1) (d 2020 12 31) (d 2020 12 31).
Definition abc_cv : ExperienceRecord :=
  new_record (lit "Hoja de vida: hv.pdf") (Some (lit "Empresa ABC"))
             (d 2020 1 1) (d 2020 12 31) (d 2020 12 31).

(** A résumé record issued before its end date. *)
Definition cv_with_issue : ExperienceRecord :=
  new_record (lit "Hoja de vida: hv.pdf") (Some (lit "Empresa ABC"))
             (d 2020 1 1) (d 2020 12 31) (d 2020 6 30).

(** One employer, written with and without accents and punctuation. *)
Definition compania_accented : ExperienceRecord :=
  new_record (lit "Certificado: 1.pdf") (Some (lit "Compañía S.A."))
             (d 2020 1 1) (d 2020 12 31) None.
Definition compania_plain : ExperienceRecord :=
  new_record (lit "Certificado: 2.pdf") (Some (lit "compania sa"))
             (d 2020 6 1) (d 2021 6 30) None.

(** Overlapping records of one employer: one that ended 2020-12-31, one
    without end date issued 2021-06-30, one that ended 2021-06-30. *)
Definition abc_ended : ExperienceRecord :=
  new_record (lit "Certificado: 1.pdf") (Some (lit "Empresa ABC"))
             (d 2020 1 1) (d 2020 12 31) None.
Definition abc_issued : ExperienceRecord :=
  new_record (lit "Certificado: 2.pdf") (Some (lit "Empresa ABC"))
             (d 2020 6 1) None (d 2021 6 30).
Definition abc_later : ExperienceRecord :=
  new_record (lit "Certificado: 3.pdf") (Some (lit "Empresa ABC"))
             (d 2020 6 1) (d 2021 6 30) None.

(** Records around [date.min]: one that starts on it, one without start
    date, one that overlaps the first. *)
Definition year1_ended : ExperienceRecord :=
  new_record [] (Some (lit "Empresa ABC")) (d 1 1 1) (d 1 12 31) None.
Definition undated_start : ExperienceRecord :=
  new_record [] (Some (lit "Empresa ABC")) None (d 1 3 1) None.
Definition year2_ended : ExperienceRecord :=
  new_record [] (Some (lit "Empresa ABC")) (d 1 6 1) (d 2 6 30) None.

(** ** Normalized names *)

(** What [_normalize_name] does to one character before filtering: lower
    case, then the six replacements. *)
Definition norm_char (c : ascii) : ascii :=
  fold_left (fun x (p : str * str) =>
               match fst p, snd p with
               | [o], [n] => if char_eqb o x then n else x
               | _, _ => x
               end)
            replacements (lower_char c).

(** The characters the filter of [_normalize_name] keeps. *)
Definition kept (c : ascii) : bool := isalnum c || isspace c.

(** ** Scores without an employer name *)

(** With a name similarity of 0, a pair whose start dates are [n] days
    apart does not exceed the threshold. *)
Definition date_part_fails (n : Z) : bool :=
  negb (PrimFloat.ltb 0.3
          (0.7 * 0.0 + 0.3 * (1.0 / (1 + float_of_Z n / float_of_Z 30)))%float).

(** [date_part_fails] on the [p] numbers from [base] on. *)
Fixpoint all_fail (p : positive) (base : Z) : bool :=
  match p with
  | xH => date_part_fails base
  | xO q => all_fail q base && all_fail q (base + Zpos q)
  | xI q => date_part_fails base && all_fail q (base + 1)
            && all_fail q (base + 1 + Zpos q)
  end.

(** ** Sections and parsed records *)

(** A line as [split_into_sections] stores it: not empty, and stripped. *)
Definition stored_line (l : str) : Prop := l <> [] /\ strip l = l.

(** What every record of [parse_experiences_from_text] looks like. *)
Definition parsed_record (source_ : str) (r : ExperienceRecord) : Prop :=
  source r = source_
  /\ (exists e, employer r = Some e /\ e <> [])
  /\ (start_date r <> None \/ end_date r <> None \/ issue_date r <> None)
  /\ as_constructed r.

(** ** Runs of the merger *)

(** Every two neighbours of a list are related. *)
Fixpoint neighbours {A} (R : A -> A -> Prop) (l : list A) : Prop :=
  match l with
  | a :: (b :: _) as t => R a b /\ neighbours R t
  | _ => True
  end.

(** Two records of one employer key for which the merger's outer test
    fails: the second does not start within the first. *)
Definition apart (key : ref -> str) (h : store) (a b : ref) : Prop :=
  key a = key b -> overlaps h a b = false.


(** A later record of the same employer, after a gap. *)
Definition abc_2022 : ExperienceRecord :=
  new_record (lit "Certificado: 4.pdf") (Some (lit "Empresa ABC"))
             (d 2022 1 1) (d 2022 12 31) None.

(** ** Tables *)

(** A comparison whose résumé record, if any, has an employer. *)
Definition known_employer (comparison : ComparisonResult) : Prop :=
  forall cv, cv_entry comparison = Some cv -> employer cv <> None.

(** A cell that holds a [str] no longer than the column is wide. *)
Definition fits (c : cell) (width : nat) : Prop :=
  exists s, c = Some s /\ (length s <= width)%nat.

(** The length of every line of a table with the given column widths. *)
Definition line_length (widths : list nat) : nat :=
  length (framed (map (fun width => repeat "-"%char width) widths)).

(** The days a list of records adds to the total, null counting as 0. *)
Definition days_of (records : list ExperienceRecord) : Z :=
  fold_right (fun r total => default 0 (experience_days r) + total) 0 records.

(** ** Printed dates *)

Definition digit_chars : str :=
  ["0"; "1"; "2"; "3"; "4"; "5"; "6"; "7"; "8"; "9"]%char.

(** [str(y)] has four digits and reads back as [y]. *)
Definition year_text_ok (y : Z) : bool :=
  match str_of_Z y with
  | [a; b; c; e] =>
      forallb (fun x => existsb (char_eqb x) digit_chars) [a; b; c; e]
      && (int_of [a; b; c; e] =? y)
  | _ => false
  end.

Definition four_digit_years : list Z :=
  map Z.of_nat (seq (Z.to_nat 1000) (Z.to_nat 9000)).

(** The first four formats of [_parse_numeric_date] reject a text that
    begins with three of the given characters. *)
Definition day_first_formats_fail (chars : str) (rest : str) : bool :=
  forallb (fun a => forallb (fun b => forallb (fun c =>
    forallb (fun fmt => negb (is_Some_b (try_format (a :: b :: c :: rest) fmt)))
            (firstn 4 formats)) chars) chars) chars.

(** [%Y-%m-%d] *)
Definition iso_format : list directive :=
  [pct_Y; chr_ "-"; pct_m; chr_ "-"; pct_d].

(* ===================================================================== *)
(** * The embedding on the repository's tests and the library's documented examples *)
(* ===================================================================== *)

Example lit_compania :
  map ord (lit "Compañía") = [67; 111; 109; 112; 97; 241; 237; 97]%N.
Proof. reflexivity. Qed.

Example ratio_identical :
  Difflib.ratio (lit "empresa abc") (lit "empresa abc") = 1.0%float.
Proof. vm_compute. reflexivity. Qed.

Example ratio_abcd_bcde :
  Difflib.ratio (lit "abcd") (lit "bcde") = 0.75%float.
Proof. vm_compute. reflexivity. Qed.

Example find_longest_match_example :
  Difflib.find_longest_match (lit " abcd") (lit "abcd abcd") 0 5 0 9
  = (0, 4, 5)%nat.
Proof. vm_compute. reflexivity. Qed.

Example ratio_partial :
  Difflib.ratio (lit "empresa abc ltda") (lit "empresa abc")
  = 0.8148148148148148%float.
Proof. vm_compute. reflexivity. Qed.

Example blocks_compania :
  Difflib.matching_blocks (lit "compania sa") (lit "compañía s.a.")
  = [(0, 0, 5); (7, 7, 3); (10, 11, 1)]%nat
  /\ Difflib.ratio (lit "compania sa") (lit "compañía s.a.") = 0.75%float.
Proof. vm_compute. auto. Qed.

Example strptime_examples :
  strptime (lit "15/07/69") [pct_d; chr_ "/"; pct_m; chr_ "/"; pct_y] = d 1969 7 15
  /\ strptime (lit "15/07/0055") [pct_d; chr_ "/"; pct_m; chr_ "/"; pct_Y] = d 55 7 15
  /\ strptime (lit " 5/07/2020") [pct_d; chr_ "/"; pct_m; chr_ "/"; pct_Y] = d 2020 7 5
  /\ strptime (lit "15/07/0000") [pct_d; chr_ "/"; pct_m; chr_ "/"; pct_Y] = None
  /\ strptime (lit "15/07/20 ") [pct_d; chr_ "/"; pct_m; chr_ "/"; pct_y] = None
  /\ strptime (lit "15/07/123") [pct_d; chr_ "/"; pct_m; chr_ "/"; pct_y] = None.
Proof. vm_compute. auto 10. Qed.

Example splitlines_examples :
  splitlines (lit "a" ++ [chr 13; chr 10] ++ lit "b") = [lit "a"; lit "b"]
  /\ splitlines (lit "a" ++ [chr 10; chr 10]) = [lit "a"; []]
  /\ splitlines [chr 10] = [[]]
  /\ splitlines [] = [].
Proof. vm_compute. auto. Qed.

Example normalize_example :
  _normalize_name (Some (lit "  Compañía  S.A. ")) = lit "compania  sa".
Proof. vm_compute. reflexivity. Qed.

(** [tests/test_comparer.py] *)
Example test_compare_matches_by_employer_and_start_date :
  let certificate := new_record (lit "Certificado: 1.pdf") (Some (lit "Empresa ABC"))
                       (d 2020 1 1) (d 2020 12 31) (d 2020 12 31) in
  let cv := new_record (lit "Hoja de vida: hv.pdf") (Some (lit "Empresa ABC"))
                       (d 2020 1 1) (d 2020 12 31) (d 2020 12 31) in
  compare_certificates_with_cv [certificate] [cv]
  = [mkComparison certificate (Some cv) true details_matched].
Proof. vm_compute. reflexivity. Qed.

Example regex_backtracks :
  re_match (Cat (rng digit 1 2) (Cat (Chr "1") (Chr "/"))) (lit "11/")
  = Some (3%nat, []).
Proof. reflexivity. Qed.

Example numeric_example : _parse_numeric_date (lit "03/01/2020") = d 2020 1 3.
Proof. vm_compute. reflexivity. Qed.
Example spanish_example :
  _parse_date (lit "20 días del mes de julio de 2021") = Return (d 2021 7 20).
Proof. vm_compute. reflexivity. Qed.

Example test_parse_certificate_text_extracts_dates :
  parse_experiences_from_text CERT_TEXT (lit "Certificado: prueba.pdf")
  = Return [ mkRecord (lit "Certificado: prueba.pdf") (Some (lit "La  XYZ S.A. certifica que el señor Juan Pérez se vinculó a partir del 3 de enero de 2020"))
               (d 2020 1 3) (d 2021 7 15) (d 2021 7 20) (d 2021 7 15) (Some 560) ].
Proof. vm_compute. reflexivity. Qed.

Example test_parse_cv_text_extracts_information :
  parse_experiences_from_text CV_TEXT (lit "Hoja de vida: hv.pdf")
  = Return [ mkRecord (lit "Hoja de vida: hv.pdf") (Some (lit "XYZ S.A."))
               (d 2020 1 3) (d 2021 7 15) (d 2021 7 15) (d 2021 7 15) (Some 560) ].
Proof. vm_compute. reflexivity. Qed.

(* ===================================================================== *)
(** * Properties of the calendar *)
(* ===================================================================== *)

Section Calendar.

Lemma days_before_year_succ (y : Z) :
  _days_before_year (y + 1)
  = _days_before_year y + 365 + (if _is_leap y then 1 else 0).
Proof.
  unfold _days_before_year, _is_leap.
  replace (y + 1 - 1) with y by lia.
  destruct (Z.eqb_spec (y mod 4) 0), (Z.eqb_spec (y mod 100) 0),
           (Z.eqb_spec (y mod 400) 0); simpl;
    Z.to_euclidean_division_equations; lia.
Qed.

Lemma days_before_year_mono (y : Z) (n : nat) :
  _days_before_year y + 365 * Z.of_nat n <= _days_before_year (y + Z.of_nat n).
Proof.
  induction n as [|n IH].
  - change (Z.of_nat 0) with 0. replace (y + 0) with y by lia. lia.
  - replace (y + Z.of_nat (S n)) with (y + Z.of_nat n + 1) by lia.
    rewrite days_before_year_succ. destruct (_is_leap _); lia.
Qed.

Lemma days_before_year_le (y1 y2 : Z) :
  y1 <= y2 -> _days_before_year y1 <= _days_before_year y2.
Proof.
  intros H. pose proof (days_before_year_mono y1 (Z.to_nat (y2 - y1))) as M.
  rewrite Z2Nat.id in M by lia. replace (y1 + (y2 - y1)) with y2 in M by lia. lia.
Qed.

Lemma month_cases (m : Z) :
  1 <= m <= 12 ->
  m = 1 \/ m = 2 \/ m = 3 \/ m = 4 \/ m = 5 \/ m = 6 \/
  m = 7 \/ m = 8 \/ m = 9 \/ m = 10 \/ m = 11 \/ m = 12.
Proof. lia. Qed.

Lemma check_date_fields_spec (y m dd : Z) :
  check_date_fields y m dd = true <->
  1 <= y <= 9999 /\ 1 <= m <= 12 /\ 1 <= dd <= _days_in_month y m.
Proof.
  unfold check_date_fields, MINYEAR, MAXYEAR.
  rewrite !andb_true_iff, !Z.leb_le. lia.
Qed.

(** The day of the year of a calendar date lies within its year. *)
Lemma day_of_year_bounds (y m dd : Z) :
  check_date_fields y m dd = true ->
  1 <= _days_before_month y m + dd <= 365 + (if _is_leap y then 1 else 0).
Proof.
  rewrite check_date_fields_spec. intros (_ & Hm & Hd).
  unfold _days_before_month, _days_in_month in *.
  destruct (_is_leap y);
    destruct (month_cases m Hm) as [->|[->|[->|[->|[->|[->|[->|[->|[->|[->|[->| ->]]]]]]]]]]];
    simpl in *; lia.
Qed.

(** Within a year, a later month starts after the earlier month ends. *)
Lemma month_order (y m1 d1 m2 d2 : Z) :
  check_date_fields y m1 d1 = true ->
  check_date_fields y m2 d2 = true ->
  m1 < m2 ->
  _days_before_month y m1 + d1 < _days_before_month y m2 + d2.
Proof.
  rewrite !check_date_fields_spec. intros (_ & Hm1 & Hd1) (_ & Hm2 & Hd2) Hlt.
  unfold _days_before_month, _days_in_month in *.
  destruct (_is_leap y);
    destruct (month_cases m1 Hm1) as [->|[->|[->|[->|[->|[->|[->|[->|[->|[->|[->| ->]]]]]]]]]]];
    destruct (month_cases m2 Hm2) as [->|[->|[->|[->|[->|[->|[->|[->|[->|[->|[->| ->]]]]]]]]]]];
    simpl in *; lia.
Qed.

Lemma toordinal_lt (a b : date) :
  valid_date a = true -> valid_date b = true ->
  date_cmp a b = Lt -> toordinal a < toordinal b.
Proof.
  destruct a as [ya ma da], b as [yb mb db].
  unfold valid_date, date_cmp, toordinal, _ymd2ord. simpl. intros Va Vb.
  destruct (Z.compare_spec ya yb) as [-> | Hy | Hy]; try discriminate.
  - destruct (Z.compare_spec ma mb) as [-> | Hm | Hm]; try discriminate.
    + rewrite Z.compare_lt_iff. lia.
    + intros _. pose proof (month_order yb ma da mb db Va Vb Hm). lia.
  - intros _.
    pose proof (day_of_year_bounds _ _ _ Va) as Ba.
    pose proof (day_of_year_bounds _ _ _ Vb) as Bb.
    pose proof (days_before_year_succ ya) as S1.
    pose proof (days_before_year_le (ya + 1) yb ltac:(lia)). lia.
Qed.

Lemma date_cmp_antisym (a b : date) : date_cmp b a = CompOpp (date_cmp a b).
Proof.
  unfold date_cmp.
  rewrite (Z.compare_antisym (year a) (year b)),
          (Z.compare_antisym (month a) (month b)),
          (Z.compare_antisym (day a) (day b)).
  destruct (year a ?= year b), (month a ?= month b), (day a ?= day b); reflexivity.
Qed.

Lemma date_cmp_eq (a b : date) : date_cmp a b = Eq -> a = b.
Proof.
  destruct a as [ya ma da], b as [yb mb db]. unfold date_cmp. simpl.
  destruct (Z.compare_spec ya yb); try discriminate.
  destruct (Z.compare_spec ma mb); try discriminate.
  destruct (Z.compare_spec da db); try discriminate.
  intros _. congruence.
Qed.

(** On calendar dates the tuple order is the order of the ordinals. *)
Lemma date_cmp_toordinal (a b : date) :
  valid_date a = true -> valid_date b = true ->
  date_cmp a b = (toordinal a ?= toordinal b).
Proof.
  intros Va Vb. destruct (date_cmp a b) eqn:E; symmetry.
  - apply date_cmp_eq in E. subst. apply Z.compare_refl.
  - apply Z.compare_lt_iff. now apply toordinal_lt.
  - apply Z.compare_gt_iff. apply toordinal_lt; trivial.
    rewrite date_cmp_antisym, E. reflexivity.
Qed.

Lemma date_ltb_lt (a b : date) :
  valid_date a = true -> valid_date b = true ->
  date_ltb a b = true <-> toordinal a < toordinal b.
Proof.
  intros Va Vb. unfold date_ltb. rewrite (date_cmp_toordinal a b Va Vb).
  destruct (Z.compare_spec (toordinal a) (toordinal b)); split; intros; try lia; try discriminate; reflexivity.
Qed.


Lemma date_cmp_refl (a : date) : date_cmp a a = Eq.
Proof. unfold date_cmp. now rewrite !Z.compare_refl. Qed.

Lemma date_leb_refl (a : date) : date_leb a a = true.
Proof. unfold date_leb. now rewrite date_cmp_refl. Qed.

(** [not (b < a)] is [a <= b]: the order is total. *)
Lemma date_ltb_leb (a b : date) : date_ltb b a = negb (date_leb a b).
Proof.
  unfold date_ltb, date_leb. rewrite (date_cmp_antisym a b).
  destruct (date_cmp a b); reflexivity.
Qed.

End Calendar.

(* ===================================================================== *)
(** * Derived fields of a record ([models.py]) *)
(* ===================================================================== *)

Lemma earliest_is_minimum (a b : date) :
  (earliest a b = a \/ earliest a b = b)
  /\ date_leb (earliest a b) a = true /\ date_leb (earliest a b) b = true.
Proof.
  unfold earliest. destruct (date_leb a b) eqn:E.
  - repeat split; auto using date_leb_refl.
  - repeat split; auto using date_leb_refl.
    pose proof (date_ltb_leb a b) as L. rewrite E in L. simpl in L.
    unfold date_ltb in L. unfold date_leb. destruct (date_cmp b a); congruence.
Qed.

Lemma compute_effective_end_spec (s e i : option date) :
  _compute_effective_end s e i = spec_effective_end s e i.
Proof.
  destruct s as [s|], e as [a|], i as [b|]; simpl; try reflexivity.
  unfold earliest. rewrite date_ltb_leb. destruct (date_leb a b); reflexivity.
Qed.

(** C3. For every record as constructed, [effective_end_date] is the minimum
    of the non-null values among [end_date] and [issue_date], and null when
    both are null or [start_date] is null. *)
Theorem effective_end_date_is_earliest_non_null
    (src : str) (emp : option str) (s e i : option date) :
  effective_end_date (new_record src emp s e i) = spec_effective_end s e i.
Proof.
  unfold new_record, post_init. simpl. apply compute_effective_end_spec.
Qed.

Lemma effective_end_valid (s e i : option date) :
  valid_opt e = true -> valid_opt i = true ->
  valid_opt (_compute_effective_end s e i) = true.
Proof.
  intros Ve Vi. destruct s as [s|], e as [a|], i as [b|]; simpl in *; trivial.
  destruct (date_ltb b a); assumption.
Qed.

Lemma compute_days_spec (s eff : option date) :
  valid_opt s = true -> valid_opt eff = true ->
  _compute_days s eff = spec_experience_days s eff.
Proof.
  intros Vs Ve. destruct s as [s|], eff as [e|]; simpl in *; try reflexivity.
  unfold sub_days.
  destruct (date_ltb e s) eqn:L.
  - apply date_ltb_lt in L; trivial.
    destruct (Z.ltb_spec (toordinal e - toordinal s) 0); [reflexivity | lia].
  - destruct (Z.ltb_spec (toordinal e - toordinal s) 0) as [H|H]; [|reflexivity].
    assert (date_ltb e s = true) by (apply date_ltb_lt; trivial; lia). congruence.
Qed.

(** C4. For every record as constructed from calendar dates,
    [experience_days] is [(effective_end_date - start_date).days + 1],
    clamped to 0 when the subtraction is negative, when [start_date] and
    [effective_end_date] are both non-null, and null otherwise. *)
Theorem experience_days_is_clamped_span
    (src : str) (emp : option str) (s e i : option date) :
  valid_opt s = true -> valid_opt e = true -> valid_opt i = true ->
  experience_days (new_record src emp s e i)
  = spec_experience_days (start_date (new_record src emp s e i))
                         (effective_end_date (new_record src emp s e i)).
Proof.
  intros Vs Ve Vi. unfold new_record, post_init. simpl.
  apply compute_days_spec; trivial. now apply effective_end_valid.
Qed.

(** Scenario A of the specification: 2020-01-01 .. 2020-12-31, issued
    2020-06-30, counts 182 days. *)
Lemma experience_days_is_clamped_span_witness :
  experience_days
    (new_record (lit "Certificado") (Some (lit "Empresa"))
                (d 2020 1 1) (d 2020 12 31) (d 2020 6 30))
  = Some 182.
Proof.
  rewrite (experience_days_is_clamped_span
             (lit "Certificado") (Some (lit "Empresa"))
             (d 2020 1 1) (d 2020 12 31) (d 2020 6 30)
             eq_refl eq_refl eq_refl).
  reflexivity.
Defined.

(** An end before the start counts 0 days, not a negative number. *)
Example experience_days_clamped :
  experience_days (new_record [] None (d 2020 3 10) (d 2020 3 1) None) = Some 0.
Proof. reflexivity. Qed.

(* ===================================================================== *)
(** * The pairwise score ([comparer.py]) *)
(* ===================================================================== *)


Example date_closeness_missing :
  spec_date_closeness None (d 2020 1 1) = (1.0 / 3.0)%float.
Proof. reflexivity. Qed.

(* ===================================================================== *)
(** * Matching certificates against the résumé ([comparer.py]) *)
(* ===================================================================== *)

Section Matching.

Variable cv_list : list ExperienceRecord.

Lemma best_fold_sound (c : ExperienceRecord) (l : list ExperienceRecord) :
  forall (k : nat) (init : option (MatchScore * nat)) bs bi,
    fold_left (best_step c) (combine (seq k (length l)) l) init = Some (bs, bi) ->
    init = Some (bs, bi)
    \/ ((k <= bi)%nat /\ nth_error l (bi - k) = Some (ms_cv_entry bs)).
Proof.
  induction l as [|x l IH]; intros k init bs bi; simpl.
  - auto.
  - intros H. apply IH in H. destruct H as [H | [Hk Hn]].
    + unfold best_step in H. simpl in H.
      destruct init as [[bs0 bi0]|].
      * destruct (PrimFloat.ltb _ _); [|auto].
        inversion H; subst. right. rewrite Nat.sub_diag. auto.
      * inversion H; subst. right. rewrite Nat.sub_diag. auto.
    + right. split; [lia|].
      replace (bi - k)%nat with (S (bi - S k)) by lia. exact Hn.
Qed.

(** [cv_list[best_idx]] is the résumé record of the best pair. *)
Lemma best_match_index (c : ExperienceRecord) bs bi :
  best_match c cv_list = Some (bs, bi) ->
  nth_error cv_list bi = Some (ms_cv_entry bs).
Proof.
  unfold best_match, enumerate. intros H.
  apply best_fold_sound in H. destruct H as [H | [_ H]]; [discriminate|].
  now rewrite Nat.sub_0_r in H.
Qed.

Lemma certificate_step_row (acc : list ComparisonResult) (used : gset nat)
    (c : ExperienceRecord) :
  certificate_step cv_list (acc, used) c
  = (acc ++ [certificate_row cv_list c], consumed cv_list [c] ∪ used).
Proof.
  unfold certificate_step, certificate_row, consumed, accepted. simpl.
  destruct (best_match c cv_list) as [[bs bi]|] eqn:B; simpl.
  - destruct (PrimFloat.ltb _ _); simpl.
    + rewrite (best_match_index _ _ _ B). f_equal. set_solver.
    + f_equal. set_solver.
  - f_equal. set_solver.
Qed.

Lemma consumed_cons (c : ExperienceRecord) (cs : list ExperienceRecord) :
  consumed cv_list (c :: cs) = consumed cv_list [c] ∪ consumed cv_list cs.
Proof.
  unfold consumed. simpl. destruct (accepted cv_list c) as [[bs bi]|]; simpl; set_solver.
Qed.

Lemma certificates_fold (certs : list ExperienceRecord) :
  forall (acc : list ComparisonResult) (used : gset nat),
    fold_left (certificate_step cv_list) certs (acc, used)
    = (acc ++ map (certificate_row cv_list) certs, consumed cv_list certs ∪ used).
Proof.
  induction certs as [|c cs IH]; intros acc used; cbn [fold_left map].
  - rewrite app_nil_r. f_equal. unfold consumed. simpl. set_solver.
  - rewrite certificate_step_row, IH, <- app_assoc. cbn [app]. f_equal.
    rewrite (consumed_cons c cs). clear IH. set_solver.
Qed.

Lemma cv_only_fold (used : gset nat) (ps : list (nat * ExperienceRecord)) :
  forall acc : list ComparisonResult,
    fold_left (cv_only_step used) ps acc
    = acc ++ map cv_only_row (map snd (filter (fun p => fst p ∉ used) ps)).
Proof.
  induction ps as [|p ps IH]; intros acc; simpl.
  - now rewrite app_nil_r.
  - rewrite IH. unfold cv_only_step. rewrite filter_cons.
    destruct (decide (fst p ∈ used)) as [Hin|Hin].
    + rewrite decide_False by tauto. reflexivity.
    + rewrite decide_True by assumption. simpl. now rewrite <- app_assoc.
Qed.

(** The result, row by row. *)
Lemma compare_rows (certs : list ExperienceRecord) :
  compare_certificates_with_cv certs cv_list
  = map (certificate_row cv_list) certs
    ++ map cv_only_row (unconsumed cv_list certs).
Proof.
  unfold compare_certificates_with_cv. rewrite certificates_fold. simpl.
  rewrite cv_only_fold. unfold unconsumed.
  replace (consumed cv_list certs ∪ ∅) with (consumed cv_list certs) by set_solver.
  reflexivity.
Qed.

Lemma consumed_spec (certs : list ExperienceRecord) (idx : nat) :
  idx ∈ consumed cv_list certs
  <-> exists c bs, In c certs /\ accepted cv_list c = Some (bs, idx).
Proof.
  unfold consumed. rewrite elem_of_list_to_set, list_elem_of_omap. split.
  - intros (c & Hc & Ha). apply list_elem_of_In in Hc.
    destruct (accepted cv_list c) as [[bs bi]|] eqn:E; simpl in Ha; [|discriminate].
    inversion Ha; subst. eauto.
  - intros (c & bs & Hc & Ha). exists c. rewrite list_elem_of_In, Ha. auto.
Qed.

Lemma unconsumed_in (certs : list ExperienceRecord) (cv : ExperienceRecord) :
  In cv (unconsumed cv_list certs) -> In cv cv_list.
Proof.
  unfold unconsumed, enumerate. rewrite in_map_iff. intros ([i x] & <- & Hin).
  apply list_elem_of_In, list_elem_of_filter in Hin. destruct Hin as [_ Hin].
  apply list_elem_of_In in Hin. simpl. eapply in_combine_r; eauto.
Qed.

End Matching.



Lemma details_cv_only_distinct (cv_list : list ExperienceRecord)
    (c : ExperienceRecord) :
  details (certificate_row cv_list c) <> details_cv_only.
Proof.
  unfold certificate_row.
  destruct (accepted cv_list c) as [[bs bi]|]; simpl;
    [destruct (ms_start_date_match bs)|]; intros H; vm_compute in H; discriminate.
Qed.

(** The résumé record at an index no certificate accepted has its row. *)
Lemma unconsumed_row (certificates cv_entries : list ExperienceRecord)
    (idx : nat) (cv : ExperienceRecord) :
  nth_error cv_entries idx = Some cv ->
  idx ∉ consumed cv_entries certificates ->
  In (cv_only_row cv) (compare_certificates_with_cv certificates cv_entries).
Proof.
  intros Hn Hc. rewrite compare_rows. apply in_or_app. right. apply in_map.
  unfold unconsumed. apply in_map_iff. exists (idx, cv). split; [reflexivity|].
  apply list_elem_of_In, list_elem_of_filter. split; [exact Hc|].
  apply list_elem_of_In. unfold enumerate.
  assert (forall (l : list ExperienceRecord) (k i : nat),
            nth_error l i = Some cv ->
            In ((k + i)%nat, cv) (combine (seq k (length l)) l)) as G.
  { induction l as [|x l IH]; intros k [|i] H; simpl in *; try discriminate.
    - inversion H; subst. left. f_equal. lia.
    - right. replace (k + S i)%nat with (S k + i)%nat by lia. now apply IH. }
  apply (G cv_entries O idx Hn).
Qed.

(** C10. Every résumé record that no certificate accepted has a
    résumé-only row, and the certificate side of that row is built without
    an issue date, whatever the résumé record's own issue date: its
    effective end date is the résumé record's end date (null without a
    start date) and its day count follows from start and end date alone.
    Conversely every résumé-only row of the result is the row of such a
    record, with the same fields. *)
Theorem cv_only_row_ignores_issue_date
    (certificates cv_entries : list ExperienceRecord) :
  (forall (idx : nat) (cv : ExperienceRecord),
     nth_error cv_entries idx = Some cv ->
     idx ∉ consumed cv_entries certificates ->
     exists r : ComparisonResult,
       In r (compare_certificates_with_cv certificates cv_entries)
       /\ details r = details_cv_only
       /\ cv_entry r = Some cv
       /\ start_date (certificate r) = start_date cv
       /\ end_date (certificate r) = end_date cv
       /\ issue_date (certificate r) = None
       /\ effective_end_date (certificate r)
          = match start_date cv with Some _ => end_date cv | None => None end
       /\ experience_days (certificate r)
          = _compute_days (start_date cv)
              (match start_date cv with Some _ => end_date cv | None => None end))
  /\ (forall r : ComparisonResult,
        In r (compare_certificates_with_cv certificates cv_entries) ->
        details r = details_cv_only ->
        exists cv : ExperienceRecord,
          In cv (unconsumed cv_entries certificates) /\ In cv cv_entries
          /\ cv_entry r = Some cv
          /\ start_date (certificate r) = start_date cv
          /\ end_date (certificate r) = end_date cv
          /\ issue_date (certificate r) = None
          /\ effective_end_date (certificate r)
             = match start_date cv with Some _ => end_date cv | None => None end
          /\ experience_days (certificate r)
             = _compute_days (start_date cv)
                 (match start_date cv with Some _ => end_date cv | None => None end)).
Proof.
  split.
  - intros idx cv Hn Hc. exists (cv_only_row cv).
    split; [now apply (unconsumed_row certificates cv_entries idx)|].
    simpl. destruct (start_date cv), (end_date cv); simpl; auto 10.
  - intros r. rewrite compare_rows, in_app_iff, !in_map_iff.
    intros [(c & <- & _) | (cv & <- & Hcv)] Hd.
    + now apply details_cv_only_distinct in Hd.
    + exists cv. pose proof (unconsumed_in _ _ _ Hcv) as Hin. simpl.
      destruct (start_date cv), (end_date cv); simpl; auto 10.
Qed.

(** A résumé record issued before its end date and accepted by no
    certificate: the record itself counts 182 days, its résumé-only row
    counts the 366 days up to the end date. *)
Lemma cv_only_row_ignores_issue_date_witness :
  experience_days cv_with_issue = Some 182
  /\ exists r : ComparisonResult,
       In r (compare_certificates_with_cv [] [cv_with_issue])
       /\ details r = details_cv_only
       /\ cv_entry r = Some cv_with_issue
       /\ start_date (certificate r) = start_date cv_with_issue
       /\ end_date (certificate r) = end_date cv_with_issue
       /\ issue_date (certificate r) = None
       /\ effective_end_date (certificate r)
          = match start_date cv_with_issue with
            | Some _ => end_date cv_with_issue
            | None => None
            end
       /\ experience_days (certificate r)
          = _compute_days (start_date cv_with_issue)
              (match start_date cv_with_issue with
               | Some _ => end_date cv_with_issue
               | None => None
               end).
Proof.
  split; [reflexivity|].
  apply (proj1 (cv_only_row_ignores_issue_date [] [cv_with_issue])
               O cv_with_issue).
  - reflexivity.
  - unfold consumed. simpl. apply not_elem_of_empty.
Defined.

Example cv_only_row_days :
  experience_days (certificate (cv_only_row cv_with_issue)) = Some 366.
Proof. reflexivity. Qed.

(* ===================================================================== *)
(** * Grouping by employer ([merge_overlapping_records], first loop) *)
(* ===================================================================== *)

Section Grouping.

Lemma str_eqb_eq (s t : str) : str_eqb s t = true <-> s = t.
Proof.
  revert t. induction s as [|x s IH]; intros [|y t]; simpl; split;
    try discriminate; try reflexivity.
  - rewrite andb_true_iff. intros [Hx Hs]. apply Ascii.eqb_eq in Hx.
    apply IH in Hs. congruence.
  - intros H. inversion H; subst. rewrite andb_true_iff. split.
    + apply Ascii.eqb_refl.
    + now apply IH.
Qed.

Lemma str_eqb_neq (s t : str) : str_eqb s t = false <-> s <> t.
Proof.
  rewrite <- str_eqb_eq. destruct (str_eqb s t); split; congruence.
Qed.

Lemma distinct_snoc (ks : list str) (k : str) :
  distinct (ks ++ [k])
  = if decide (k ∈ distinct ks) then distinct ks else distinct ks ++ [k].
Proof. unfold distinct. now rewrite fold_left_app. Qed.

Lemma distinct_elem (ks : list str) (k : str) : k ∈ distinct ks <-> k ∈ ks.
Proof.
  induction ks as [|k0 ks IH] using rev_ind.
  - reflexivity.
  - rewrite distinct_snoc. destruct (decide (k0 ∈ distinct ks)); set_solver.
Qed.

Lemma distinct_NoDup (ks : list str) : NoDup (distinct ks).
Proof.
  induction ks as [|k0 ks IH] using rev_ind.
  - constructor.
  - rewrite distinct_snoc. destruct (decide (k0 ∈ distinct ks)); trivial.
    apply NoDup_app. repeat split; trivial.
    + intros x Hx Hx'. apply list_elem_of_singleton in Hx'. now subst.
    + apply NoDup_singleton.
Qed.

(** [setdefault] on a key the dictionary does not have yet. *)
Lemma setdefault_append_fresh (key : str) (r : ref) (F : str -> list ref)
    (K : list str) :
  key ∉ K ->
  setdefault_append key r (map (fun k => (k, F k)) K)
  = map (fun k => (k, F k)) K ++ [(key, [r])].
Proof.
  induction K as [|k0 K IH]; simpl; intros Hk; [reflexivity|].
  apply not_elem_of_cons in Hk. destruct Hk as [Hne Hk].
  destruct (str_eqb k0 key) eqn:E.
  - apply str_eqb_eq in E. congruence.
  - now rewrite IH.
Qed.

(** [setdefault] on a key the dictionary has. *)
Lemma setdefault_append_present (key : str) (r : ref) (F : str -> list ref)
    (K : list str) :
  key ∈ K -> NoDup K ->
  setdefault_append key r (map (fun k => (k, F k)) K)
  = map (fun k => (k, if decide (k = key) then F k ++ [r] else F k)) K.
Proof.
  induction K as [|k0 K IH]; simpl; intros Hk Hnd.
  - now apply elem_of_nil in Hk.
  - apply NoDup_cons in Hnd. destruct Hnd as [Hk0 Hnd].
    destruct (str_eqb k0 key) eqn:E.
    + apply str_eqb_eq in E. subst k0. rewrite decide_True by reflexivity.
      f_equal. apply map_ext_in. intros k Hin.
      rewrite decide_False; [reflexivity|].
      intros ->. apply Hk0. now apply list_elem_of_In.
    + apply str_eqb_neq in E. rewrite decide_False by assumption. f_equal.
      apply IH; trivial. apply elem_of_cons in Hk. destruct Hk; congruence.
Qed.

Lemma filter_none {A} (P : A -> Prop) `{forall x, Decision (P x)} (l : list A) :
  (forall x, x ∈ l -> ~ P x) -> filter P l = [].
Proof.
  induction l as [|a l IH]; intros Hl; [reflexivity|].
  rewrite filter_cons_False.
  - apply IH. intros x Hx. apply Hl. now right.
  - apply Hl. now left.
Qed.

Lemma group_records_snoc (h : store) (records : list ref) (r : ref) :
  group_records h (records ++ [r])
  = setdefault_append (merge_key (h r)) r (group_records h records).
Proof. unfold group_records. now rewrite fold_left_app. Qed.

Lemma group_records_spec (h : store) (records : list ref) :
  group_records h records = groups_by_key h records.
Proof.
  induction records as [|r records IH] using rev_ind; [reflexivity|].
  rewrite group_records_snoc, IH. unfold groups_by_key.
  change (merge_key (h r)) with (employer_key h r).
  rewrite map_app. simpl. rewrite distinct_snoc.
  set (K := distinct (map (employer_key h) records)).
  destruct (decide (employer_key h r ∈ K)) as [Hin|Hin].
  - rewrite setdefault_append_present by (trivial; apply distinct_NoDup).
    apply map_ext. intros k. f_equal. rewrite filter_app, filter_cons, filter_nil.
    destruct (decide (k = employer_key h r)) as [->|Hne].
    + now rewrite decide_True.
    + rewrite decide_False by congruence. now rewrite app_nil_r.
  - rewrite setdefault_append_fresh by assumption.
    rewrite map_app. simpl. f_equal.
    + apply map_ext_in. intros k Hk. f_equal.
      rewrite filter_app, filter_cons, filter_nil.
      rewrite decide_False; [now rewrite app_nil_r|].
      intros E. apply Hin. rewrite E. now apply list_elem_of_In.
    + f_equal. f_equal. rewrite filter_app, filter_cons, filter_nil.
      rewrite decide_True by reflexivity.
      replace (filter (fun r0 => employer_key h r0 = employer_key h r) records)
        with (@nil ref); [reflexivity|].
      symmetry. apply filter_none. intros r0 Hr0 E. apply Hin.
      apply distinct_elem. rewrite <- E. apply list_elem_of_In, in_map.
      now apply list_elem_of_In.
Qed.

End Grouping.

Lemma same_group_iff_same_key (h : store) (records : list ref) (r1 r2 : ref) :
  In r1 records -> In r2 records ->
  (exists k items, In (k, items) (group_records h records)
                   /\ In r1 items /\ In r2 items)
  <-> employer_key h r1 = employer_key h r2.
Proof.
  intros H1 H2. rewrite group_records_spec. unfold groups_by_key. split.
  - intros (k & items & Hin & I1 & I2).
    apply in_map_iff in Hin. destruct Hin as (k' & E & _).
    inversion E; subst.
    apply list_elem_of_In, list_elem_of_filter in I1, I2.
    destruct I1 as [-> _], I2 as [E2 _]. now symmetry.
  - intros E. exists (employer_key h r1).
    exists (filter (fun r => employer_key h r = employer_key h r1) records).
    split; [|split].
    + apply in_map_iff. exists (employer_key h r1). split; [reflexivity|].
      apply list_elem_of_In, distinct_elem, list_elem_of_In, in_map, H1.
    + apply list_elem_of_In, list_elem_of_filter. split; [reflexivity|].
      now apply list_elem_of_In.
    + apply list_elem_of_In, list_elem_of_filter. split; [now symmetry|].
      now apply list_elem_of_In.
Qed.

(** C5 (as amended). [merge_overlapping_records] groups the records under
    the employer name trimmed and lower-cased (empty for a null employer):
    one group per distinct key in order of first occurrence, each holding its
    records in input order; diacritics and punctuation stay in the key, so
    two records of the input share a group exactly when their trimmed,
    lower-cased employer names are equal. *)
Theorem records_grouped_by_trimmed_lowercase_employer
    (h : store) (records : list ref) (r1 r2 : ref) :
  In r1 records -> In r2 records ->
  group_records h records
  = map (fun k => (k, filter (fun r => employer_key h r = k) records))
        (distinct (map (employer_key h) records))
  /\ ((exists k items, In (k, items) (group_records h records)
                       /\ In r1 items /\ In r2 items)
      <-> lower (strip (default [] (employer (h r1))))
          = lower (strip (default [] (employer (h r2))))).
Proof.
  intros H1 H2.
  split; [apply group_records_spec | now apply same_group_iff_same_key].
Qed.

(** The two names normalize to the same string under [_normalize_name], yet
    the merger files them under two keys and returns both records. *)
Lemma accented_employer_not_grouped :
  _normalize_name (employer compania_accented)
  = _normalize_name (employer compania_plain)
  /\ group_records (store_of [compania_accented; compania_plain]) [0; 1]%nat
     = [ (lit "compañía s.a.", [0%nat]); (lit "compania sa", [1%nat]) ]
  /\ snd (merge_overlapping_records
            (store_of [compania_accented; compania_plain]) [0; 1]%nat)
     = [0; 1]%nat.
Proof. vm_compute. auto. Qed.

(** The same two records, read through the theorem: two keys, two groups. *)
Lemma records_grouped_by_trimmed_lowercase_employer_witness :
  group_records (store_of [compania_accented; compania_plain]) [0; 1]%nat
  = map (fun k =>
           (k, filter (fun r => employer_key
                                  (store_of [compania_accented; compania_plain]) r = k)
                      [0; 1]%nat))
        (distinct (map (employer_key (store_of [compania_accented; compania_plain]))
                       [0; 1]%nat))
  /\ ((exists k items,
         In (k, items)
            (group_records (store_of [compania_accented; compania_plain]) [0; 1]%nat)
         /\ In 0%nat items /\ In 1%nat items)
      <-> lower (strip (default [] (employer compania_accented)))
          = lower (strip (default [] (employer compania_plain)))).
Proof.
  apply (records_grouped_by_trimmed_lowercase_employer
           (store_of [compania_accented; compania_plain]) [0; 1]%nat 0%nat 1%nat).
  - simpl. auto.
  - simpl. auto.
Defined.

(** Case and surrounding blanks, on the other hand, do not separate records. *)
Example case_insensitive_group :
  snd (merge_overlapping_records
         (store_of [ new_record [] (Some (lit "  Empresa ABC ")) (d 2020 1 1) (d 2020 12 31) None;
                     new_record [] (Some (lit "EMPRESA abc")) (d 2020 6 1) (d 2021 6 30) None ])
         [0; 1]%nat)
  = [0%nat].
Proof. vm_compute. reflexivity. Qed.

(* ===================================================================== *)
(** * What the merger writes ([merge_overlapping_records], second loop) *)
(* ===================================================================== *)

Section Frame.

Lemma same_identity_refl (r : ExperienceRecord) : same_identity r r.
Proof. unfold same_identity. auto. Qed.

Lemma same_identity_trans (r1 r2 r3 : ExperienceRecord) :
  same_identity r1 r2 -> same_identity r2 r3 -> same_identity r1 r3.
Proof. unfold same_identity. intuition congruence. Qed.

Lemma update_same (h : store) (r : ref) (v : ExperienceRecord) :
  update h r v r = v.
Proof. unfold update. now rewrite Nat.eqb_refl. Qed.

Lemma update_other (h : store) (r x : ref) (v : ExperienceRecord) :
  x <> r -> update h r v x = h x.
Proof. unfold update. intros H. apply Nat.eqb_neq in H. now rewrite H. Qed.

(** An absorption writes [current] only. *)
Lemma absorb_other (h : store) (current next_item x : ref) :
  x <> current -> absorb h current next_item x = h x.
Proof.
  intros H. unfold absorb. destruct (extends h current next_item); trivial.
  cbv zeta. now rewrite !update_other.
Qed.

Lemma absorb_identity (h : store) (current next_item x : ref) :
  same_identity (h x) (absorb h current next_item x).
Proof.
  destruct (Nat.eq_dec x current) as [->|Hne].
  - unfold absorb. destruct (extends h current next_item);
      [|apply same_identity_refl].
    cbv zeta. rewrite !update_same. unfold same_identity. simpl. auto.
  - rewrite absorb_other by assumption. apply same_identity_refl.
Qed.

(** A run appends [current] and then records of [rest]; it writes only
    records it appends. *)
Lemma merge_run_frame (rest : list ref) :
  forall (h : store) (current : ref) (merged : list ref),
    (forall x, same_identity (h x) (fst (merge_run h current rest merged) x))
    /\ exists tail,
         snd (merge_run h current rest merged) = merged ++ current :: tail
         /\ incl tail rest
         /\ forall x, x <> current -> ~ In x tail ->
                      fst (merge_run h current rest merged) x = h x.
Proof.
  induction rest as [|n rest IH]; intros h current merged; simpl.
  - split; [intros; apply same_identity_refl|].
    exists []. repeat split; auto. apply incl_refl.
  - destruct (overlaps h current n).
    + destruct (IH (absorb h current n) current merged) as (Hid & tail & E & Hin & Hfr).
      split.
      * intros x. eapply same_identity_trans; [apply absorb_identity | apply Hid].
      * exists tail. repeat split; trivial.
        -- now apply incl_tl.
        -- intros x Hx Hn. rewrite Hfr by assumption. now apply absorb_other.
    + destruct (IH h n (merged ++ [current])) as (Hid & tail & E & Hin & Hfr).
      split; trivial.
      exists (n :: tail). repeat split.
      * now rewrite E, <- app_assoc.
      * intros y [->|Hy]; [now left | right; now apply Hin].
      * intros x Hx Hn. apply Hfr.
        -- intros ->. apply Hn. now left.
        -- intros Ht. apply Hn. now right.
Qed.

Lemma insert_sorted_In (h : store) (r x : ref) (l : list ref) :
  In x (insert_sorted h r l) <-> x = r \/ In x l.
Proof.
  induction l as [|y l IH]; simpl.
  - intuition.
  - destruct (date_ltb _ _); simpl; rewrite ?IH; intuition.
Qed.

Lemma sorted_by_start_In (h : store) (items : list ref) (x : ref) :
  In x (sorted_by_start h items) <-> In x items.
Proof.
  induction items as [|r items IH]; simpl; [reflexivity|].
  rewrite insert_sorted_In, IH. intuition.
Qed.

Lemma merge_group_frame (h : store) (merged items : list ref) :
  (forall x, same_identity (h x) (fst (merge_group (h, merged) items) x))
  /\ exists tail,
       snd (merge_group (h, merged) items) = merged ++ tail
       /\ incl tail items
       /\ forall x, ~ In x tail -> fst (merge_group (h, merged) items) x = h x.
Proof.
  unfold merge_group. simpl.
  destruct (sorted_by_start h items) as [|current rest] eqn:S; simpl.
  - split; [intros; apply same_identity_refl|].
    exists []. rewrite app_nil_r. repeat split; auto. intros x [].
  - destruct (merge_run_frame rest h current merged) as (Hid & tail & E & Hin & Hfr).
    split; trivial. exists (current :: tail). repeat split; trivial.
    + intros x Hx. refine (proj1 (sorted_by_start_In h items x) _). rewrite S.
      destruct Hx as [->|Hx]; [now left | right; now apply Hin].
    + intros x Hn. apply Hfr.
      * intros ->. apply Hn. now left.
      * intros Ht. apply Hn. now right.
Qed.


Lemma groups_within_records (h : store) (records : list ref) (x : ref) :
  In x (concat (map snd (group_records h records))) -> In x records.
Proof.
  rewrite group_records_spec. unfold groups_by_key. rewrite map_map. simpl.
  rewrite in_concat. intros (items & Hi & Hx).
  apply in_map_iff in Hi. destruct Hi as (k & <- & _).
  apply list_elem_of_In, list_elem_of_filter in Hx. destruct Hx as [_ Hx].
  now apply list_elem_of_In.
Qed.

End Frame.


(* ===================================================================== *)
(** * Merging two overlapping records *)
(* ===================================================================== *)

Section Overlap.








End Overlap.

Section MergePair.

Variable h : store.







End MergePair.


Example merged_days_example :
  experience_days
    (fst (merge_overlapping_records (store_of [abc_ended; abc_later])
                                    [0; 1]%nat) 0%nat) = Some 547.
Proof. vm_compute. reflexivity. Qed.


(* ===================================================================== *)
(** * Two-digit years and day numbers ([text_parser.py]) *)
(* ===================================================================== *)

Lemma parses_to_spec (text : str) (y m dd : Z) :
  parses_to text y m dd = true <->
  _parse_numeric_date text = Some (mkdate y m dd).
Proof.
  unfold parses_to. destruct (_parse_numeric_date text) as [[y' m' d']|].
  - unfold date_eqb. simpl. rewrite !andb_true_iff, !Z.eqb_eq.
    split; [intros [[-> ->] ->]; reflexivity | intros H; inversion H; auto].
  - split; discriminate.
Qed.

(** C7 (what the code does). For each of the hundred two-digit years, in
    both the [D/M/YY] and the [D-M-YY] form, the date recognizer returns
    the year [strptime] assigns to [%y]: 2000 + yy for yy <= 68 and
    1900 + yy from 69 on.  The years 50..68 come out as 2050..2068, not as
    1950..1968. *)
Theorem two_digit_years_pivot_at_69 :
  Forall (fun yy : Z =>
            _parse_numeric_date (lit "15/07/" ++ two_digits yy)
            = Some (mkdate (if yy <=? 68 then 2000 + yy else 1900 + yy) 7 15)
            /\ _parse_numeric_date (lit "15-07-" ++ two_digits yy)
               = Some (mkdate (if yy <=? 68 then 2000 + yy else 1900 + yy) 7 15))
         two_digit_years.
Proof.
  apply Forall_forall. intros yy Hin.
  assert (forallb (fun yy =>
            parses_to (lit "15/07/" ++ two_digits yy)
                      (if yy <=? 68 then 2000 + yy else 1900 + yy) 7 15
            && parses_to (lit "15-07-" ++ two_digits yy)
                         (if yy <=? 68 then 2000 + yy else 1900 + yy) 7 15)
            two_digit_years = true) as H by (vm_compute; reflexivity).
  rewrite forallb_forall in H. apply list_elem_of_In in Hin.
  specialize (H yy Hin). apply andb_true_iff in H. destruct H as [H1 H2].
  now rewrite parses_to_spec in H1, H2.
Qed.

Example year_55_is_2055 :
  _parse_numeric_date (lit "15/07/55") = d 2055 7 15.
Proof. vm_compute. reflexivity. Qed.

(** A four-digit year below 100 is the only input that reaches the
    century correction of [_parse_numeric_date]. *)
Example year_0055_is_1955 :
  _parse_numeric_date (lit "15/07/0055") = d 1955 7 15.
Proof. vm_compute. reflexivity. Qed.

Example numeric_day_out_of_range : _parse_numeric_date (lit "31/02/2020") = None.
Proof. vm_compute. reflexivity. Qed.

(** C9 (what the code does). A natural-language date whose day the month
    does not have is recognized by [DATE_PATTERN], reaches the unguarded
    [date(...)] of [_parse_spanish_date] through the last-date fallback for
    the issue date, and the [ValueError] leaves
    [parse_experiences_from_text]. *)
Theorem parse_raises_on_impossible_day :
  _parse_date (lit "31 de febrero de 2020") = ValueError
  /\ parse_experiences_from_text (lit "31 de febrero de 2020")
                                 (lit "Certificado: 1.pdf")
     = ValueError.
Proof. vm_compute. auto. Qed.

(** The other two parts of the sentence hold on these inputs: a section
    without any date yields no record, and a dated section is kept. *)
Example section_without_date_is_dropped :
  parse_experiences_from_text (lit "Empresa XYZ S.A.
Cargo: analista") (lit "Certificado: 1.pdf") = Return [].
Proof. vm_compute. reflexivity. Qed.

Example dated_section_is_kept :
  parse_experiences_from_text (lit "desde 03/01/2020") (lit "Hoja de vida")
  = Return [ mkRecord (lit "Hoja de vida") (Some (lit "desde 03/01/2020"))
               (d 2020 1 3) None (d 2020 1 3) (d 2020 1 3) (Some 1) ].
Proof. vm_compute. reflexivity. Qed.

(* ===================================================================== *)
(** * Records after they were appended to the result *)
(* ===================================================================== *)

Section Traced.







Lemma insert_sorted_NoDup (h : store) (r : ref) (l : list ref) :
  ~ In r l -> List.NoDup l -> List.NoDup (insert_sorted h r l).
Proof.
  induction l as [|y l IH]; simpl; intros Hr Hnd.
  - constructor; [tauto | constructor].
  - destruct (date_ltb _ _).
    + inversion Hnd; subst. constructor.
      * rewrite insert_sorted_In. intros [->|Hin]; tauto.
      * apply IH; tauto.
    + constructor; assumption.
Qed.

Lemma sorted_by_start_NoDup (h : store) (items : list ref) :
  List.NoDup items -> List.NoDup (sorted_by_start h items).
Proof.
  induction items as [|r items IH]; simpl; intros Hnd; [constructor|].
  inversion Hnd; subst. apply insert_sorted_NoDup; [|now apply IH].
  now rewrite sorted_by_start_In.
Qed.





End Traced.



(** With one object twice in the input the proviso matters: the record at
    reference 0 starts on [date.min], is appended, comes back as the running
    record after the undated one, and is then extended; the first entry of
    the result changes after it was appended. *)
Example repeated_record_written_after_append :
  snd (merge_overlapping_records
         (store_of [year1_ended; undated_start; year2_ended]) [0; 1; 0; 2]%nat)
  = [0; 1; 0]%nat
  /\ map end_date
       (snd (merge_traced
               (store_of [year1_ended; undated_start; year2_ended]) [0; 1; 0; 2]%nat))
     = [d 1 12 31; d 1 3 1; d 2 6 30]
  /\ map end_date
       (read_back (merge_overlapping_records
                     (store_of [year1_ended; undated_start; year2_ended])
                     [0; 1; 0; 2]%nat))
     = [d 2 6 30; d 1 3 1; d 2 6 30].
Proof. vm_compute. auto. Qed.

(* ===================================================================== *)
(** * Sections that are dropped and sections that are kept *)
(* ===================================================================== *)

(** When a round of [parse_experiences_from_text] returns, it has either
    left the list alone, no date having been found for any role, or appended
    exactly one record that carries the dates found, whatever the employer
    extraction gave. *)
Lemma section_dropped_or_kept (source_ : str) (section : ParsedSection)
    (experiences experiences' : list ExperienceRecord) :
  section_step source_ section experiences = Return experiences' ->
  experiences' = experiences
  \/ exists s e i,
       (s <> None \/ e <> None \/ i <> None)
       /\ experiences'
          = experiences
            ++ [new_record source_ (_extract_employer section) s e i].
Proof.
  unfold section_step.
  destruct (_find_first_matching_date (text section) KEYWORDS_start before)
    as [s|]; [|discriminate].
  destruct (_find_first_matching_date (text section) KEYWORDS_end before)
    as [e|]; [|discriminate].
  destruct (_find_first_matching_date (text section) KEYWORDS_issue before)
    as [i|]; [|discriminate].
  simpl.
  assert (forall i' : option date,
            (if negb (existsb is_Some_b [s; e; i'])
             then Return experiences
             else Return (experiences
                            ++ [new_record source_ (_extract_employer section) s e i']))
            = Return experiences' ->
            experiences' = experiences
            \/ exists s0 e0 i0,
                 (s0 <> None \/ e0 <> None \/ i0 <> None)
                 /\ experiences'
                    = experiences
                      ++ [new_record source_ (_extract_employer section) s0 e0 i0])
    as K.
  { intros i' H. destruct (existsb is_Some_b [s; e; i']) eqn:X; simpl in H;
      inversion H; subst; [right|now left].
    exists s, e, i'. split; [|reflexivity].
    simpl in X. destruct s, e, i'; simpl in X; try discriminate;
      intuition discriminate. }
  destruct i as [i|].
  - apply K.
  - destruct (_extract_issue_date section) as [i'|]; [|discriminate].
    apply K.
Qed.

(* ===================================================================== *)
(** * The work list of [get_matching_blocks] runs empty *)
(* ===================================================================== *)

Section WorkList.

Variables a b : str.

Lemma scan_js_within (alo : nat) (js : list nat) :
  forall (i blo bhi : nat) (j2len newj2len : gmap nat nat) (best : Difflib.match_),
    (alo <= i)%nat ->
    (forall j v, j2len !! j = Some v -> (v <= i - alo)%nat) ->
    (forall j v, newj2len !! j = Some v -> (v <= i - alo + 1)%nat) ->
    within alo (S i) best ->
    (forall j v, fst (Difflib.scan_js js i blo bhi j2len newj2len best) !! j = Some v ->
                 (v <= i - alo + 1)%nat)
    /\ within alo (S i) (snd (Difflib.scan_js js i blo bhi j2len newj2len best)).
Proof.
  induction js as [|j js IH]; intros i blo bhi j2len new best Hi Hold Hnew Hb; simpl.
  - auto.
  - destruct (j <? blo)%nat; [now apply IH|].
    destruct (bhi <=? j)%nat; [simpl; auto|].
    destruct best as [[bi bj] bk].
    assert ((match j with
             | O => O
             | S j' => default O (j2len !! j')
             end <= i - alo)%nat) as Hp.
    { destruct j as [|j']; [lia|].
      destruct (j2len !! j') as [v|] eqn:L; simpl; [eauto | lia]. }
    apply IH; trivial.
    + intros j0 v Hl. apply lookup_insert_Some in Hl.
      destruct Hl as [[_ <-]|[_ Hl]]; [lia | eauto].
    + destruct (bk <? _)%nat; [|assumption].
      unfold within. simpl. lia.
Qed.

Lemma scan_is_within (alo blo bhi : nat) (n : nat) :
  forall (i : nat) (j2len : gmap nat nat) (best : Difflib.match_),
    (alo <= i)%nat ->
    (forall j v, j2len !! j = Some v -> (v <= i - alo)%nat) ->
    within alo i best ->
    within alo (i + n) (Difflib.scan_is a b (seq i n) blo bhi j2len best).
Proof.
  induction n as [|n IH]; intros i j2len best Hi Hold Hb; simpl.
  - now rewrite Nat.add_0_r.
  - pose proof (scan_js_within alo (Difflib.b2j b (Difflib.at_ a i))
                  i blo bhi j2len ∅ best Hi Hold) as J.
    destruct J as [Jn Jb].
    + intros j v Hl. now rewrite lookup_empty in Hl.
    + destruct Hb. split; lia.
    + destruct (Difflib.scan_js _ i blo bhi j2len ∅ best) as [new best'].
      simpl in *. replace (i + S n)%nat with (S i + n)%nat by lia.
      apply IH; [lia | | assumption].
      intros j v Hl. apply Jn in Hl. lia.
Qed.

Lemma extend_left_within (ok : ascii -> bool) (alo blo hi : nat) (fuel : nat) :
  forall m, within alo hi m ->
            within alo hi (Difflib.extend_left a b fuel ok alo blo m).
Proof.
  induction fuel as [|fuel IH]; intros [[bi bj] bk] H; simpl; [assumption|].
  destruct (_ && _) eqn:C; [|assumption].
  apply IH. rewrite !andb_true_iff, !Nat.ltb_lt in C.
  unfold within in *. simpl in *. lia.
Qed.

Lemma extend_right_within (ok : ascii -> bool) (alo ahi bhi : nat) (fuel : nat) :
  forall m, within alo ahi m ->
            within alo ahi (Difflib.extend_right a b fuel ok ahi bhi m).
Proof.
  induction fuel as [|fuel IH]; intros [[bi bj] bk] H; simpl; [assumption|].
  destruct (_ && _) eqn:C; [|assumption].
  apply IH. rewrite !andb_true_iff, !Nat.ltb_lt in C.
  unfold within in *. simpl in *. lia.
Qed.

(** The two growing loops stop by themselves within [len(a)] rounds: the
    left one after at most [besti] rounds, the right one after at most
    [ahi - (besti + bestsize)]. *)
Lemma extend_left_fuel (ok : ascii -> bool) (alo blo : nat) (fuel : nat) :
  forall (m : Difflib.match_) (extra : nat),
    (fst (fst m) <= fuel)%nat ->
    Difflib.extend_left a b (fuel + extra) ok alo blo m
    = Difflib.extend_left a b fuel ok alo blo m.
Proof.
  induction fuel as [|fuel IH]; intros [[bi bj] bk] extra H; simpl in *.
  - assert (bi = O) as -> by lia. destruct extra; simpl; [reflexivity|].
    now replace (alo <? 0)%nat with false by (symmetry; apply Nat.ltb_ge; lia).
  - destruct (_ && _) eqn:C; [|reflexivity]. apply IH. simpl. lia.
Qed.

Lemma extend_right_fuel (ok : ascii -> bool) (ahi bhi : nat) (fuel : nat) :
  forall (m : Difflib.match_) (extra : nat),
    (ahi - (fst (fst m) + snd m) <= fuel)%nat ->
    Difflib.extend_right a b (fuel + extra) ok ahi bhi m
    = Difflib.extend_right a b fuel ok ahi bhi m.
Proof.
  induction fuel as [|fuel IH]; intros [[bi bj] bk] extra H; simpl in *.
  - destruct extra; simpl; [reflexivity|].
    now replace (bi + bk <? ahi)%nat with false by (symmetry; apply Nat.ltb_ge; lia).
  - destruct (_ && _) eqn:C; [|reflexivity]. apply IH. simpl.
    rewrite !andb_true_iff, !Nat.ltb_lt in C. lia.
Qed.

(** The longest match of a range of [a] lies in that range. *)
Lemma find_longest_match_within (alo ahi blo bhi : nat) :
  (alo <= ahi)%nat ->
  within alo ahi (Difflib.find_longest_match a b alo ahi blo bhi).
Proof.
  intros H. unfold Difflib.find_longest_match.
  apply extend_right_within, extend_left_within, extend_right_within,
        extend_left_within.
  pose proof (scan_is_within alo blo bhi (ahi - alo) alo ∅ (alo, blo, O)) as S.
  replace (alo + (ahi - alo))%nat with ahi in S by lia.
  apply S; [lia | | unfold within; simpl; lia].
  intros j v Hl. now rewrite lookup_empty in Hl.
Qed.

(** Fuel beyond the weight of the queue is never used. *)
Lemma blocks_loop_fuel (fuel : nat) :
  forall (queue : list (nat * nat * nat * nat)) (blocks : list Difflib.match_)
         (extra : nat),
    Forall (fun e => (fst (fst (fst e)) <= snd (fst (fst e)))%nat) queue ->
    (queue_weight queue <= fuel)%nat ->
    Difflib.blocks_loop a b (fuel + extra) queue blocks
    = Difflib.blocks_loop a b fuel queue blocks.
Proof.
  induction fuel as [|fuel IH]; intros queue blocks extra Hq Hw.
  - destruct queue as [|[[[alo ahi] blo] bhi] q]; simpl in Hw; [|lia].
    destruct extra; reflexivity.
  - destruct queue as [|[[[alo ahi] blo] bhi] q]; [reflexivity|].
    simpl in Hw. inversion Hq as [|? ? Hle Hq']; subst. simpl in Hle.
    pose proof (find_longest_match_within alo ahi blo bhi Hle) as W.
    simpl. destruct (Difflib.find_longest_match a b alo ahi blo bhi) as [[i j] k].
    unfold within in W. simpl in W.
    destruct (Nat.eqb_spec k 0) as [->|Hk].
    + apply IH; [assumption | lia].
    + destruct ((alo <? i)%nat && (blo <? j)%nat) eqn:C1;
        destruct ((i + k <? ahi)%nat && (j + k <? bhi)%nat) eqn:C2;
        apply IH; repeat constructor; simpl; trivial; try lia.
Qed.

End WorkList.

(** [get_matching_blocks] terminates within the rounds the embedding grants
    it: more rounds give the same blocks. *)
Lemma matching_blocks_total (a b : str) (extra : nat) :
  Difflib.blocks_loop a b (2 * length a + 1 + extra)
                      [(O, length a, O, length b)] []
  = Difflib.matching_blocks a b.
Proof.
  unfold Difflib.matching_blocks. apply blocks_loop_fuel.
  - repeat constructor. simpl. lia.
  - simpl. lia.
Qed.

(* ===================================================================== *)
(** * More on derived fields ([models.py]) *)
(* ===================================================================== *)

(** X1. A record has a day count exactly when it has an effective end date:
    the constructor never leaves one of the two derived fields null and the
    other set. *)
Theorem experience_days_null_iff_no_effective_end
    (src : str) (emp : option str) (s e i : option date) :
  experience_days (new_record src emp s e i) = None
  <-> effective_end_date (new_record src emp s e i) = None.
Proof.
  unfold new_record, post_init. simpl.
  destruct s as [s|], e as [e|], i as [i|]; simpl;
    repeat match goal with |- context [date_ltb ?u ?v] => destruct (date_ltb u v) end;
    split; intros H; try discriminate; reflexivity.
Qed.

(** X2. The day count of a record built from calendar dates is never
    negative; it is 0 exactly when the effective end date is before the
    start date, and otherwise counts both end points. *)
Theorem experience_days_never_negative
    (src : str) (emp : option str) (s e i : option date) (n : Z) :
  valid_opt s = true -> valid_opt e = true -> valid_opt i = true ->
  experience_days (new_record src emp s e i) = Some n ->
  0 <= n
  /\ exists s' e',
       s = Some s' /\ effective_end_date (new_record src emp s e i) = Some e'
       /\ (n = 0 <-> toordinal e' < toordinal s')
       /\ (toordinal s' <= toordinal e' -> n = toordinal e' - toordinal s' + 1).
Proof.
  intros Vs Ve Vi. unfold new_record, post_init. simpl.
  pose proof (effective_end_valid s e i Ve Vi) as Vf.
  destruct s as [s'|]; [|discriminate].
  destruct (_compute_effective_end (Some s') e i) as [e'|]; [|discriminate].
  simpl in *. unfold sub_days.
  destruct (date_ltb e' s') eqn:L; intros H; inversion H; subst; clear H.
  - apply date_ltb_lt in L; trivial. split; [lia|].
    exists s', e'. repeat split; trivial; lia.
  - assert (toordinal s' <= toordinal e') as G.
    { destruct (Z.lt_ge_cases (toordinal e') (toordinal s')) as [Hl|Hl]; [|lia].
      apply date_ltb_lt in Hl; trivial. congruence. }
    split; [lia|]. exists s', e'. repeat split; trivial; lia.
Qed.

(** A contract that ended before it started counts 0 days. *)
Lemma experience_days_never_negative_witness :
  0 <= 0
  /\ exists s' e',
       d 2020 3 10 = Some s'
       /\ effective_end_date
            (new_record [] None (d 2020 3 10) (d 2020 3 1) None) = Some e'
       /\ (0 = 0 <-> toordinal e' < toordinal s')
       /\ (toordinal s' <= toordinal e' -> 0 = toordinal e' - toordinal s' + 1).
Proof.
  apply (experience_days_never_negative [] None (d 2020 3 10) (d 2020 3 1) None 0);
    reflexivity.
Defined.

(* ===================================================================== *)
(** * Normalized employer names ([comparer.py]) *)
(* ===================================================================== *)

Section Normalize.

(** Check a statement about one character on all 256 of them. *)
Ltac each_char c :=
  destruct c as [[] [] [] [] [] [] [] []]; vm_compute; try reflexivity; auto.

Lemma norm_char_idem (c : ascii) : norm_char (norm_char c) = norm_char c.
Proof. each_char c. Qed.

Lemma lower_char_idem (c : ascii) : lower_char (lower_char c) = lower_char c.
Proof. each_char c. Qed.

Lemma replace_char (o n : ascii) (s : str) :
  replace [o] [n] s = map (fun x => if char_eqb o x then n else x) s.
Proof.
  unfold replace. induction s as [|c s IH]; [reflexivity|].
  cbn [replace_from startswith length Nat.sub map app].
  rewrite andb_true_r, IH. now destruct (char_eqb o c).
Qed.

(** Before the filter, [_normalize_name] has mapped every character. *)
Lemma replacements_map (s : str) :
  fold_left (fun t (p : str * str) => replace (fst p) (snd p) t)
            replacements (lower s)
  = map norm_char s.
Proof.
  unfold replacements. cbn [fold_left fst snd].
  change (lit "á") with [chr 225]. change (lit "a") with [chr 97].
  change (lit "é") with [chr 233]. change (lit "e") with [chr 101].
  change (lit "í") with [chr 237]. change (lit "i") with [chr 105].
  change (lit "ó") with [chr 243]. change (lit "o") with [chr 111].
  change (lit "ú") with [chr 250]. change (lit "u") with [chr 117].
  change (lit "ñ") with [chr 241]. change (lit "n") with [chr 110].
  rewrite !replace_char. unfold lower. rewrite !map_map.
  apply map_ext. intros c. each_char c.
Qed.

Lemma normalize_name_Some (s : str) :
  _normalize_name (Some s) = strip (filter kept (map norm_char s)).
Proof.
  destruct s as [|c s]; [reflexivity|].
  unfold _normalize_name. now rewrite replacements_map.
Qed.

Lemma lstrip_by_app_stop (p : ascii -> bool) (l m : str) (c : ascii) :
  p c = false -> lstrip_by p (l ++ c :: m) = lstrip_by p l ++ c :: m.
Proof.
  intros Hc. induction l as [|x l IH]; simpl.
  - now rewrite Hc.
  - destruct (p x); [exact IH | reflexivity].
Qed.

Lemma lstrip_by_fixed (p : ascii -> bool) (c : ascii) (l : str) :
  p c = false -> lstrip_by p (c :: l) = c :: l.
Proof. intros H. simpl. now rewrite H. Qed.

Lemma lstrip_by_head (p : ascii -> bool) (l : str) :
  lstrip_by p l = [] \/ exists c t, lstrip_by p l = c :: t /\ p c = false.
Proof.
  induction l as [|x l IH]; simpl; [now left|].
  destruct (p x) eqn:E; [exact IH | right; eauto].
Qed.

Lemma lstrip_by_idem (p : ascii -> bool) (l : str) :
  lstrip_by p (lstrip_by p l) = lstrip_by p l.
Proof.
  destruct (lstrip_by_head p l) as [->|(c & t & -> & Hc)]; [reflexivity|].
  now apply lstrip_by_fixed.
Qed.

Lemma rstrip_by_cons (p : ascii -> bool) (c : ascii) (l : str) :
  p c = false -> rstrip_by p (c :: l) = c :: rstrip_by p l.
Proof.
  intros Hc. unfold rstrip_by. simpl.
  rewrite lstrip_by_app_stop by assumption.
  rewrite rev_app_distr. reflexivity.
Qed.

Lemma rstrip_by_idem (p : ascii -> bool) (l : str) :
  rstrip_by p (rstrip_by p l) = rstrip_by p l.
Proof. unfold rstrip_by. now rewrite rev_involutive, lstrip_by_idem. Qed.

(** Stripping twice is stripping once. *)
Lemma strip_by_idem (p : ascii -> bool) (l : str) :
  strip_by p (strip_by p l) = strip_by p l.
Proof.
  unfold strip_by.
  destruct (lstrip_by_head p l) as [->|(c & t & -> & Hc)]; [reflexivity|].
  rewrite rstrip_by_cons by assumption.
  rewrite lstrip_by_fixed by assumption.
  rewrite <- rstrip_by_cons by assumption. apply rstrip_by_idem.
Qed.

Lemma lstrip_by_In (p : ascii -> bool) (l : str) (c : ascii) :
  In c (lstrip_by p l) -> In c l.
Proof.
  induction l as [|x l IH]; simpl; [tauto|].
  destruct (p x); simpl; tauto.
Qed.

Lemma strip_by_In (p : ascii -> bool) (l : str) (c : ascii) :
  In c (strip_by p l) -> In c l.
Proof.
  unfold strip_by, rstrip_by. intros H.
  apply in_rev, lstrip_by_In, in_rev in H. now apply lstrip_by_In in H.
Qed.

(** A stripped string neither starts nor ends with a stripped character. *)
Lemma strip_by_ends (p : ascii -> bool) (l : str) :
  match strip_by p l with
  | [] => True
  | c :: _ => p c = false
  end
  /\ match rev (strip_by p l) with
     | [] => True
     | c :: _ => p c = false
     end.
Proof.
  split.
  - rewrite <- strip_by_idem. unfold strip_by at 1.
    destruct (lstrip_by_head p (strip_by p l)) as [E|(c & t & E & Hc)]; rewrite E.
    + exact I.
    + now rewrite rstrip_by_cons by assumption.
  - unfold strip_by, rstrip_by. rewrite rev_involutive.
    destruct (lstrip_by_head p (rev (lstrip_by p l))) as [->|(c & t & -> & Hc)];
      [exact I | exact Hc].
Qed.

Lemma Forall_map_id {A} (f : A -> A) (l : list A) :
  (forall x, In x l -> f x = x) -> map f l = l.
Proof.
  induction l as [|a l IH]; intros H; simpl; [reflexivity|].
  rewrite H by now left. f_equal. apply IH. intros x Hx. apply H. now right.
Qed.

Lemma filter_all {A} (P : A -> Prop) `{forall x, Decision (P x)} (l : list A) :
  (forall x, In x l -> P x) -> filter P l = l.
Proof.
  induction l as [|a l IH]; intros Hl; [reflexivity|].
  rewrite filter_cons_True by (apply Hl; now left).
  f_equal. apply IH. intros x Hx. apply Hl. now right.
Qed.

(** Every character of a normalized name was kept by the filter and is
    already in normal form. *)
Lemma normalize_name_chars (name : option str) (c : ascii) :
  In c (_normalize_name name) -> kept c = true /\ norm_char c = c.
Proof.
  destruct name as [s|]; [|intros []].
  rewrite normalize_name_Some. intros H.
  apply strip_by_In, list_elem_of_In, list_elem_of_filter in H.
  destruct H as [Hk H]. apply list_elem_of_In, in_map_iff in H.
  destruct H as (c0 & <- & _). split.
  - apply Is_true_true. exact Hk.
  - apply norm_char_idem.
Qed.

End Normalize.

(** X3. Normalizing an employer name twice gives what normalizing it once
    gives. *)
Theorem normalize_name_idempotent (name : option str) :
  _normalize_name (Some (_normalize_name name)) = _normalize_name name.
Proof.
  rewrite normalize_name_Some.
  rewrite Forall_map_id
    by (intros c Hc; exact (proj2 (normalize_name_chars name c Hc))).
  rewrite filter_all.
  - destruct name as [s|]; [|reflexivity].
    rewrite normalize_name_Some. apply strip_by_idem.
  - intros c Hc. apply Is_true_true.
    exact (proj1 (normalize_name_chars name c Hc)).
Qed.

(** X4. A normalized name consists of letters, digits and blanks only, has
    no upper-case letter and none of the six accented letters the code
    replaces, and neither starts nor ends with a blank. *)
Theorem normalize_name_shape (name : option str) :
  Forall (fun c => (isalnum c || isspace c) = true
                   /\ lower_char c = c
                   /\ ~ In c (lit "áéíóúñ"))
         (_normalize_name name)
  /\ strip (_normalize_name name) = _normalize_name name.
Proof.
  split.
  - apply Forall_forall. intros c Hc. apply list_elem_of_In in Hc.
    apply normalize_name_chars in Hc. destruct Hc as [Hk Hn].
    split; [exact Hk|]. rewrite <- Hn. clear.
    destruct c as [[] [] [] [] [] [] [] []]; vm_compute;
      (split; [reflexivity | intuition discriminate]).
  - destruct name as [s|]; [|reflexivity].
    rewrite normalize_name_Some. apply strip_by_idem.
Qed.

(* ===================================================================== *)
(** * More on the comparison ([comparer.py]) *)
(* ===================================================================== *)

Section Rows.

Lemma best_fold_score (c : ExperienceRecord) (l : list ExperienceRecord) :
  forall (k : nat) (init : option (MatchScore * nat)) bs bi,
    fold_left (best_step c) (combine (seq k (length l)) l) init = Some (bs, bi) ->
    init = Some (bs, bi)
    \/ (In (ms_cv_entry bs) l /\ bs = _score_pair c (ms_cv_entry bs)).
Proof.
  induction l as [|x l IH]; intros k init bs bi; simpl; [auto|].
  intros H. apply IH in H. destruct H as [H | [Hin Hs]].
  - unfold best_step in H. simpl in H.
    destruct init as [[bs0 bi0]|].
    + destruct (PrimFloat.ltb _ _); [|auto].
      inversion H; subst. right. simpl. auto.
    + inversion H; subst. right. simpl. auto.
  - right. auto.
Qed.

(** The best pair is the score of the certificate against a record of the
    résumé list. *)
Lemma best_match_score (c : ExperienceRecord) (cv_list : list ExperienceRecord)
    bs bi :
  best_match c cv_list = Some (bs, bi) ->
  In (ms_cv_entry bs) cv_list /\ bs = _score_pair c (ms_cv_entry bs).
Proof.
  unfold best_match, enumerate. intros H.
  apply best_fold_score in H. destruct H as [H|H]; [discriminate | exact H].
Qed.

Lemma certificate_of_row (cv_list : list ExperienceRecord) (c : ExperienceRecord) :
  certificate (certificate_row cv_list c) = c.
Proof.
  unfold certificate_row. now destruct (accepted cv_list c) as [[bs bi]|].
Qed.

Lemma enumerate_nth {A} (l : list A) :
  forall (k idx : nat) (x : A),
    nth_error l idx = Some x -> In ((k + idx)%nat, x) (combine (seq k (length l)) l).
Proof.
  induction l as [|a l IH]; intros k idx x H.
  - destruct idx; discriminate.
  - destruct idx as [|idx]; simpl in *.
    + inversion H; subst. left. f_equal. lia.
    + right. replace (k + S idx)%nat with (S k + idx)%nat by lia. now apply IH.
Qed.

Lemma details_distinct :
  details_matched <> details_partial /\ details_matched <> details_unmatched
  /\ details_matched <> details_cv_only /\ details_partial <> details_unmatched
  /\ details_partial <> details_cv_only /\ details_unmatched <> details_cv_only.
Proof. repeat split; intros H; vm_compute in H; discriminate. Qed.

End Rows.

(** X5. Against an empty résumé every certificate is reported unmatched, in
    input order, and nothing else is reported. *)
Theorem compare_with_empty_resume (certificates : list ExperienceRecord) :
  compare_certificates_with_cv certificates []
  = map (fun c => mkComparison c None false details_unmatched) certificates.
Proof.
  rewrite compare_rows. unfold unconsumed. simpl. rewrite app_nil_r.
  apply map_ext. intros c. reflexivity.
Qed.

(** X6. Without certificates every résumé record is reported once, in
    input order, as a résumé-only row. *)
Theorem compare_without_certificates (cv_entries : list ExperienceRecord) :
  compare_certificates_with_cv [] cv_entries = map cv_only_row cv_entries.
Proof.
  rewrite compare_rows. simpl. f_equal. unfold unconsumed, consumed. simpl.
  rewrite filter_all.
  - unfold enumerate. generalize 0%nat.
    induction cv_entries as [|cv l IH]; intros k; simpl; [reflexivity|].
    now rewrite IH.
  - intros p _. apply not_elem_of_empty.
Qed.

(** The records at the indices a filter keeps, in order. *)
Lemma kept_records_sublist {A} (P : nat * A -> Prop)
    `{forall p, Decision (P p)} (l : list A) :
  forall k : nat,
    sublist (map snd (filter P (combine (seq k (length l)) l))) l.
Proof.
  induction l as [|x l IH]; intros k; simpl; [constructor|].
  destruct (decide (P (k, x))) as [Hp|Hp].
  - rewrite filter_cons_True by exact Hp. simpl. apply sublist_skip, IH.
  - rewrite filter_cons_False by exact Hp. apply sublist_cons, IH.
Qed.

(** X7. The rows start with one row per certificate, carrying the
    certificates in input order; the rows after them are résumé-only rows,
    of résumé records taken in résumé order and at most once each. *)
Theorem one_row_per_certificate (certificates cv_entries : list ExperienceRecord) :
  map certificate
      (firstn (length certificates)
              (compare_certificates_with_cv certificates cv_entries))
  = certificates
  /\ (exists kept : list ExperienceRecord,
        skipn (length certificates)
              (compare_certificates_with_cv certificates cv_entries)
        = map cv_only_row kept
        /\ sublist kept cv_entries)
  /\ (length certificates
      <= length (compare_certificates_with_cv certificates cv_entries)
      <= length certificates + length cv_entries)%nat.
Proof.
  rewrite compare_rows. split; [|split].
  - rewrite firstn_app, length_map, Nat.sub_diag. simpl. rewrite app_nil_r.
    rewrite firstn_all2 by (rewrite length_map; lia).
    rewrite map_map. rewrite <- (map_id certificates) at 2.
    apply map_ext. apply certificate_of_row.
  - exists (unconsumed cv_entries certificates). split.
    + rewrite skipn_app, length_map, Nat.sub_diag. simpl.
      rewrite skipn_all2 by (rewrite length_map; lia). reflexivity.
    + unfold unconsumed, enumerate. apply kept_records_sublist.
  - rewrite length_app, !length_map. unfold unconsumed.
    rewrite length_map.
    pose proof (length_filter (fun p : nat * ExperienceRecord =>
                                 fst p ∉ consumed cv_entries certificates)
                              (enumerate cv_entries)) as L.
    unfold enumerate in *. rewrite length_combine, length_seq in L. lia.
Qed.

(** X8. No résumé record is lost: each one is the [cv_entry] of some row,
    be it a certificate's row or its own résumé-only row. *)
Theorem every_resume_record_is_reported
    (certificates cv_entries : list ExperienceRecord)
    (idx : nat) (cv : ExperienceRecord) :
  nth_error cv_entries idx = Some cv ->
  exists r, In r (compare_certificates_with_cv certificates cv_entries)
            /\ cv_entry r = Some cv.
Proof.
  intros Hn. rewrite compare_rows.
  destruct (decide (idx ∈ consumed cv_entries certificates)) as [Hc|Hc].
  - apply consumed_spec in Hc. destruct Hc as (c & bs & Hin & Ha).
    exists (certificate_row cv_entries c). split.
    + apply in_or_app. left. now apply in_map.
    + unfold certificate_row. rewrite Ha. exact Hn.
  - exists (cv_only_row cv). split; [|reflexivity].
    apply in_or_app. right. apply in_map. unfold unconsumed.
    apply in_map_iff. exists (idx, cv). split; [reflexivity|].
    apply list_elem_of_In, list_elem_of_filter. split; [exact Hc|].
    apply list_elem_of_In. apply (enumerate_nth cv_entries 0 idx cv Hn).
Qed.

Lemma every_resume_record_is_reported_witness :
  exists r, In r (compare_certificates_with_cv [abc_2019; abc_2020] [abc_cv])
            /\ cv_entry r = Some abc_cv.
Proof.
  apply (every_resume_record_is_reported [abc_2019; abc_2020] [abc_cv] 0 abc_cv).
  reflexivity.
Defined.

(** Forget what the four detail texts are, keeping that they differ. *)
Ltac abstract_details :=
  pose proof details_distinct as (D1 & D2 & D3 & D4 & D5 & D6);
  let E := fresh in
  remember details_matched as dm eqn:E; clear E;
  remember details_partial as dp eqn:E; clear E;
  remember details_unmatched as du eqn:E; clear E;
  remember details_cv_only as dc eqn:E; clear E.

(** X9. In every row the three outcome fields agree: the details say "no
    match" exactly when [cv_entry] is null, and [start_date_match] is set
    exactly on the rows whose details say "matched by employer and date" or
    "present only in the résumé", never on a row without [cv_entry]. *)
Theorem row_fields_agree
    (certificates cv_entries : list ExperienceRecord) :
  Forall (fun r =>
            (cv_entry r = None <-> details r = details_unmatched)
            /\ (start_date_match r = true
                <-> details r = details_matched \/ details r = details_cv_only)
            /\ (start_date_match r = true -> cv_entry r <> None))
         (compare_certificates_with_cv certificates cv_entries).
Proof.
  rewrite compare_rows. apply Forall_app. split; apply Forall_forall; intros r Hr;
    apply list_elem_of_In, in_map_iff in Hr; destruct Hr as (x & <- & _).
  - unfold certificate_row, accepted.
    destruct (best_match x cv_entries) as [[bs bi]|] eqn:B;
      [destruct (PrimFloat.ltb 0.3 (score bs));
       [rewrite (best_match_index _ _ _ _ B);
        destruct (ms_start_date_match bs)|]|];
      cbn [cv_entry details start_date_match]; abstract_details;
      (split; [split; intros; congruence|]);
      (split; [split; [intros; try discriminate; auto
                      | intros [H|H]; congruence]
              | intros; congruence]).
  - unfold cv_only_row. cbn [cv_entry details start_date_match].
    abstract_details. repeat split; intros; try congruence; auto.
Qed.

Lemma start_match_within_week (c cv : ExperienceRecord) :
  ms_start_date_match (_score_pair c cv) = true ->
  exists s1 s2, start_date c = Some s1 /\ start_date cv = Some s2
                /\ Z.abs (toordinal s1 - toordinal s2) <= 7.
Proof.
  unfold _score_pair. cbn [ms_start_date_match]. unfold _date_difference.
  destruct (start_date c) as [s1|]; [|discriminate].
  destruct (start_date cv) as [s2|]; [|discriminate].
  intros M. apply Z.leb_le in M. exists s1, s2. auto.
Qed.

(** The row of a certificate says "matched by employer and date" only when
    the certificate accepted a pair that agrees on the start date. *)
Lemma certificate_row_matched (cv_list : list ExperienceRecord)
    (c : ExperienceRecord) :
  details (certificate_row cv_list c) = details_matched ->
  exists bs bi, best_match c cv_list = Some (bs, bi)
                /\ cv_entry (certificate_row cv_list c) = Some (ms_cv_entry bs)
                /\ ms_start_date_match bs = true.
Proof.
  unfold certificate_row, accepted.
  destruct (best_match c cv_list) as [[bs bi]|] eqn:B;
    [destruct (PrimFloat.ltb 0.3 (score bs));
     [destruct (ms_start_date_match bs) eqn:M|]|];
    cbn [details cv_entry]; intros Hd;
    try (exfalso; abstract_details; congruence).
  exists bs, bi. rewrite (best_match_index _ _ _ _ B). auto.
Qed.

Lemma cv_only_row_not_matched (cv : ExperienceRecord) :
  details (cv_only_row cv) <> details_matched.
Proof.
  unfold cv_only_row. cbn [details]. abstract_details. congruence.
Qed.

(** X10. A row says "matched by employer and date" only for a certificate
    and a résumé record of the inputs whose start dates are both present
    and at most 7 days apart. *)
Theorem matched_rows_agree_on_start
    (certificates cv_entries : list ExperienceRecord) (r : ComparisonResult) :
  In r (compare_certificates_with_cv certificates cv_entries) ->
  details r = details_matched ->
  exists cv s1 s2,
    In (certificate r) certificates /\ In cv cv_entries
    /\ cv_entry r = Some cv
    /\ start_date (certificate r) = Some s1 /\ start_date cv = Some s2
    /\ Z.abs (toordinal s1 - toordinal s2) <= 7.
Proof.
  rewrite compare_rows, in_app_iff, !in_map_iff.
  intros [(c & <- & Hc) | (cv & <- & _)] Hd.
  - apply certificate_row_matched in Hd.
    destruct Hd as (bs & bi & B & E & M).
    apply best_match_score in B. destruct B as [Hin Hs].
    rewrite Hs in M. apply start_match_within_week in M.
    destruct M as (s1 & s2 & S1 & S2 & Hw).
    exists (ms_cv_entry bs), s1, s2. rewrite certificate_of_row. auto 10.
  - now apply cv_only_row_not_matched in Hd.
Qed.

Lemma resume_record_taken_twice_rows :
  compare_certificates_with_cv [abc_2019; abc_2020] [abc_cv]
  = [ mkComparison abc_2019 (Some abc_cv) false details_partial;
      mkComparison abc_2020 (Some abc_cv) true details_matched ].
Proof. vm_compute. reflexivity. Qed.

Lemma matched_rows_agree_on_start_witness :
  exists cv s1 s2,
    In abc_2020 [abc_2019; abc_2020] /\ In cv [abc_cv]
    /\ Some abc_cv = Some cv
    /\ start_date abc_2020 = Some s1 /\ start_date cv = Some s2
    /\ Z.abs (toordinal s1 - toordinal s2) <= 7.
Proof.
  apply (matched_rows_agree_on_start [abc_2019; abc_2020] [abc_cv]
           (mkComparison abc_2020 (Some abc_cv) true details_matched)).
  - rewrite resume_record_taken_twice_rows. simpl. auto.
  - reflexivity.
Defined.

(* ===================================================================== *)
(** * Records without a usable employer name are never matched *)
(* ===================================================================== *)

Section Nameless.

Lemma all_fail_sound (p : positive) :
  forall base z, all_fail p base = true ->
                 base <= z < base + Zpos p -> date_part_fails z = true.
Proof.
  induction p as [q IH|q IH|]; intros base z; simpl.
  - rewrite !andb_true_iff. intros [[H0 H1] H2] Hz.
    destruct (Z.eq_dec z base) as [->|Hne]; [exact H0|].
    destruct (Z.lt_ge_cases z (base + 1 + Zpos q)).
    + apply (IH (base + 1)); trivial. lia.
    + apply (IH (base + 1 + Zpos q)); trivial. lia.
  - rewrite !andb_true_iff. intros [H1 H2] Hz.
    destruct (Z.lt_ge_cases z (base + Zpos q)).
    + apply (IH base); trivial. lia.
    + apply (IH (base + Zpos q)); trivial. lia.
  - intros H Hz. replace z with base by lia. exact H.
Qed.

(** Every distance two calendar dates can have. *)
Lemma date_part_fails_all (n : Z) :
  1 <= n <= 3652058 -> date_part_fails n = true.
Proof.
  intros H. apply (all_fail_sound 3652058 1); [vm_compute; reflexivity | lia].
Qed.

Lemma toordinal_bounds (a : date) :
  valid_date a = true -> 1 <= toordinal a <= 3652059.
Proof.
  destruct a as [y m dd]. unfold valid_date, toordinal, _ymd2ord. simpl.
  intros V. pose proof (day_of_year_bounds y m dd V) as B.
  apply check_date_fields_spec in V. destruct V as (Hy & _ & _).
  pose proof (days_before_year_le 1 y ltac:(lia)) as L.
  pose proof (days_before_year_succ y) as S.
  pose proof (days_before_year_le (y + 1) 10000 ltac:(lia)) as U.
  change (_days_before_year 1) with 0 in L.
  change (_days_before_year 10000) with 3652059 in U. lia.
Qed.

(** Without a name on one side, the score of a pair is at most the
    threshold. *)
Lemma nameless_score_fails (c cv : ExperienceRecord) :
  valid_opt (start_date c) = true -> valid_opt (start_date cv) = true ->
  _normalize_name (employer c) = [] \/ _normalize_name (employer cv) = [] ->
  PrimFloat.ltb 0.3 (score (_score_pair c cv)) = false.
Proof.
  intros Vc Vv Hn. unfold _score_pair. cbn [score].
  assert (_employer_similarity (employer c) (employer cv) = 0.0%float) as ->.
  { unfold _employer_similarity. destruct Hn as [-> | ->]; [reflexivity|].
    now destruct (_normalize_name (employer c)). }
  unfold _date_difference.
  destruct (start_date c) as [s1|]; [|reflexivity].
  destruct (start_date cv) as [s2|]; [|reflexivity].
  simpl in Vc, Vv. unfold sub_days.
  pose proof (toordinal_bounds s1 Vc). pose proof (toordinal_bounds s2 Vv).
  destruct (Z.leb_spec (Z.abs (toordinal s1 - toordinal s2)) 7) as [L|L];
    [reflexivity|].
  unfold or_60.
  destruct (Z.eqb_spec (Z.abs (toordinal s1 - toordinal s2)) 0) as [E|E]; [lia|].
  pose proof (date_part_fails_all (Z.abs (toordinal s1 - toordinal s2))
                ltac:(lia)) as F.
  unfold date_part_fails in F. now apply negb_true_iff in F.
Qed.

Lemma best_fold_nameless (c : ExperienceRecord) (l : list ExperienceRecord) :
  forall (k : nat) (init : option (MatchScore * nat)) bs bi,
    fold_left (best_step c) (combine (seq k (length l)) l) init = Some (bs, bi) ->
    init = Some (bs, bi)
    \/ exists cv, nth_error l (bi - k) = Some cv /\ (k <= bi)%nat
                  /\ bs = _score_pair c cv.
Proof.
  induction l as [|x l IH]; intros k init bs bi; simpl; [auto|].
  intros H. apply IH in H. destruct H as [H | (cv & Hn & Hk & Hs)].
  - unfold best_step in H. simpl in H.
    destruct init as [[bs0 bi0]|].
    + destruct (PrimFloat.ltb _ _); [|auto].
      inversion H; subst. right. exists x. rewrite Nat.sub_diag. auto.
    + inversion H; subst. right. exists x. rewrite Nat.sub_diag. auto.
  - right. exists cv. replace (bi - k)%nat with (S (bi - S k)) by lia.
    simpl. repeat split; trivial. lia.
Qed.

(** The best pair is the score against the record at the best index. *)
Lemma best_match_at (c : ExperienceRecord) (cv_list : list ExperienceRecord)
    bs bi :
  best_match c cv_list = Some (bs, bi) ->
  exists cv, nth_error cv_list bi = Some cv /\ bs = _score_pair c cv.
Proof.
  unfold best_match, enumerate. intros H.
  apply best_fold_nameless in H. destruct H as [H|(cv & Hn & _ & Hs)];
    [discriminate|].
  rewrite Nat.sub_0_r in Hn. eauto.
Qed.

End Nameless.

(** X11. A certificate whose employer is missing, or normalizes to the
    empty string, is reported unmatched whatever the résumé holds: the date
    part alone reaches at most 0.3, and the threshold is strict. *)
Theorem nameless_certificate_is_unmatched
    (certificates cv_entries : list ExperienceRecord)
    (i : nat) (c : ExperienceRecord) :
  valid_opt (start_date c) = true ->
  Forall (fun cv => valid_opt (start_date cv) = true) cv_entries ->
  nth_error certificates i = Some c ->
  _normalize_name (employer c) = [] ->
  nth_error (compare_certificates_with_cv certificates cv_entries) i
  = Some (mkComparison c None false details_unmatched).
Proof.
  intros Vc Vl Hn He. rewrite compare_rows.
  rewrite nth_error_app1
    by (rewrite length_map; apply nth_error_Some; congruence).
  rewrite nth_error_map, Hn. simpl. f_equal.
  unfold certificate_row, accepted.
  destruct (best_match c cv_entries) as [[bs bi]|] eqn:B; [|reflexivity].
  destruct (best_match_at _ _ _ _ B) as (cv & Hcv & ->).
  rewrite nameless_score_fails; trivial; [|now left].
  rewrite Forall_forall in Vl. apply Vl.
  apply list_elem_of_In. eapply nth_error_In; eauto.
Qed.

Lemma nameless_certificate_is_unmatched_witness :
  nth_error
    (compare_certificates_with_cv
       [new_record [] (Some (lit "...")) (d 2020 1 1) (d 2020 12 31) None]
       [abc_cv]) 0
  = Some (mkComparison
            (new_record [] (Some (lit "...")) (d 2020 1 1) (d 2020 12 31) None)
            None false details_unmatched).
Proof.
  apply (nameless_certificate_is_unmatched
           [new_record [] (Some (lit "...")) (d 2020 1 1) (d 2020 12 31) None]
           [abc_cv] 0).
  - reflexivity.
  - repeat constructor.
  - reflexivity.
  - reflexivity.
Defined.

(** X12. A résumé record whose employer is missing, or normalizes to the
    empty string, is accepted by no certificate and therefore always gets
    its own résumé-only row. *)
Theorem nameless_resume_record_is_resume_only
    (certificates cv_entries : list ExperienceRecord)
    (idx : nat) (cv : ExperienceRecord) :
  Forall (fun c => valid_opt (start_date c) = true) certificates ->
  valid_opt (start_date cv) = true ->
  nth_error cv_entries idx = Some cv ->
  _normalize_name (employer cv) = [] ->
  (idx ∉ consumed cv_entries certificates)
  /\ In (cv_only_row cv) (compare_certificates_with_cv certificates cv_entries).
Proof.
  intros Vl Vv Hn He.
  assert (idx ∉ consumed cv_entries certificates) as Hc.
  { intros Hc. apply consumed_spec in Hc. destruct Hc as (c & bs & Hin & Ha).
    unfold accepted in Ha.
    destruct (best_match c cv_entries) as [[bs0 bi0]|] eqn:B; [|discriminate].
    destruct (best_match_at _ _ _ _ B) as (cv0 & Hcv & ->).
    destruct (PrimFloat.ltb 0.3 (score (_score_pair c cv0))) eqn:L;
      [|discriminate].
    inversion Ha; subst. rewrite Hn in Hcv. inversion Hcv; subst cv0.
    rewrite nameless_score_fails in L; [discriminate | | trivial | now right].
    rewrite Forall_forall in Vl. apply Vl. now apply list_elem_of_In. }
  split; [exact Hc|].
  rewrite compare_rows. apply in_or_app. right. apply in_map.
  unfold unconsumed. apply in_map_iff. exists (idx, cv). split; [reflexivity|].
  apply list_elem_of_In, list_elem_of_filter. split; [exact Hc|].
  apply list_elem_of_In. apply (enumerate_nth cv_entries 0 idx cv Hn).
Qed.

Lemma nameless_resume_record_is_resume_only_witness :
  (0%nat ∉ consumed [new_record [] None (d 2020 1 1) (d 2020 12 31) None]
                    [abc_2020])
  /\ In (cv_only_row (new_record [] None (d 2020 1 1) (d 2020 12 31) None))
        (compare_certificates_with_cv
           [abc_2020] [new_record [] None (d 2020 1 1) (d 2020 12 31) None]).
Proof.
  apply (nameless_resume_record_is_resume_only
           [abc_2020] [new_record [] None (d 2020 1 1) (d 2020 12 31) None] 0).
  - repeat constructor.
  - reflexivity.
  - reflexivity.
  - reflexivity.
Defined.

(* ===================================================================== *)
(** * Sections ([split_into_sections]) *)
(* ===================================================================== *)

Section Sections.

Lemma sections_loop_lines (ls : list str) :
  forall (secs : list ParsedSection) (buf : list str),
    concat (map lines (sections_loop ls secs buf))
    = concat (map lines secs) ++ buf ++ filter (fun l => l <> []) ls.
Proof.
  induction ls as [|l ls IH]; intros secs buf; simpl.
  - rewrite filter_nil. destruct buf as [|b buf].
    + now rewrite app_nil_r.
    + rewrite map_app, concat_app. simpl. now rewrite !app_nil_r.
  - destruct l as [|c l].
    + rewrite filter_cons_False by (intros H; now apply H).
      destruct buf as [|b buf]; rewrite IH; [reflexivity|].
      rewrite map_app, concat_app. simpl. now rewrite app_nil_r, <- app_assoc.
    + rewrite filter_cons_True by discriminate.
      rewrite IH, <- app_assoc. reflexivity.
Qed.

Lemma sections_loop_stored (ls : list str) :
  forall (secs : list ParsedSection) (buf : list str),
    Forall (fun sec => lines sec <> [] /\ Forall stored_line (lines sec)) secs ->
    Forall stored_line buf ->
    Forall (fun l => l <> [] -> stored_line l) ls ->
    Forall (fun sec => lines sec <> [] /\ Forall stored_line (lines sec))
           (sections_loop ls secs buf).
Proof.
  induction ls as [|l ls IH]; intros secs buf Hs Hb Hl; simpl.
  - destruct buf as [|b buf]; [exact Hs|].
    apply Forall_app. split; [exact Hs|].
    constructor; [|constructor]. simpl. split; [discriminate | exact Hb].
  - apply Forall_cons in Hl. destruct Hl as [Hl0 Hl].
    destruct l as [|c l].
    + destruct buf as [|b buf]; apply IH; trivial.
      apply Forall_app. split; [exact Hs|].
      constructor; [|constructor]. simpl. split; [discriminate | exact Hb].
    + apply IH; trivial. apply Forall_app. split; [exact Hb|].
      constructor; [|constructor]. apply Hl0. discriminate.
Qed.

End Sections.

Lemma sections_are_stored (txt : str) :
  Forall (fun sec => lines sec <> []
                     /\ Forall (fun l => l <> [] /\ strip l = l) (lines sec))
         (split_into_sections txt).
Proof.
  unfold split_into_sections. apply sections_loop_stored; try constructor.
  apply Forall_forall. intros l Hl Hne. apply list_elem_of_In, in_map_iff in Hl.
  destruct Hl as (l0 & <- & _). split; [exact Hne | apply strip_by_idem].
Qed.

(** X13. [split_into_sections] loses and invents nothing: the lines of its
    sections, read in order, are exactly the stripped non-blank lines of the
    text; no section is empty, and no stored line is empty or carries
    leading or trailing blanks. *)
Theorem split_into_sections_keeps_lines (txt : str) :
  concat (map lines (split_into_sections txt))
  = filter (fun l => l <> []) (map strip (splitlines txt))
  /\ Forall (fun sec => lines sec <> []
                        /\ Forall (fun l => l <> [] /\ strip l = l) (lines sec))
            (split_into_sections txt).
Proof.
  split.
  - unfold split_into_sections. now rewrite sections_loop_lines.
  - apply sections_are_stored.
Qed.

(* ===================================================================== *)
(** * Records the parser emits ([parse_experiences_from_text]) *)
(* ===================================================================== *)

Section Parsed.

Lemma date_new_valid (y m dd : Z) (r : date) :
  date_new y m dd = Some r -> valid_date r = true.
Proof.
  unfold date_new. destruct (check_date_fields y m dd) eqn:C; [|discriminate].
  intros H. inversion H; subst. exact C.
Qed.

Lemma parse_numeric_valid (t : str) (r : date) :
  _parse_numeric_date t = Some r -> valid_date r = true.
Proof.
  unfold _parse_numeric_date. induction formats as [|fmt fmts IH]; simpl;
    [discriminate|].
  destruct (try_format t fmt) as [r0|] eqn:T; [|exact IH].
  intros H. inversion H; subst. unfold try_format in T.
  destruct (strptime t fmt); [|discriminate]. now apply date_new_valid in T.
Qed.

Lemma from_groups_valid (found : captures) (r : date) :
  from_groups found = Some (Return (Some r)) -> valid_date r = true.
Proof.
  unfold from_groups, date_or_raise. destruct (MONTHS_get _); [|discriminate].
  destruct (date_new _ _ _) as [r0|] eqn:N; intros H; inversion H; subst.
  now apply date_new_valid in N.
Qed.

Lemma parse_spanish_valid (t : str) (r : date) :
  _parse_spanish_date t = Return (Some r) -> valid_date r = true.
Proof.
  unfold _parse_spanish_date.
  assert (match snd <$> re_match spanish_2 t with
          | Some found => default (Return None) (from_groups found)
          | None => Return None
          end = Return (Some r) -> valid_date r = true) as S2.
  { destruct (snd <$> re_match spanish_2 t) as [found|]; [|discriminate].
    destruct (from_groups found) as [o|] eqn:F; simpl; [|discriminate].
    intros ->. now apply from_groups_valid in F. }
  destruct (snd <$> re_match spanish_1 t) as [found|]; [|exact S2].
  destruct (from_groups found) as [o|] eqn:F; simpl; [|exact S2].
  intros ->. now apply from_groups_valid in F.
Qed.

(** The date recognizer returns calendar dates only. *)
Lemma parse_date_valid (t : str) (r : date) :
  _parse_date t = Return (Some r) -> valid_date r = true.
Proof.
  unfold _parse_date. destruct (_parse_numeric_date (strip t)) as [r0|] eqn:N.
  - intros H. inversion H; subst. now apply parse_numeric_valid in N.
  - apply parse_spanish_valid.
Qed.

Lemma first_matching_valid (section_text lowered : str) (keywords : list str)
    (pos : position) (ms : list (nat * nat * captures)) (r : date) :
  first_matching section_text lowered keywords pos ms = Return (Some r) ->
  valid_date r = true.
Proof.
  induction ms as [|[[a b] found] ms IH]; simpl; [discriminate|].
  destruct (_ || _); [|exact IH].
  destruct (_parse_date (default [] (group found "date"))) as [[r0|]|] eqn:P;
    simpl; [| exact IH | discriminate].
  intros H. inversion H; subst. now apply parse_date_valid in P.
Qed.

Lemma find_first_valid (section_text : str) (keywords : list str)
    (pos : position) (o : option date) :
  _find_first_matching_date section_text keywords pos = Return o ->
  valid_opt o = true.
Proof.
  destruct o as [r|]; [|reflexivity]. apply first_matching_valid.
Qed.

Lemma extract_issue_valid (section : ParsedSection) (o : option date) :
  _extract_issue_date section = Return o -> valid_opt o = true.
Proof.
  destruct o as [r|]; [|reflexivity]. unfold _extract_issue_date.
  destruct (last _) as [[[a b] found]|]; [|discriminate].
  apply parse_date_valid.
Qed.

Lemma max_by_len_In (l : list str) :
  forall best, In (max_by_len best l) (best :: l).
Proof.
  induction l as [|x l IH]; intros best; simpl; [now left|].
  destruct (IH (if (length best <? length x)%nat then x else best)) as [H|H].
  - destruct (_ <? _)%nat; rewrite <- H; auto.
  - auto.
Qed.

Lemma hinted_employer_nonempty (ls : list str) (e : str) :
  hinted_employer ls = Some e -> e <> [].
Proof.
  induction ls as [|l ls IH]; cbn [hinted_employer]; [discriminate|].
  destruct (existsb _ EMPLOYER_HINTS); [|exact IH].
  destruct (strip_chars _ _) as [|c t]; [exact IH|].
  intros H. inversion H. discriminate.
Qed.

(** [_extract_employer] never returns an empty name, and returns a name
    whenever the section has a line that is not blank. *)
Lemma extract_employer_cases (section : ParsedSection) :
  (forall e, _extract_employer section = Some e -> e <> [])
  /\ (Exists (fun l => strip l <> []) (lines section) ->
      _extract_employer section <> None).
Proof.
  unfold _extract_employer.
  destruct (hinted_employer (lines section)) as [e0|] eqn:Hh.
  - split; [|discriminate]. intros e H. inversion H; subst.
    now apply hinted_employer_nonempty in Hh.
  - destruct (filter _ (lines section)) as [|c cs] eqn:F.
    + split; [discriminate|]. intros Hex. exfalso.
      apply Exists_exists in Hex. destruct Hex as (l & Hl & Hne).
      apply (filter_nil_not_elem_of _ _ l F); [|exact Hl].
      destruct (strip l); [now apply Hne | exact I].
    + assert (strip (max_by_len c cs) <> []) as Hs.
      { pose proof (max_by_len_In cs c) as Hin. rewrite <- F in Hin.
        apply list_elem_of_In, list_elem_of_filter in Hin.
        destruct Hin as [Hn _]. destruct (strip (max_by_len c cs));
          [destruct Hn | discriminate]. }
      assert (nonempty (max_by_len c cs) = true) as ->.
      { destruct (max_by_len c cs); [now destruct Hs | reflexivity]. }
      split; [|discriminate]. intros e H. inversion H; subst. exact Hs.
Qed.

Lemma new_record_as_constructed (src : str) (emp : option str)
    (s e i : option date) :
  valid_opt s = true -> valid_opt e = true -> valid_opt i = true ->
  as_constructed (new_record src emp s e i).
Proof. intros Vs Ve Vi. repeat split; assumption. Qed.

Lemma section_step_parsed (source_ : str) (section : ParsedSection)
    (acc acc' : list ExperienceRecord) :
  Exists (fun l => strip l <> []) (lines section) ->
  section_step source_ section acc = Return acc' ->
  Forall (parsed_record source_) acc ->
  Forall (parsed_record source_) acc' /\ (length acc' <= S (length acc))%nat.
Proof.
  intros Hex. unfold section_step.
  destruct (_find_first_matching_date (text section) KEYWORDS_start before)
    as [s|] eqn:Fs; [|discriminate].
  destruct (_find_first_matching_date (text section) KEYWORDS_end before)
    as [e|] eqn:Fe; [|discriminate].
  destruct (_find_first_matching_date (text section) KEYWORDS_issue before)
    as [i|] eqn:Fi; [|discriminate].
  apply find_first_valid in Fs, Fe, Fi. simpl.
  assert (forall i' : option date,
            valid_opt i' = true ->
            (if negb (existsb is_Some_b [s; e; i'])
             then Return acc
             else Return (acc ++ [new_record source_ (_extract_employer section)
                                             s e i']))
            = Return acc' ->
            Forall (parsed_record source_) acc ->
            Forall (parsed_record source_) acc'
            /\ (length acc' <= S (length acc))%nat) as K.
  { intros i' Vi' H Hacc.
    destruct (existsb is_Some_b [s; e; i']) eqn:X; simpl in H;
      inversion H; subst; [|split; [exact Hacc | lia]].
    split; [|rewrite length_app; simpl; lia].
    apply Forall_app. split; [exact Hacc|]. constructor; [|constructor].
    destruct (extract_employer_cases section) as [Hne Hsome].
    specialize (Hsome Hex).
    destruct (_extract_employer section) as [emp|] eqn:E; [|congruence].
    repeat split; trivial.
    - exists emp. split; [reflexivity | now apply Hne].
    - simpl in X. destruct s, e, i'; simpl in X; try discriminate;
        simpl; intuition discriminate. }
  destruct i as [i|].
  - apply K. exact Fi.
  - destruct (_extract_issue_date section) as [i'|] eqn:Ei; [|discriminate].
    apply K. now apply extract_issue_valid in Ei.
Qed.

Lemma sections_fold_parsed (source_ : str) (sections : list ParsedSection) :
  forall acc acc' : list ExperienceRecord,
    Forall (fun sec => Exists (fun l => strip l <> []) (lines sec)) sections ->
    sections_fold source_ sections acc = Return acc' ->
    Forall (parsed_record source_) acc ->
    Forall (parsed_record source_) acc'
    /\ (length acc' <= length acc + length sections)%nat.
Proof.
  induction sections as [|sec secs IH]; intros acc acc' Hs; simpl.
  - intros H Hacc. inversion H; subst. split; [exact Hacc | lia].
  - apply Forall_cons in Hs. destruct Hs as [Hsec Hs].
    destruct (section_step source_ sec acc) as [acc1|] eqn:St; [|discriminate].
    simpl. intros H Hacc.
    destruct (section_step_parsed _ _ _ _ Hsec St Hacc) as [H1 L1].
    destruct (IH acc1 acc' Hs H H1) as [H2 L2]. split; [exact H2 | lia].
Qed.

(** ** A text without any non-blank line *)

Lemma linebreak_is_space (c : ascii) : is_linebreak c = true -> isspace c = true.
Proof.
  destruct c as [[] [] [] [] [] [] [] []]; vm_compute; intros H;
    try reflexivity; discriminate.
Qed.

Lemma lstrip_by_nil (p : ascii -> bool) (l : str) :
  lstrip_by p l = [] -> Forall (fun c => p c = true) l.
Proof.
  induction l as [|x l IH]; simpl; [constructor|].
  destruct (p x) eqn:E; [|discriminate]. intros H. constructor; auto.
Qed.

Lemma lstrip_by_Forall (p : ascii -> bool) (l : str) :
  Forall (fun c => p c = true) (lstrip_by p l) -> Forall (fun c => p c = true) l.
Proof.
  induction l as [|x l IH]; simpl; [constructor|].
  destruct (p x) eqn:E; [|trivial]. intros H. constructor; auto.
Qed.

Lemma strip_by_nil (p : ascii -> bool) (l : str) :
  strip_by p l = [] -> Forall (fun c => p c = true) l.
Proof.
  unfold strip_by, rstrip_by. intros H.
  apply (f_equal (@rev ascii)) in H. rewrite rev_involutive in H. simpl in H.
  apply lstrip_by_nil in H. apply lstrip_by_Forall.
  apply Forall_forall. intros c Hc. rewrite Forall_forall in H. apply H.
  apply list_elem_of_In. apply -> in_rev. now apply list_elem_of_In.
Qed.

Lemma splitlines_from_Forall (P : ascii -> Prop) (s : str) :
  (forall c, is_linebreak c = true -> P c) ->
  forall (cur : str) (after_cr : bool),
    Forall (Forall P) (splitlines_from cur after_cr s) ->
    (after_cr = true -> cur = []) ->
    Forall P (cur ++ s).
Proof.
  intros Hb. induction s as [|c s IH]; intros cur after_cr H Hc; simpl in H.
  - rewrite app_nil_r. destruct cur as [|x cur]; [constructor|].
    now apply Forall_cons in H.
  - destruct (after_cr && (ord c =? 10)%N) eqn:E.
    + apply andb_true_iff in E. destruct E as [-> E]. rewrite (Hc eq_refl).
      simpl. constructor.
      * apply Hb. revert E. clear.
        destruct c as [[] [] [] [] [] [] [] []]; vm_compute; congruence.
      * apply (IH [] false H). discriminate.
    + destruct (is_linebreak c) eqn:L.
      * apply Forall_cons in H. destruct H as [H1 H2].
        apply Forall_app. split; [exact H1|]. constructor; [now apply Hb|].
        apply (IH [] _ H2). reflexivity.
      * replace (cur ++ c :: s) with ((cur ++ [c]) ++ s)
          by (rewrite <- app_assoc; reflexivity).
        apply (IH _ false H). discriminate.
Qed.

(** No section means no character other than blanks. *)
Lemma no_section_blank (txt : str) :
  split_into_sections txt = [] -> Forall (fun c => isspace c = true) txt.
Proof.
  intros H. pose proof (sections_loop_lines (map strip (splitlines txt)) [] []) as L.
  fold (split_into_sections txt) in L. rewrite H in L. simpl in L.
  symmetry in L.
  apply (splitlines_from_Forall _ txt linebreak_is_space [] false);
    [|discriminate].
  apply Forall_forall. intros l Hl. apply strip_by_nil.
  destruct (strip_by isspace l) as [|c t] eqn:S; [reflexivity|]. exfalso.
  apply (filter_nil_not_elem_of _ _ (c :: t) L); [discriminate|].
  apply list_elem_of_In, in_map_iff. exists l. split; [exact S|].
  now apply list_elem_of_In.
Qed.

Lemma date_pattern_blank (c : ascii) (s : str) :
  isspace c = true -> re_match DATE_PATTERN (c :: s) = None.
Proof.
  destruct c as [[] [] [] [] [] [] [] []]; intros H;
    first [ vm_compute in H; discriminate H | clear H; vm_compute; reflexivity ].
Qed.

Lemma finditer_blank (s : str) :
  forall pos, Forall (fun c => isspace c = true) s ->
              finditer_from DATE_PATTERN pos 0 s = [].
Proof.
  induction s as [|c s IH]; intros pos H; [reflexivity|].
  apply Forall_cons in H. destruct H as [Hc H].
  cbn [finditer_from]. rewrite (date_pattern_blank c s Hc). now apply IH.
Qed.

Lemma blank_text_no_record (txt source_ : str) :
  Forall (fun c => isspace c = true) txt ->
  section_step source_ (mkSection [txt]) [] = Return [].
Proof.
  intros H. unfold section_step, _find_first_matching_date, _extract_issue_date.
  change (text (mkSection [txt])) with txt.
  unfold finditer. rewrite (finditer_blank txt 0%nat H). reflexivity.
Qed.

End Parsed.

(** What [parse_experiences_from_text] returns, record by record. *)
Lemma parsed_records_parsed
    (txt source_ : str) (records : list ExperienceRecord) :
  parse_experiences_from_text txt source_ = Return records ->
  Forall (parsed_record source_) records
  /\ (length records <= length (split_into_sections txt))%nat.
Proof.
  unfold parse_experiences_from_text.
  destruct (split_into_sections txt) as [|sec secs] eqn:S.
  - simpl. rewrite (blank_text_no_record txt source_ (no_section_blank txt S)).
    simpl. intros H. inversion H; subst. split; [constructor | simpl; lia].
  - intros H.
    apply (sections_fold_parsed source_ (sec :: secs) [] records); trivial.
    rewrite <- S.
    pose proof (sections_are_stored txt) as G.
    apply Forall_forall. intros x Hx. rewrite Forall_forall in G.
    destruct (G x Hx) as [Hne Hl].
    destruct (lines x) as [|l ls]; [now destruct Hne|].
    apply Exists_cons_hd. apply Forall_cons in Hl. destruct Hl as [[Hl1 Hl2] _].
    now rewrite Hl2.
Qed.

(** X14. Whatever the text, every record [parse_experiences_from_text]
    returns carries the caller's source label, a non-empty employer name
    (never null), at least one of the three dates, calendar dates only, and
    derived fields in step with them; and there is at most one record per
    section. *)
Theorem parsed_records_are_well_formed
    (txt source_ : str) (records : list ExperienceRecord) :
  parse_experiences_from_text txt source_ = Return records ->
  Forall (parsed_record source_) records
  /\ (length records <= length (split_into_sections txt))%nat.
Proof. apply parsed_records_parsed. Qed.

Lemma parsed_records_are_well_formed_witness :
  Forall (parsed_record (lit "Hoja de vida: hv.pdf"))
    [ mkRecord (lit "Hoja de vida: hv.pdf") (Some (lit "XYZ S.A."))
        (d 2020 1 3) (d 2021 7 15) (d 2021 7 15) (d 2021 7 15) (Some 560) ]
  /\ (length [ mkRecord (lit "Hoja de vida: hv.pdf") (Some (lit "XYZ S.A."))
                 (d 2020 1 3)%Z (d 2021 7 15)%Z (d 2021 7 15)%Z (d 2021 7 15)%Z
                 (Some 560%Z) ]
      <= length (split_into_sections CV_TEXT))%nat.
Proof.
  apply (parsed_records_are_well_formed CV_TEXT (lit "Hoja de vida: hv.pdf")).
  vm_compute. reflexivity.
Defined.

(* ===================================================================== *)
(** * The employer of a section ([_extract_employer]) *)
(* ===================================================================== *)

Section Employer.

Lemma lower_char_blank (c : ascii) :
  isspace c = true -> isspace (lower_char c) = true.
Proof.
  destruct c as [[] [] [] [] [] [] [] []]; vm_compute; intros H;
    try reflexivity; discriminate.
Qed.

Lemma startswith_head (x : ascii) (p s : str) (y : ascii) :
  startswith (x :: p) (y :: s) = true -> x = y.
Proof.
  simpl. intros H. apply andb_true_iff in H. destruct H as [H _].
  now apply Ascii.eqb_eq in H.
Qed.

Lemma contains_blank (x : ascii) (p s : str) :
  isspace x = false -> Forall (fun c => isspace c = true) s ->
  contains (x :: p) s = false.
Proof.
  intros Hx. induction s as [|y s IH]; intros H; [reflexivity|].
  apply Forall_cons in H. destruct H as [Hy H].
  cbn [contains]. rewrite (IH H), orb_false_r.
  destruct (startswith (x :: p) (y :: s)) eqn:E; [|reflexivity].
  apply startswith_head in E. congruence.
Qed.

Lemma hints_blank (l : str) :
  Forall (fun c => isspace c = true) l ->
  existsb (fun hint => contains hint (lower l)) EMPLOYER_HINTS = false.
Proof.
  intros H. assert (Forall (fun c => isspace c = true) (lower l)) as Hl.
  { unfold lower. apply Forall_forall. intros c Hc.
    apply list_elem_of_In, in_map_iff in Hc. destruct Hc as (c0 & <- & Hc0).
    apply lower_char_blank. rewrite Forall_forall in H. apply H.
    now apply list_elem_of_In. }
  apply not_true_is_false. intros E. apply existsb_exists in E.
  destruct E as (hint & Hin & Hc).
  assert (exists x p, hint = x :: p /\ isspace x = false) as (x & p & -> & Hx).
  { revert Hin. clear. unfold EMPLOYER_HINTS. intros Hin.
    apply in_map_iff in Hin. destruct Hin as (w & <- & Hw).
    simpl in Hw.
    repeat (destruct Hw as [<-|Hw];
            [eexists; eexists; split; [vm_compute; reflexivity | reflexivity]|]).
    destruct Hw. }
  rewrite (contains_blank x p _ Hx Hl) in Hc. discriminate.
Qed.

Lemma hinted_employer_blank (ls : list str) :
  Forall (fun l => strip l = []) ls -> hinted_employer ls = None.
Proof.
  induction ls as [|l ls IH]; intros H; [reflexivity|].
  apply Forall_cons in H. destruct H as [Hl H].
  cbn [hinted_employer]. rewrite (hints_blank l (strip_by_nil _ _ Hl)).
  now apply IH.
Qed.

End Employer.

(** X15. [_extract_employer] has no name to give exactly when every line of
    the section is blank; and a name it gives is never the empty string. *)
Theorem extract_employer_null_iff_blank (section : ParsedSection) :
  (_extract_employer section = None
   <-> Forall (fun l => strip l = []) (lines section))
  /\ (forall e, _extract_employer section = Some e -> e <> []).
Proof.
  destruct (extract_employer_cases section) as [Hne Hsome].
  split; [split|exact Hne].
  - intros HN. apply Forall_forall. intros l Hl.
    destruct (strip l) as [|c t] eqn:S; [reflexivity|]. exfalso.
    apply Hsome; [|exact HN]. apply Exists_exists. exists l.
    split; [exact Hl | rewrite S; discriminate].
  - intros Hb. unfold _extract_employer.
    rewrite (hinted_employer_blank _ Hb).
    replace (filter (fun line => nonempty (strip line)) (lines section))
      with (@nil str); [reflexivity|].
    symmetry. apply filter_none. intros l Hl.
    rewrite Forall_forall in Hb. rewrite (Hb l Hl). simpl. tauto.
Qed.

(* ===================================================================== *)
(** * What [merge_overlapping_records] preserves and what it returns *)
(* ===================================================================== *)

Section MergeInvariant.

(** A property of the store that every absorption between two of the
    caller's records preserves holds after the call. *)
Variable S : ref -> Prop.
Variable Q : store -> Prop.
Hypothesis absorb_Q :
  forall (h : store) (a b : ref),
    S a -> S b -> overlaps h a b = true -> Q h -> Q (absorb h a b).

Lemma merge_run_invariant (rest : list ref) :
  forall (h : store) (current : ref) (merged : list ref),
    S current -> (forall x, In x rest -> S x) -> Q h ->
    Q (fst (merge_run h current rest merged)).
Proof.
  induction rest as [|n rest IH]; intros h current merged Sc Sr Qh; simpl;
    [exact Qh|].
  destruct (overlaps h current n) eqn:O.
  - apply IH; trivial.
    + intros x Hx. apply Sr. now right.
    + apply absorb_Q; trivial. apply Sr. now left.
  - apply IH; trivial.
    + apply Sr. now left.
    + intros x Hx. apply Sr. now right.
Qed.

Lemma merge_group_invariant (h : store) (merged items : list ref) :
  (forall x, In x items -> S x) -> Q h ->
  Q (fst (merge_group (h, merged) items)).
Proof.
  intros Si Qh. unfold merge_group. simpl.
  destruct (sorted_by_start h items) as [|current rest] eqn:E; [exact Qh|].
  assert (forall x, In x (current :: rest) -> S x) as Hs.
  { intros x Hx. apply Si. apply (sorted_by_start_In h items x).
    now rewrite E. }
  apply merge_run_invariant; trivial.
  - apply Hs. now left.
  - intros x Hx. apply Hs. now right.
Qed.

Lemma merge_groups_invariant (groups : list (list ref)) :
  forall (h : store) (merged : list ref),
    (forall x, In x (concat groups) -> S x) -> Q h ->
    Q (fst (fold_left merge_group groups (h, merged))).
Proof.
  induction groups as [|items groups IH]; intros h merged Sg Qh; simpl;
    [exact Qh|].
  pose proof (merge_group_invariant h merged items) as G.
  destruct (merge_group (h, merged) items) as [h1 m1]. apply IH.
  - intros x Hx. apply Sg. simpl. apply in_or_app. now right.
  - apply G; trivial. intros x Hx. apply Sg. simpl. apply in_or_app. now left.
Qed.

End MergeInvariant.

Lemma merge_invariant (Q : store -> Prop) (h : store) (records : list ref) :
  (forall (h1 : store) (a b : ref),
     In a records -> In b records -> overlaps h1 a b = true ->
     Q h1 -> Q (absorb h1 a b)) ->
  Q h -> Q (fst (merge_overlapping_records h records)).
Proof.
  intros HA Qh. unfold merge_overlapping_records.
  apply (merge_groups_invariant (fun x => In x records) Q HA); trivial.
  intros x. apply groups_within_records.
Qed.

Lemma or_else_valid (x y : option date) :
  valid_opt x = true -> valid_opt y = true -> valid_opt (or_else x y) = true.
Proof. destruct x; trivial. Qed.

Lemma absorb_as_constructed (h : store) (a b x : ref) :
  as_constructed (h a) -> as_constructed (h b) -> as_constructed (h x) ->
  as_constructed (absorb h a b x).
Proof.
  intros Ca Cb Cx. destruct (Nat.eq_dec x a) as [->|Hne].
  - unfold absorb. destruct (extends h a b); [|exact Ca].
    cbv zeta. rewrite !update_same.
    destruct Ca as (_ & Vs & Ve & Vi). destruct Cb as (_ & _ & Ve' & Vi').
    split; [reflexivity|]. simpl. split; [exact Vs|].
    split; apply or_else_valid; trivial;
      unfold update; destruct (_ =? _)%nat; simpl; trivial.
  - now rewrite absorb_other.
Qed.

(** X16. The merger leaves no stale derived field: if every record given
    holds calendar dates and the derived fields its constructor computes,
    so does every one of them after the call, absorbed into or not. *)
Theorem merge_keeps_derived_fields (h : store) (records : list ref) :
  Forall (fun x => as_constructed (h x)) records ->
  Forall (fun x => as_constructed (fst (merge_overlapping_records h records) x))
         records.
Proof.
  apply (merge_invariant
           (fun h1 => Forall (fun x => as_constructed (h1 x)) records)).
  intros h1 a b Ha Hb _ H. rewrite Forall_forall in H.
  apply Forall_forall. intros x Hx.
  apply absorb_as_constructed; apply H; trivial; now apply list_elem_of_In.
Qed.

Lemma merge_keeps_derived_fields_witness :
  Forall (fun x => as_constructed
                     (fst (merge_overlapping_records
                             (store_of [abc_ended; abc_issued]) [0; 1]%nat) x))
         [0; 1]%nat.
Proof.
  apply (merge_keeps_derived_fields (store_of [abc_ended; abc_issued]) [0; 1]%nat).
  repeat constructor.
Defined.

Section Undated.

Lemma overlaps_started (h : store) (a b : ref) :
  overlaps h a b = true ->
  start_date (h a) <> None /\ start_date (h b) <> None.
Proof.
  unfold overlaps. destruct (start_date (h a)); [|discriminate].
  destruct (start_date (h b)); [|discriminate]. split; discriminate.
Qed.

Lemma absorb_start (h : store) (a b x : ref) :
  start_date (absorb h a b x) = start_date (h x).
Proof. now destruct (absorb_identity h a b x) as (_ & _ & ->). Qed.

(** A run appends every record it does not absorb; one without start date
    is never absorbed. *)
Lemma merge_run_keeps (x : ref) (rest : list ref) :
  forall (h : store) (current : ref) (merged : list ref),
    start_date (h x) = None ->
    In x (merged ++ current :: rest) ->
    In x (snd (merge_run h current rest merged)).
Proof.
  induction rest as [|n rest IH]; intros h current merged Hx Hin; simpl;
    [exact Hin|].
  destruct (overlaps h current n) eqn:O.
  - apply IH; [now rewrite absorb_start|].
    apply overlaps_started in O. destruct O as [_ On].
    apply in_app_or in Hin. apply in_or_app.
    destruct Hin as [Hin|[<-|[<-|Hin]]]; auto.
    + right. now left.
    + congruence.
    + right. now right.
  - apply IH; trivial. rewrite <- app_assoc. exact Hin.
Qed.

Lemma merge_group_keeps (x : ref) (h : store) (merged items : list ref) :
  start_date (h x) = None ->
  In x (merged ++ items) ->
  In x (snd (merge_group (h, merged) items)).
Proof.
  intros Hx Hin. unfold merge_group. simpl.
  destruct (sorted_by_start h items) as [|current rest] eqn:E.
  - simpl. apply in_app_or in Hin. destruct Hin as [Hin|Hin]; trivial.
    apply (sorted_by_start_In h items x) in Hin. rewrite E in Hin.
    destruct Hin.
  - apply merge_run_keeps; trivial.
    apply in_app_or in Hin. apply in_or_app.
    destruct Hin as [Hin|Hin]; [now left | right].
    rewrite <- E. now apply (sorted_by_start_In h items x).
Qed.

Lemma merge_groups_keeps (x : ref) (groups : list (list ref)) :
  forall (h : store) (merged : list ref),
    start_date (h x) = None ->
    In x (merged ++ concat groups) ->
    In x (snd (fold_left merge_group groups (h, merged))).
Proof.
  induction groups as [|items groups IH]; intros h merged Hx Hin; simpl.
  - now rewrite app_nil_r in Hin.
  - pose proof (merge_group_keeps x h merged items Hx) as G.
    destruct (merge_group_frame h merged items) as (Hid & tail & E & _).
    destruct (merge_group (h, merged) items) as [h1 m1]. simpl in *.
    apply IH.
    + destruct (Hid x) as (_ & _ & ->). exact Hx.
    + apply in_app_or in Hin. apply in_or_app.
      destruct Hin as [Hin|Hin].
      * left. apply G. apply in_or_app. now left.
      * apply in_app_or in Hin. destruct Hin as [Hin|Hin]; [|now right].
        left. apply G. apply in_or_app. now right.
Qed.

Lemma groups_cover_records (h : store) (records : list ref) (x : ref) :
  In x records -> In x (concat (map snd (group_records h records))).
Proof.
  intros Hx. rewrite group_records_spec. unfold groups_by_key.
  rewrite map_map. simpl. apply in_concat.
  exists (filter (fun r => employer_key h r = employer_key h x) records).
  split.
  - apply in_map_iff. exists (employer_key h x). split; [reflexivity|].
    apply list_elem_of_In, distinct_elem, list_elem_of_In, in_map. exact Hx.
  - apply list_elem_of_In, list_elem_of_filter. split; [reflexivity|].
    now apply list_elem_of_In.
Qed.

End Undated.

(** X17. A record without [start_date] takes no part in any merge: it is
    always among the returned records, and the call leaves it exactly as it
    was. *)
Theorem undated_record_is_returned_unchanged
    (h : store) (records : list ref) (x : ref) :
  In x records -> start_date (h x) = None ->
  In x (snd (merge_overlapping_records h records))
  /\ fst (merge_overlapping_records h records) x = h x.
Proof.
  intros Hin Hx. split.
  - unfold merge_overlapping_records. apply merge_groups_keeps; trivial.
    simpl. now apply groups_cover_records.
  - apply (merge_invariant (fun h1 => h1 x = h x)); trivial.
    intros h1 a b _ _ O E. rewrite absorb_other; trivial.
    intros ->. apply overlaps_started in O. destruct O as [Oa _].
    apply Oa. now rewrite E.
Qed.

Lemma undated_record_is_returned_unchanged_witness :
  In 1%nat (snd (merge_overlapping_records
                   (store_of [year1_ended; undated_start; year2_ended])
                   [0; 1; 2]%nat))
  /\ fst (merge_overlapping_records
            (store_of [year1_ended; undated_start; year2_ended])
            [0; 1; 2]%nat) 1%nat
     = store_of [year1_ended; undated_start; year2_ended] 1%nat.
Proof.
  apply (undated_record_is_returned_unchanged
           (store_of [year1_ended; undated_start; year2_ended])
           [0; 1; 2]%nat 1%nat).
  - simpl. auto.
  - reflexivity.
Defined.

Section Runs.












End Runs.


Section Neighbours.

Context {A : Type}.
Variables R R' : A -> A -> Prop.

Lemma neighbours_snoc (l : list A) (c n : A) :
  neighbours R (l ++ [c]) -> R c n -> neighbours R ((l ++ [c]) ++ [n]).
Proof.
  induction l as [|a l IH]; simpl.
  - intros _ H. split; trivial.
  - destruct l as [|b l]; simpl in *.
    + intros [H _] Hn. repeat split; trivial.
    + intros [H1 H2] Hn. split; [exact H1 | now apply IH].
Qed.

Lemma neighbours_last (l : list A) (c : A) :
  neighbours R l -> (forall a, In a l -> R a c) -> neighbours R (l ++ [c]).
Proof.
  induction l as [|a l IH]; simpl; trivial.
  destruct l as [|b l]; simpl in *.
  - intros _ H. split; auto.
  - intros [H1 H2] H. split; [exact H1|]. apply IH; auto.
Qed.

Lemma neighbours_init (l : list A) (c : A) :
  (forall a b, In a l -> R a b -> R' a b) ->
  neighbours R (l ++ [c]) -> neighbours R' (l ++ [c]).
Proof.
  induction l as [|a l IH]; simpl; trivial.
  intros H. destruct l as [|b l]; simpl in *.
  - intros [H1 _]. split; auto.
  - intros [H1 H2]. split; [auto|]. apply IH; auto.
Qed.

Lemma neighbours_at (l1 l2 : list A) (a b : A) :
  neighbours R (l1 ++ a :: b :: l2) -> R a b.
Proof.
  induction l1 as [|x l1 IH]; simpl.
  - now intros [H _].
  - destruct l1 as [|y l1]; simpl in *; intros [_ H]; apply IH; exact H.
Qed.

End Neighbours.

Section Apart.

Variable key : ref -> str.

Lemma overlaps_absorb (h : store) (c n a b : ref) :
  a <> c -> overlaps (absorb h c n) a b = overlaps h a b.
Proof.
  intros Hne. unfold overlaps.
  now rewrite (absorb_other h c n a Hne), absorb_start.
Qed.

(** Within a run over distinct records, none of them returned before:
    neighbours that were apart stay apart, and a record is appended only
    next to one it is apart from. *)
Lemma merge_run_apart (rest : list ref) :
  forall (h : store) (current : ref) (merged : list ref),
    List.NoDup (current :: rest) ->
    (forall x, In x merged -> ~ In x (current :: rest)) ->
    neighbours (apart key h) (merged ++ [current]) ->
    neighbours (apart key (fst (merge_run h current rest merged)))
               (snd (merge_run h current rest merged)).
Proof.
  induction rest as [|n rest IH]; intros h current merged Hnd Hdis Hn; simpl;
    [exact Hn|].
  destruct (overlaps h current n) eqn:O.
  - apply IH.
    + inversion Hnd as [|? ? Hc Hr]; subst. inversion Hr; subst.
      constructor; [|assumption]. intros Hin. apply Hc. now right.
    + intros x Hx Hin. apply (Hdis x Hx).
      destruct Hin as [->|Hin]; [now left | right; now right].
    + apply (neighbours_init (apart key h)); [|exact Hn].
      intros a b Ha Hab K. rewrite overlaps_absorb; [now apply Hab|].
      intros ->. apply (Hdis current Ha). now left.
  - apply IH.
    + now inversion Hnd.
    + intros x Hx Hin. apply in_app_or in Hx. destruct Hx as [Hx|[<-|[]]].
      * apply (Hdis x Hx). now right.
      * now inversion Hnd.
    + apply neighbours_snoc; [exact Hn|]. intros _. exact O.
Qed.

End Apart.

Lemma merge_groups_apart (h0 : store) (records : list ref) (keys : list str) :
  List.NoDup records -> NoDup keys ->
  forall (h : store) (merged : list ref),
    (forall x, In x merged -> employer_key h0 x ∉ keys) ->
    neighbours (apart (employer_key h0) h) merged ->
    neighbours
      (apart (employer_key h0)
         (fst (fold_left merge_group
                 (map (fun k => filter (fun r => employer_key h0 r = k) records) keys)
                 (h, merged))))
      (snd (fold_left merge_group
              (map (fun k => filter (fun r => employer_key h0 r = k) records) keys)
              (h, merged))).
Proof.
  intros Hrec. induction keys as [|k keys IH]; intros Hk h merged Hm Hn;
    [exact Hn|].
  apply NoDup_cons in Hk. destruct Hk as [Hk Hks]. simpl.
  set (items := filter (fun r => employer_key h0 r = k) records).
  assert (forall x, In x items -> employer_key h0 x = k) as Hi.
  { intros x Hx. apply list_elem_of_In, list_elem_of_filter in Hx. tauto. }
  assert (forall x, In x merged -> employer_key h0 x <> k) as Hmk.
  { intros x Hx E. apply (Hm x Hx). rewrite E. now left. }
  assert (neighbours (apart (employer_key h0) (fst (merge_group (h, merged) items)))
                     (snd (merge_group (h, merged) items))
          /\ forall x, In x (snd (merge_group (h, merged) items)) ->
                       employer_key h0 x ∉ keys) as [N1 M1].
  { unfold merge_group. simpl.
    destruct (sorted_by_start h items) as [|c rest] eqn:E.
    - split; [exact Hn|]. intros x Hx Hin. apply (Hm x Hx). now right.
    - assert (forall x, In x (c :: rest) -> employer_key h0 x = k) as Hcr.
      { intros x Hx. apply Hi. apply (sorted_by_start_In h items x).
        now rewrite E. }
      split.
      + apply merge_run_apart.
        * rewrite <- E. apply sorted_by_start_NoDup.
          apply NoDup_ListNoDup, NoDup_filter. now apply NoDup_ListNoDup.
        * intros x Hx Hin. apply (Hmk x Hx). now apply Hcr.
        * apply neighbours_last; [exact Hn|]. intros a Ha K. exfalso.
          apply (Hmk a Ha). rewrite K. apply Hcr. now left.
      + destruct (merge_run_frame rest h c merged) as (_ & tail & Et & Hin & _).
        rewrite Et. intros x Hx. apply in_app_or in Hx.
        destruct Hx as [Hx|Hx].
        * intros Hc. apply (Hm x Hx). now right.
        * rewrite Hcr; [exact Hk|].
          destruct Hx as [->|Hx]; [now left | right; now apply Hin]. }
  destruct (merge_group (h, merged) items) as [h1 m1]. now apply IH.
Qed.

(** X19. After merging records that are distinct objects, two records
    returned next to each other under one employer key do not overlap: on
    the values the call leaves, the merger's own test on the pair fails. *)
Theorem returned_neighbours_do_not_overlap
    (h : store) (records l1 l2 : list ref) (a b : ref) :
  List.NoDup records ->
  snd (merge_overlapping_records h records) = l1 ++ a :: b :: l2 ->
  merge_key (h a) = merge_key (h b) ->
  overlaps (fst (merge_overlapping_records h records)) a b = false.
Proof.
  intros Hnd E K.
  pose proof (merge_groups_apart h records
                (distinct (map (employer_key h) records)) Hnd
                (distinct_NoDup _) h []) as N.
  unfold merge_overlapping_records in *. rewrite group_records_spec in *.
  unfold groups_by_key in *. rewrite map_map in *. simpl in *.
  rewrite E in N. apply (neighbours_at _ l1 l2 a b) in N; [now apply N | |]; easy.
Qed.

Lemma returned_neighbours_do_not_overlap_witness :
  overlaps (fst (merge_overlapping_records (store_of [abc_ended; abc_2022])
                                           [0; 1]%nat)) 0%nat 1%nat = false.
Proof.
  apply (returned_neighbours_do_not_overlap
           (store_of [abc_ended; abc_2022]) [0; 1]%nat [] [] 0%nat 1%nat).
  - repeat constructor; simpl; intuition discriminate.
  - vm_compute. reflexivity.
  - reflexivity.
Defined.

(* ===================================================================== *)
(** * The table ([report.py]) *)
(* ===================================================================== *)

Section Table.

Lemma comprehension_spec {A B} (f : A -> raising B) (l : list A) :
  match comprehension f l with
  | Returns ys => Forall2 (fun x y => f x = Returns y) l ys
  | TypeError => Exists (fun x => f x = TypeError) l
  | IndexError => Exists (fun x => f x = IndexError) l
  end.
Proof.
  induction l as [|x l IH]; simpl; [constructor|].
  destruct (f x) eqn:E; simpl; [|now left..].
  destruct (comprehension f l); simpl; [now constructor | now right..].
Qed.

Lemma comprehension_returns {A B} (f : A -> raising B) (l : list A) :
  Forall (fun x => exists y, f x = Returns y) l ->
  exists ys, comprehension f l = Returns ys.
Proof.
  intros H. pose proof (comprehension_spec f l) as S.
  destruct (comprehension f l) as [ys| |]; [now exists ys|exfalso..];
    apply Exists_exists in S; destruct S as (x & Hx & E);
    rewrite Forall_forall in H; destruct (H x Hx) as (y & Hy); congruence.
Qed.

Lemma max_len_ge (lens : list nat) (n : nat) :
  In n lens -> (n <= max_len lens)%nat.
Proof.
  induction lens as [|x lens IH]; simpl; [tauto|].
  intros [->|H]; [lia|]. apply IH in H. lia.
Qed.

(** When [_compute_widths] returns, there is one width per cell of the
    first row, and every row has, in each of these columns, a [str] that
    fits. *)
Lemma compute_widths_fit (rows : list (list cell)) (widths : list nat) :
  _compute_widths rows = Returns widths ->
  exists first rest,
    rows = first :: rest /\ length widths = length first
    /\ forall row i, In row rows -> (i < length first)%nat ->
                     exists c width,
                       row !! i = Some c /\ widths !! i = Some width
                       /\ fits c width.
Proof.
  unfold _compute_widths. destruct rows as [|first rest]; [discriminate|].
  intros H. exists first, rest. split; [reflexivity|].
  pose proof (comprehension_spec
                (fun i => lens ← comprehension (cell_len i) (first :: rest);
                          Returns (max_len lens))
                (seq 0 (length first))) as S.
  rewrite H in S. split.
  - apply Forall2_length in S. now rewrite length_seq in S.
  - intros row i Hrow Hi.
    assert (seq 0 (length first) !! i = Some i) as Hs
        by (apply lookup_seq; split; [reflexivity | exact Hi]).
    destruct (Forall2_lookup_l _ _ _ _ _ S Hs) as (width & Hw & E).
    pose proof (comprehension_spec (cell_len i) (first :: rest)) as S'.
    destruct (comprehension (cell_len i) (first :: rest)) as [lens| |];
      [|discriminate..].
    simpl in E. inversion E; subst width. clear E.
    apply list_elem_of_In, list_elem_of_lookup in Hrow.
    destruct Hrow as (j & Hj).
    destruct (Forall2_lookup_l _ _ _ _ _ S' Hj) as (n & Hn & E).
    unfold cell_len in E. destruct (row !! i) as [[s|]|]; try discriminate.
    inversion E; subst n. exists (Some s), (max_len lens).
    repeat split; trivial. exists s. split; [reflexivity|].
    apply max_len_ge. apply list_elem_of_In, list_elem_of_lookup. now exists j.
Qed.

(** [_compute_widths] on rows of one length: it raises [TypeError] if some
    cell is [None], and returns otherwise. *)
Lemma compute_widths_cases (n : nat) (first : list cell) (rest : list (list cell)) :
  Forall (fun row => length row = n) (first :: rest) ->
  (Forall (Forall (fun c => c <> None)) (first :: rest) ->
   exists widths, _compute_widths (first :: rest) = Returns widths)
  /\ (Exists (Exists (fun c => c = None)) (first :: rest) ->
      _compute_widths (first :: rest) = TypeError).
Proof.
  intros Hn.
  assert (length first = n) as Hf by now apply Forall_cons in Hn.
  assert (forall i row, In row (first :: rest) -> (i < n)%nat ->
                        exists c, row !! i = Some c) as Hc.
  { intros i row Hrow Hi. rewrite Forall_forall in Hn.
    apply lookup_lt_is_Some_2. rewrite Hn; [exact Hi|].
    now apply list_elem_of_In. }
  set (f := fun i => lens ← comprehension (cell_len i) (first :: rest);
                     Returns (max_len lens)).
  assert (forall i, (i < n)%nat -> f i <> IndexError) as NoIndex.
  { intros i Hi. unfold f.
    pose proof (comprehension_spec (cell_len i) (first :: rest)) as S.
    destruct (comprehension (cell_len i) (first :: rest)); try discriminate.
    exfalso. apply Exists_exists in S. destruct S as (row & Hrow & E).
    apply list_elem_of_In in Hrow.
    destruct (Hc i row Hrow Hi) as (c & Hl). unfold cell_len, cell, str in *.
    rewrite Hl in E. destruct c; discriminate. }
  assert (_compute_widths (first :: rest) <> IndexError) as NoIndex'.
  { unfold _compute_widths. fold f. intros E.
    pose proof (comprehension_spec f (seq 0 (length first))) as S.
    rewrite E in S. apply Exists_exists in S. destruct S as (i & Hi & Ei).
    apply list_elem_of_In, in_seq in Hi. apply (NoIndex i); [lia | exact Ei]. }
  split.
  - intros Hfull. unfold _compute_widths. fold f.
    apply comprehension_returns. apply Forall_forall. intros i Hi.
    apply list_elem_of_In, in_seq in Hi. unfold f.
    destruct (comprehension_returns (cell_len i) (first :: rest)) as (lens & ->);
      [|now exists (max_len lens)].
    apply Forall_forall. intros row Hrow.
    destruct (Hc i row (proj1 (list_elem_of_In _ _) Hrow)) as (c & Hl); [lia|].
    unfold cell_len, cell, str in *. rewrite Hl. rewrite Forall_forall in Hfull.
    specialize (Hfull row Hrow). rewrite Forall_forall in Hfull.
    destruct c as [s|]; [now exists (length s)|].
    exfalso. apply (Hfull None); [|reflexivity].
    apply list_elem_of_lookup. now exists i.
  - intros Hbad.
    destruct (_compute_widths (first :: rest)) as [widths| |] eqn:E;
      [exfalso | reflexivity | congruence].
    apply compute_widths_fit in E.
    destruct E as (first' & rest' & Er & _ & Hfit). inversion Er; subst first' rest'.
    apply Exists_exists in Hbad. destruct Hbad as (row & Hrow & Hex).
    apply Exists_exists in Hex. destruct Hex as (c & Hcell & ->).
    apply list_elem_of_lookup in Hcell. destruct Hcell as (i & Hi).
    apply list_elem_of_In in Hrow.
    destruct (Hfit row i Hrow) as (c & width & Hl & _ & s & Hs & _).
    + rewrite Hf. rewrite Forall_forall in Hn.
      rewrite <- (Hn row (proj2 (list_elem_of_In _ _) Hrow)).
      now apply lookup_lt_Some in Hi.
    + subst c. unfold cell, str in *. rewrite Hi in Hl. discriminate.
Qed.

Lemma join_length_ext (sep_ : str) (xs : list str) :
  forall ys, map (@length ascii) xs = map (@length ascii) ys ->
             length (join sep_ xs) = length (join sep_ ys).
Proof.
  induction xs as [|x xs IH]; intros [|y ys] H; try discriminate;
    [reflexivity|].
  simpl in H. inversion H as [[Hx Hxs]]. specialize (IH ys Hxs).
  destruct xs as [|x' xs], ys as [|y' ys]; try discriminate; [exact Hx|].
  change (join sep_ (x :: x' :: xs)) with (x ++ sep_ ++ join sep_ (x' :: xs)).
  change (join sep_ (y :: y' :: ys)) with (y ++ sep_ ++ join sep_ (y' :: ys)).
  rewrite !length_app. now rewrite Hx, IH.
Qed.

Lemma framed_length_ext (xs ys : list str) :
  map (@length ascii) xs = map (@length ascii) ys ->
  length (framed xs) = length (framed ys).
Proof.
  intros H. unfold framed. rewrite !length_app.
  now rewrite (join_length_ext _ xs ys H).
Qed.

Lemma ljust_length (s : str) (width : nat) :
  (length s <= width)%nat -> length (ljust s width) = width.
Proof. intros H. unfold ljust. rewrite length_app, repeat_length. lia. Qed.

(** Cells that fit are padded to the widths, from any column on. *)
Lemma format_cells_fit (widths : list nat) (row : list cell) :
  forall (k : nat) (ws : list nat),
    (forall j width, ws !! j = Some width -> widths !! (k + j)%nat = Some width) ->
    Forall2 fits row ws ->
    exists cells,
      comprehension (format_cell widths) (combine (seq k (length row)) row)
      = Returns cells
      /\ map (@length ascii) cells = ws.
Proof.
  induction row as [|c row IH]; intros k ws Hw Hf.
  - inversion Hf; subst. now exists [].
  - inversion Hf as [|? width ? ws' (s & -> & Hs) Hf']; subst.
    destruct (IH (Datatypes.S k) ws') as (cells & E & L); trivial.
    + intros j w Hj. replace (Datatypes.S k + j)%nat with (k + Datatypes.S j)%nat by lia.
      now apply Hw.
    + exists (ljust s width :: cells). split.
      * pose proof (Hw O width eq_refl) as Hk. rewrite Nat.add_0_r in Hk.
        cbn [length seq combine comprehension].
        match goal with
        | |- mbind _ ?x = _ =>
            assert (x = Returns (ljust s width)) as ->
                by (unfold format_cell; cbn [fst snd]; now rewrite Hk)
        end.
        cbn [mbind raising_bind]. rewrite E. reflexivity.
      * simpl. now rewrite L, ljust_length.
Qed.

Lemma format_row_fit (row : list cell) (widths : list nat) :
  Forall2 fits row widths ->
  exists line, _format_row row widths = Returns line
               /\ length line = line_length widths.
Proof.
  intros Hf. unfold _format_row, enumerate.
  destruct (format_cells_fit widths row O widths) as (cells & -> & L); trivial.
  simpl. eexists. split; [reflexivity|]. unfold line_length.
  apply framed_length_ext. rewrite L, map_map.
  rewrite <- (map_id widths) at 1. apply map_ext. intros w.
  now rewrite repeat_length.
Qed.

Lemma format_rows_fit (widths : list nat) (rows : list (list cell)) :
  Forall (fun row => Forall2 fits row widths) rows ->
  exists body,
    comprehension (fun row => _format_row row widths) rows = Returns body
    /\ length body = length rows
    /\ Forall (fun line => length line = line_length widths) body.
Proof.
  induction rows as [|row rows IH]; intros H.
  - exists []. repeat split; constructor.
  - apply Forall_cons in H. destruct H as [Hr H].
    destruct (format_row_fit row widths Hr) as (line & E & L).
    destruct (IH H) as (body & E' & Lb & Fb).
    exists (line :: body). simpl. rewrite E. simpl. rewrite E'.
    repeat split; [simpl; now rewrite Lb | now constructor].
Qed.

Lemma dashes_all (widths : list nat) :
  forall (k : nat) (ws : list nat),
    (forall j width, ws !! j = Some width -> widths !! (k + j)%nat = Some width) ->
    comprehension (dashes widths) (seq k (length ws))
    = Returns (map (fun width => repeat "-"%char width) ws).
Proof.
  intros k ws. revert k. induction ws as [|w ws IH]; intros k Hw; [reflexivity|].
  pose proof (Hw O w eq_refl) as Hk. rewrite Nat.add_0_r in Hk.
  assert (dashes widths k = Returns (repeat "-"%char w)) as Ed
      by (unfold dashes; now rewrite Hk).
  cbn [length seq comprehension map]. rewrite Ed. cbn [mbind raising_bind].
  rewrite IH; [reflexivity|].
  intros j w' Hj. replace (Datatypes.S k + j)%nat with (k + Datatypes.S j)%nat by lia.
  now apply Hw.
Qed.

Lemma fits_row (rows : list (list cell)) (first : list cell)
    (widths : list nat) (row : list cell) :
  length widths = length first ->
  (forall row i, In row rows -> (i < length first)%nat ->
                 exists c width,
                   row !! i = Some c /\ widths !! i = Some width /\ fits c width) ->
  In row rows -> length row = length first ->
  Forall2 fits row widths.
Proof.
  intros Lw Hfit Hrow Lr. apply Forall2_same_length_lookup_2; [congruence|].
  intros i c width Hc Hwi.
  destruct (Hfit row i Hrow) as (c' & w' & Hc' & Hw' & F).
  - rewrite <- Lr. now apply lookup_lt_Some in Hc.
  - congruence.
Qed.

Lemma table_row_length (comparison : ComparisonResult) :
  length (table_row comparison) = 12%nat.
Proof. reflexivity. Qed.

Lemma table_rows_length (comparisons : list ComparisonResult) :
  Forall (fun row => length row = 12%nat)
         (map Some headers :: table_rows comparisons).
Proof.
  constructor; [reflexivity|]. unfold table_rows. apply Forall_app. split.
  - apply Forall_forall. intros row Hrow.
    apply list_elem_of_In, in_map_iff in Hrow. now destruct Hrow as (c & <- & _).
  - now constructor.
Qed.

Lemma table_row_full (comparison : ComparisonResult) :
  known_employer comparison <->
  Forall (fun c => c <> None) (table_row comparison).
Proof.
  unfold known_employer, table_row. split.
  - intros H. repeat (constructor; [try discriminate|]); [|constructor].
    destruct (cv_entry comparison) as [cv|]; [now apply H | discriminate].
  - intros H cv E. rewrite E in H.
    do 8 (apply Forall_cons in H; destruct H as [_ H]).
    now apply Forall_cons in H.
Qed.

Lemma known_or_not (comparisons : list ComparisonResult) :
  Forall known_employer comparisons
  \/ Exists (fun c => exists cv, cv_entry c = Some cv /\ employer cv = None)
            comparisons.
Proof.
  induction comparisons as [|c cs [IH|IH]]; [left; constructor | |right; now right].
  destruct (cv_entry c) as [cv|] eqn:E.
  - destruct (employer cv) as [e|] eqn:Ee.
    + left. constructor; [|exact IH]. intros cv' E'.
      rewrite E in E'. inversion E'; subst. congruence.
    + right. left. now exists cv.
  - left. constructor; [|exact IH]. intros cv' E'. congruence.
Qed.

(** The lines of a table that is returned. *)
Lemma table_lines_aligned (comparisons : list ComparisonResult)
    (widths : list nat) :
  _compute_widths (map Some headers :: table_rows comparisons) = Returns widths ->
  exists header_line separator body,
    table_lines comparisons = Returns (header_line :: separator :: body)
    /\ length body = Datatypes.S (length comparisons)
    /\ Forall (fun line => length line = line_length widths)
              (header_line :: separator :: body).
Proof.
  intros W. pose proof (compute_widths_fit _ _ W) as (first & rest & E & Lw & Hfit).
  injection E as E1 E2. subst first rest.
  pose proof (table_rows_length comparisons) as Hlen.
  rewrite Forall_forall in Hlen.
  assert (forall row, In row (map Some headers :: table_rows comparisons) ->
                      Forall2 fits row widths) as Hrow.
  { intros row Hin. apply (fits_row _ _ _ _ Lw Hfit Hin).
    transitivity 12%nat; [|reflexivity]. apply Hlen. now apply list_elem_of_In. }
  destruct (format_row_fit (map Some headers) widths) as (hl & Eh & Lh);
    [apply Hrow; now left|].
  destruct (format_rows_fit widths (table_rows comparisons)) as (body & Eb & Lb & Fb).
  { apply Forall_forall. intros row Hin. apply Hrow. right.
    now apply list_elem_of_In. }
  assert (comprehension (dashes widths) (seq 0 (length headers))
          = Returns (map (fun width => repeat "-"%char width) widths)) as Ed.
  { replace (length headers) with (length widths)
      by (rewrite Lw; reflexivity).
    now apply (dashes_all widths O widths). }
  exists hl, (framed (map (fun width => repeat "-"%char width) widths)), body.
  split; [|split].
  - unfold table_lines. cbv zeta. rewrite W. cbn [mbind raising_bind].
    rewrite Eh. cbn [mbind raising_bind]. rewrite Ed. cbn [mbind raising_bind].
    rewrite Eb. reflexivity.
  - rewrite Lb. unfold table_rows. rewrite length_app, length_map. simpl. lia.
  - constructor; [exact Lh|]. constructor; [reflexivity | exact Fb].
Qed.

Lemma build_table_type_error (comparisons : list ComparisonResult) :
  _compute_widths (map Some headers :: table_rows comparisons) = TypeError ->
  build_table comparisons = TypeError.
Proof.
  intros W. unfold build_table, table_lines. cbv zeta. now rewrite W.
Qed.

Lemma table_lines_widths (comparisons : list ComparisonResult)
    (table_lines_ : list str) :
  table_lines comparisons = Returns table_lines_ ->
  exists widths,
    _compute_widths (map Some headers :: table_rows comparisons) = Returns widths.
Proof.
  unfold table_lines. cbv zeta.
  destruct (_compute_widths _) as [widths| |]; [eauto | discriminate..].
Qed.

Lemma build_table_returns (comparisons : list ComparisonResult) :
  Forall known_employer comparisons ->
  exists table, build_table comparisons = Returns table.
Proof.
  intros Hk.
  destruct (compute_widths_cases 12 (map Some headers) (table_rows comparisons)
              (table_rows_length comparisons)) as [Hok _].
  destruct Hok as (widths & W).
  - constructor; [repeat constructor; discriminate|].
    unfold table_rows. apply Forall_app. split.
    + apply Forall_forall. intros row Hrow.
      apply list_elem_of_In, in_map_iff in Hrow. destruct Hrow as (c & <- & Hc).
      apply table_row_full. rewrite Forall_forall in Hk. apply Hk.
      now apply list_elem_of_In.
    + repeat constructor; discriminate.
  - destruct (table_lines_aligned comparisons widths W) as (hl & sp & body & E & _).
    unfold build_table. rewrite E. simpl. eauto.
Qed.

End Table.

(** X20. [build_table] fails in one case only: it raises [TypeError] when
    some comparison carries a résumé record whose employer is null (the
    table then has a cell that is not a string), and returns the table
    otherwise; it never raises [IndexError]. *)
Theorem build_table_raises_iff_null_resume_employer
    (comparisons : list ComparisonResult) :
  (Forall known_employer comparisons ->
   exists table, build_table comparisons = Returns table)
  /\ (Exists (fun c => exists cv, cv_entry c = Some cv /\ employer cv = None)
             comparisons ->
      build_table comparisons = TypeError)
  /\ build_table comparisons <> IndexError.
Proof.
  destruct (compute_widths_cases 12 (map Some headers) (table_rows comparisons)
              (table_rows_length comparisons)) as [_ Hbad].
  pose proof (build_table_returns comparisons) as K.
  assert (Exists (fun c => exists cv, cv_entry c = Some cv /\ employer cv = None)
                 comparisons ->
          build_table comparisons = TypeError) as B.
  { intros Hex. apply build_table_type_error. apply Hbad.
    right. unfold table_rows. apply Exists_app. left.
    apply Exists_exists in Hex. destruct Hex as (c & Hc & cv & E & En).
    apply Exists_exists. exists (table_row c). split.
    - apply list_elem_of_In, in_map. now apply list_elem_of_In.
    - apply Exists_exists. exists None. split; [|reflexivity].
      apply list_elem_of_lookup. exists 8%nat. unfold table_row. rewrite E.
      simpl. now rewrite En. }
  split; [exact K|]. split; [exact B|].
  destruct (known_or_not comparisons) as [H|H].
  - destruct (K H) as (table & ->). discriminate.
  - rewrite (B H). discriminate.
Qed.

(** X21. A table that is returned has one line per comparison and three
    more (header, separator, total), and all its lines have one length:
    every cell is padded to its column and none is longer. *)
Theorem table_lines_have_one_length
    (comparisons : list ComparisonResult) (table_lines_ : list str) :
  table_lines comparisons = Returns table_lines_ ->
  length table_lines_ = (length comparisons + 3)%nat
  /\ exists width, Forall (fun line => length line = width) table_lines_.
Proof.
  intros H. destruct (table_lines_widths _ _ H) as (widths & W).
  destruct (table_lines_aligned comparisons widths W)
    as (hl & sp & body & E & Lb & F).
  rewrite E in H. inversion H; subst. split.
  - simpl. rewrite Lb. lia.
  - now exists (line_length widths).
Qed.

Section Pipeline.

(** The résumé record of a row is one of the résumé records given. *)
Lemma row_resume_record (certificates cv_entries : list ExperienceRecord)
    (r : ComparisonResult) (cv : ExperienceRecord) :
  In r (compare_certificates_with_cv certificates cv_entries) ->
  cv_entry r = Some cv -> In cv cv_entries.
Proof.
  rewrite compare_rows, in_app_iff, !in_map_iff.
  intros [(c & <- & _) | (cv' & <- & Hin)].
  - unfold certificate_row. destruct (accepted cv_entries c) as [[bs bi]|];
      cbn [cv_entry]; [|discriminate].
    apply nth_error_In.
  - unfold cv_only_row. cbn [cv_entry]. intros E. inversion E; subst.
    now apply unconsumed_in in Hin.
Qed.

Lemma total_days_from (comparisons : list ComparisonResult) :
  forall total : Z,
    fold_left (fun total comparison =>
                 total + default 0 (experience_days (certificate comparison)))
              comparisons total
    = total + days_of (map certificate comparisons).
Proof.
  induction comparisons as [|c cs IH]; intros total; simpl; [lia|].
  rewrite IH. lia.
Qed.

Lemma days_of_app (l1 l2 : list ExperienceRecord) :
  days_of (l1 ++ l2) = days_of l1 + days_of l2.
Proof. induction l1 as [|r l1 IH]; simpl; [reflexivity|]. rewrite IH. lia. Qed.

End Pipeline.

(** X22. The table of a comparison of parsed records is always returned:
    if every résumé record given to [compare_certificates_with_cv] comes out
    of some call of [parse_experiences_from_text], then [build_table] does
    not raise on the rows. *)
Theorem table_of_parsed_resume_is_returned
    (certificates cv_entries : list ExperienceRecord) :
  Forall (fun cv => exists txt source_ records,
                      parse_experiences_from_text txt source_ = Return records
                      /\ In cv records)
         cv_entries ->
  exists table,
    build_table (compare_certificates_with_cv certificates cv_entries)
    = Returns table.
Proof.
  intros H. apply build_table_returns.
  apply Forall_forall. intros r Hr cv E.
  apply list_elem_of_In in Hr.
  pose proof (row_resume_record _ _ _ _ Hr E) as Hin.
  rewrite Forall_forall in H.
  destruct (H cv (proj2 (list_elem_of_In _ _) Hin)) as (txt & src & recs & P & Hc).
  apply parsed_records_parsed in P. destruct P as [P _].
  rewrite Forall_forall in P.
  destruct (P cv (proj2 (list_elem_of_In _ _) Hc)) as (_ & (e & -> & _) & _).
  discriminate.
Qed.

Lemma table_of_parsed_resume_is_returned_witness :
  exists table,
    build_table
      (compare_certificates_with_cv
         [ mkRecord (lit "Certificado: prueba.pdf") (Some (lit "XYZ S.A."))
             (d 2020 1 3) (d 2021 7 15) (d 2021 7 20) (d 2021 7 15) (Some 560) ]
         [ mkRecord (lit "Hoja de vida: hv.pdf") (Some (lit "XYZ S.A."))
             (d 2020 1 3) (d 2021 7 15) (d 2021 7 15) (d 2021 7 15) (Some 560) ])
    = Returns table.
Proof.
  apply table_of_parsed_resume_is_returned.
  constructor; [|constructor].
  exists CV_TEXT, (lit "Hoja de vida: hv.pdf"). eexists. split.
  - vm_compute. reflexivity.
  - now left.
Defined.

Lemma table_lines_have_one_length_witness :
  exists table_lines_,
    table_lines [cv_only_row abc_cv] = Returns table_lines_
    /\ length table_lines_ = 4%nat
    /\ exists width, Forall (fun line => length line = width) table_lines_.
Proof.
  eexists. split; [vm_compute; reflexivity|].
  apply (table_lines_have_one_length [cv_only_row abc_cv]).
  vm_compute. reflexivity.
Defined.

(** X23. The total of the table counts the résumé too: it is the sum of the
    certificates' [experience_days] (null as 0) plus that of the rows added
    for the résumé records no certificate was matched with. *)
Theorem total_counts_resume_only_rows
    (certificates cv_entries : list ExperienceRecord) :
  total_days (compare_certificates_with_cv certificates cv_entries)
  = days_of certificates
    + days_of (map (fun cv => certificate (cv_only_row cv))
                   (unconsumed cv_entries certificates)).
Proof.
  unfold total_days. rewrite total_days_from, compare_rows, map_app, days_of_app.
  rewrite !map_map.
  assert (map (fun c => certificate (certificate_row cv_entries c)) certificates
          = certificates) as E.
  { rewrite <- (map_id certificates) at 2. apply map_ext. intros c.
    apply certificate_of_row. }
  rewrite E. lia.
Qed.

(* ===================================================================== *)
(** * Dates of the table, read by the parser *)
(* ===================================================================== *)

Section PrintedDates.

Lemma four_digit_year_text (y : Z) :
  1000 <= y <= 9999 ->
  exists a b c e,
    str_of_Z y = [a; b; c; e]
    /\ Forall (fun x => In x digit_chars) [a; b; c; e]
    /\ int_of [a; b; c; e] = y.
Proof.
  intros Hy.
  assert (forallb year_text_ok four_digit_years = true) as H
      by (vm_compute; reflexivity).
  rewrite forallb_forall in H.
  assert (In y four_digit_years) as Hin.
  { unfold four_digit_years. apply in_map_iff.
    exists (Z.to_nat y). split; [lia | apply in_seq; lia]. }
  apply H in Hin. unfold year_text_ok in Hin.
  destruct (str_of_Z y) as [|a [|b [|c [|e [|x l]]]]]; try discriminate Hin.
  apply andb_true_iff in Hin. destruct Hin as [Hd Hi].
  exists a, b, c, e. split; [reflexivity|]. split; [|now apply Z.eqb_eq].
  apply Forall_forall. intros x Hx. rewrite forallb_forall in Hd.
  apply list_elem_of_In in Hx. apply Hd in Hx. apply existsb_exists in Hx.
  destruct Hx as (x' & Hx' & E). apply Ascii.eqb_eq in E. now subst.
Qed.

Lemma digit_char (x : ascii) :
  In x digit_chars -> digit x = true /\ isspace x = false.
Proof.
  unfold digit_chars. simpl.
  intros H. repeat (destruct H as [<-|H]; [split; reflexivity|]). destruct H.
Qed.

(** [\d\d\d\d] before a hyphen takes the four digits. *)
Lemma rmatch_year_then {T : Type} (R : regex) (a b c e : ascii) (rest : str)
    (caps : captures) (K : str -> captures -> option T) :
  digit a = true -> digit b = true -> digit c = true -> digit e = true ->
  rmatch (Cat (Grp "Y" (rng digit 4 4)) R)
         (a :: b :: c :: e :: "-"%char :: rest) caps K
  = rmatch R ("-"%char :: rest) (("Y"%string, [a; b; c; e]) :: caps) K.
Proof.
  intros Ha Hb Hc He. unfold rng. cbn [rmatch count_prefix].
  rewrite Ha, Hb, Hc, He.
  change (digit "-"%char) with false. cbn [Nat.leb rep_try skipn length].
  replace (Datatypes.S (Datatypes.S (Datatypes.S (Datatypes.S (Datatypes.S (length rest)))))
           - Datatypes.S (length rest))%nat with 4%nat by lia.
  cbn [firstn].
  now destruct (rmatch R ("-"%char :: rest) (("Y"%string, [a; b; c; e]) :: caps) K).
Qed.

Lemma day_first_formats_reject (rest : str) :
  day_first_formats_fail digit_chars rest = true.
Proof. vm_compute. reflexivity. Qed.

End PrintedDates.

Section ParsedBack.

Lemma zero_padded_value (n : Z) :
  0 <= n <= 99 -> int_of (zero_padded n) = n.
Proof.
  intros Hn.
  assert (forallb (fun k => int_of (zero_padded (Z.of_nat k)) =? Z.of_nat k)
                  (seq 0 100) = true) as H by (vm_compute; reflexivity).
  rewrite forallb_forall in H. specialize (H (Z.to_nat n)).
  rewrite Z2Nat.id in H by lia. apply Z.eqb_eq, H, in_seq. lia.
Qed.

Lemma strip_fixed (x z : ascii) (mid : str) :
  isspace x = false -> isspace z = false ->
  strip (x :: mid ++ [z]) = x :: mid ++ [z].
Proof.
  intros Hx Hz. unfold strip, strip_by. cbn [lstrip_by]. rewrite Hx.
  unfold rstrip_by. change (x :: mid ++ [z]) with ((x :: mid) ++ [z]).
  rewrite rev_unit. cbn [lstrip_by]. rewrite Hz.
  change (rev (z :: rev (x :: mid))) with (rev (rev (x :: mid)) ++ [z]).
  now rewrite rev_involutive.
Qed.

Lemma units_digit_not_blank (n : Z) :
  isspace (chr (Z.to_N (48 + n mod 10))) = false.
Proof.
  pose proof (Z.mod_pos_bound n 10 ltac:(lia)) as B.
  assert (n mod 10 = 0 \/ n mod 10 = 1 \/ n mod 10 = 2 \/ n mod 10 = 3
          \/ n mod 10 = 4 \/ n mod 10 = 5 \/ n mod 10 = 6 \/ n mod 10 = 7
          \/ n mod 10 = 8 \/ n mod 10 = 9) as H by lia.
  repeat (destruct H as [->|H]; [reflexivity|]). now rewrite H.
Qed.

Lemma first_format_skip (text_ : str) (fmts1 fmts2 : list (list directive)) :
  (forall fmt, In fmt fmts1 -> try_format text_ fmt = None) ->
  first_format text_ (fmts1 ++ fmts2) = first_format text_ fmts2.
Proof.
  induction fmts1 as [|fmt fmts1 IH]; intros H; [reflexivity|].
  cbn [app first_format]. rewrite (H fmt) by now left.
  apply IH. intros f Hf. apply H. now right.
Qed.

(** [%Y-%m-%d] on four digits, a hyphen, a month and a day. *)
Lemma re_match_iso (a b c e : ascii) (m dd : Z) :
  Forall (fun x => In x digit_chars) [a; b; c; e] ->
  1 <= m <= 12 -> 1 <= dd <= 31 ->
  re_match (format_regex iso_format)
           (a :: b :: c :: e :: "-"%char :: zero_padded m
              ++ "-"%char :: zero_padded dd)
  = Some (10%nat, [ ("d"%string, zero_padded dd); ("m"%string, zero_padded m);
                    ("Y"%string, [a; b; c; e]) ]).
Proof.
  intros Hd Hm Hdd.
  assert (digit a = true /\ digit b = true /\ digit c = true /\ digit e = true)
    as (Ha & Hb & Hc & He).
  { rewrite !Forall_cons in Hd. destruct Hd as (Ia & Ib & Ic & Ie & _).
    repeat split; now apply digit_char. }
  unfold re_match.
  change (format_regex iso_format)
    with (Cat (Grp "Y" (rng digit 4 4))
              (cat_all (map directive_regex [chr_ "-"; pct_m; chr_ "-"; pct_d]))).
  rewrite (rmatch_year_then _ a b c e _ _ _ Ha Hb Hc He).
  clear Hd Ha Hb Hc He.
  assert (m = 1 \/ m = 2 \/ m = 3 \/ m = 4 \/ m = 5 \/ m = 6 \/ m = 7 \/ m = 8
          \/ m = 9 \/ m = 10 \/ m = 11 \/ m = 12) as Cm by lia.
  assert (dd = 1 \/ dd = 2 \/ dd = 3 \/ dd = 4 \/ dd = 5 \/ dd = 6 \/ dd = 7
          \/ dd = 8 \/ dd = 9 \/ dd = 10 \/ dd = 11 \/ dd = 12 \/ dd = 13
          \/ dd = 14 \/ dd = 15 \/ dd = 16 \/ dd = 17 \/ dd = 18 \/ dd = 19
          \/ dd = 20 \/ dd = 21 \/ dd = 22 \/ dd = 23 \/ dd = 24 \/ dd = 25
          \/ dd = 26 \/ dd = 27 \/ dd = 28 \/ dd = 29 \/ dd = 30 \/ dd = 31)
    as Cd by lia.
  clear Hm Hdd.
  repeat (destruct Cm as [->|Cm]); try subst m;
    repeat (destruct Cd as [->|Cd]); try subst dd;
    vm_compute; reflexivity.
Qed.

Lemma strptime_of_groups (text_ y4 m2 d2 : str) :
  re_match (format_regex iso_format) text_
  = Some (length text_, [ ("d"%string, d2); ("m"%string, m2); ("Y"%string, y4) ]) ->
  strptime text_ iso_format = date_new (int_of y4) (int_of m2) (int_of d2).
Proof.
  intros E. unfold strptime. rewrite E, Nat.eqb_refl. reflexivity.
Qed.

End ParsedBack.

(** X24. A date as the table prints it is read back by the parser: for
    every calendar date from the year 1000 on, [_parse_date] applied to
    [_format_date]'s text returns that date.  (The four day-first formats
    reject the text; [%Y-%m-%d] accepts it.) *)
Theorem printed_date_parses_back (v : date) :
  valid_date v = true -> 1000 <= year v ->
  _parse_date (_format_date (Some v)) = Return (Some v).
Proof.
  destruct v as [y m dd]. unfold valid_date. cbn [year month day].
  intros V Hy. pose proof V as C. apply check_date_fields_spec in C.
  destruct C as (Hy' & Hm & Hdd).
  assert (1 <= dd <= 31) as Hd31.
  { split; [lia|]. unfold _days_in_month in Hdd.
    destruct (_ && _) in Hdd; [lia|].
    assert (m = 1 \/ m = 2 \/ m = 3 \/ m = 4 \/ m = 5 \/ m = 6 \/ m = 7 \/ m = 8
            \/ m = 9 \/ m = 10 \/ m = 11 \/ m = 12) as Cm by lia.
    repeat (destruct Cm as [->|Cm]); try subst m; simpl in Hdd; lia. }
  destruct (four_digit_year_text y) as (a & b & c & e & Ey & Hdig & Ei); [lia|].
  cbn [_format_date]. unfold strftime_Y_m_d. cbn [year month day].
  rewrite Ey. cbn [app].
  set (text_ := a :: b :: c :: e :: "-"%char :: zero_padded m
                  ++ "-"%char :: zero_padded dd).
  assert (strip text_ = text_) as Es.
  { subst text_. unfold zero_padded. cbn [app].
    apply (strip_fixed a _ [b; c; e; "-"%char; _; _; "-"%char; _]).
    - rewrite Forall_cons in Hdig. now apply digit_char.
    - apply units_digit_not_blank. }
  assert (forall fmt, In fmt (firstn 4 formats) -> try_format text_ fmt = None)
    as Hfail.
  { intros fmt Hf. pose proof (day_first_formats_reject
                                 (e :: "-"%char :: zero_padded m
                                    ++ "-"%char :: zero_padded dd)) as R.
    unfold day_first_formats_fail in R. rewrite !Forall_cons in Hdig.
    destruct Hdig as (Ia & Ib & Ic & _).
    rewrite forallb_forall in R. specialize (R a Ia).
    rewrite forallb_forall in R. specialize (R b Ib).
    rewrite forallb_forall in R. specialize (R c Ic).
    rewrite forallb_forall in R. specialize (R fmt Hf).
    subst text_. now destruct (try_format _ fmt). }
  assert (try_format text_ iso_format = Some (mkdate y m dd)) as Eiso.
  { unfold try_format.
    rewrite (strptime_of_groups text_ [a; b; c; e] (zero_padded m) (zero_padded dd))
      by (apply re_match_iso; trivial).
    rewrite Ei, !zero_padded_value by lia.
    unfold date_new. rewrite V. cbn [year month day].
    destruct (Z.ltb_spec y 100) as [Hlt|_]; [lia|]. now rewrite V. }
  unfold _parse_date. rewrite Es. unfold _parse_numeric_date.
  change formats with (firstn 4 formats ++ [iso_format]).
  rewrite (first_format_skip _ _ _ Hfail). cbn [first_format].
  now rewrite Eiso.
Qed.

Lemma printed_date_parses_back_witness :
  _parse_date (_format_date (Some (mkdate 2021 7 15)))
  = Return (Some (mkdate 2021 7 15)).
Proof.
  apply (printed_date_parses_back (mkdate 2021 7 15)).
  - reflexivity.
  - simpl. lia.
Defined.

(* ===================================================================== *)
(** * Distance between start dates ([_date_difference]) *)
(* ===================================================================== *)

Lemma toordinal_injective (a b : date) :
  valid_date a = true -> valid_date b = true ->
  toordinal a = toordinal b -> a = b.
Proof.
  intros Va Vb E. apply date_cmp_eq.
  rewrite (date_cmp_toordinal a b Va Vb). now apply Z.compare_eq_iff.
Qed.

(** X25. [_date_difference] is a distance on dates: it does not depend on
    the order of its arguments, is null exactly when one of them is, is
    never negative, and is 0 for two calendar dates only if they are the
    same day.  So whether the start dates of a pair match does not depend
    on which of the two records is the certificate. *)
Theorem date_difference_is_a_distance (a b : option date) :
  _date_difference a b = _date_difference b a
  /\ (_date_difference a b = None <-> a = None \/ b = None)
  /\ (forall n, _date_difference a b = Some n -> 0 <= n)
  /\ (valid_opt a = true -> valid_opt b = true ->
      _date_difference a b = Some 0 -> a = b)
  /\ (forall c cv : ExperienceRecord,
        ms_start_date_match (_score_pair c cv)
        = ms_start_date_match (_score_pair cv c)).
Proof.
  assert (forall x y : option date, _date_difference x y = _date_difference y x)
    as Sym.
  { intros [x|] [y|]; simpl; trivial. unfold sub_days. f_equal. lia. }
  split; [apply Sym|]. split; [|split; [|split]].
  - destruct a, b; simpl; split; intros H; try discriminate; auto;
      destruct H; discriminate.
  - destruct a, b; simpl; intros n H; inversion H. lia.
  - destruct a as [x|], b as [y|]; simpl; try discriminate.
    intros Va Vb H. inversion H as [H0]. f_equal.
    apply toordinal_injective; trivial. unfold sub_days in H0. lia.
  - intros c cv. unfold _score_pair. cbn [ms_start_date_match].
    now rewrite (Sym (start_date c) (start_date cv)).
Qed.

(* ===================================================================== *)
(** * Texts without dates *)
(* ===================================================================== *)

Lemma section_without_date (source_ : str) (section : ParsedSection)
    (acc : list ExperienceRecord) :
  finditer DATE_PATTERN (text section) = [] ->
  section_step source_ section acc = Return acc.
Proof.
  intros H. unfold section_step, _find_first_matching_date, _extract_issue_date.
  rewrite H. reflexivity.
Qed.

(** X26. A text in which no section holds anything that looks like a date
    yields no record and no error, whatever else it says. *)
Theorem text_without_dates_yields_nothing (txt source_ : str) :
  Forall (fun sec => finditer DATE_PATTERN (text sec) = [])
         (split_into_sections txt) ->
  parse_experiences_from_text txt source_ = Return [].
Proof.
  intros H. unfold parse_experiences_from_text.
  destruct (split_into_sections txt) as [|sec secs] eqn:S.
  - simpl. now rewrite (blank_text_no_record txt source_ (no_section_blank txt S)).
  - clear S. induction H as [|s l Hs _ IH]; [reflexivity|].
    cbn [sections_fold]. rewrite (section_without_date _ _ _ Hs). exact IH.
Qed.

Lemma text_without_dates_yields_nothing_witness :
  parse_experiences_from_text (lit "Empresa XYZ S.A.
Cargo: analista") (lit "Certificado: 1.pdf") = Return [].
Proof.
  apply text_without_dates_yields_nothing.
  let v := eval vm_compute in (split_into_sections (lit "Empresa XYZ S.A.
Cargo: analista")) in
  change (split_into_sections (lit "Empresa XYZ S.A.
Cargo: analista")) with v.
  repeat constructor.
Defined.
